(** * Privacy Cash SDK (chrome-extension build): the UTXO synchronisation core

    A shallow embedding of [getUtxos.ts] (both revisions shipped with the
    repository), of [utils/storage-key-encryption.ts] and of the
    [clearCache] method of [index.ts], with the properties of the
    natural-language specification stated and proved over it.

    Conventions of the embedding

    - JavaScript strings are [string]; the byte arrays handed to the Web
      Crypto API are byte strings as well (a [string] is a list of 8-bit
      characters, and the wallet identities encoded here are ASCII).
    - JavaScript numbers that this code stores and reads back (fetch
      offsets, ledger indices) are integers; [jsnum] keeps an integer exactly
      and has one more value, [JNaN], for what [Number] makes of a string
      that is no numeral.
    - The persistent storage adapter ([CacheStorage]) is a finite map from
      string keys to string values, [chrome.storage.local] a second, optional
      one.
    - A function that can throw returns a [Result]; a loop that need not
      terminate takes fuel and returns [None] when the fuel runs out.
    - What the code imports from other packages (SHA-256, AES-GCM, base64,
      JSON, note decryption, nullifier and PDA derivation) and the constants
      of [utils/constants.ts] are fields of the class [Primitives]. *)

From Stdlib Require Import ZArith String Ascii List Bool Lia.
From Stdlib Require Import DecimalString DecimalZ DecimalN DecimalPos.
From Stdlib Require Import Sorting.Sorted Sorting.Permutation.
From stdpp Require Import base tactics option list gmap strings fin_maps.

Open Scope string_scope.
Open Scope Z_scope.
Open Scope list_scope.
Set Warnings "-clear-no-such-hyp".

(** ** Results of functions that can throw *)

Inductive Result (A : Type) : Type :=
| Ok (a : A)
| Err (msg : string).
Arguments Ok {A} a.
Arguments Err {A} msg.

#[global] Instance Result_bind : MBind Result :=
  fun A B (k : A -> Result B) (r : Result A) =>
    match r with
    | Ok a => k a
    | Err m => Err m
    end.

Definition is_ok {A} (r : Result A) : bool :=
  match r with Ok _ => true | Err _ => false end.

(** Pairwise distinct keys, read off a [NoDup] hypothesis. *)
Ltac nodup_facts H :=
  repeat match type of H with
         | NoDup (_ :: _) =>
             let Hx := fresh "Hnotin" in
             apply NoDup_cons in H as [Hx H];
             repeat (apply not_elem_of_cons in Hx as [? Hx])
         end.

(** ** JavaScript values *)

Module Js.

(** *** Numbers *)

Inductive jsnum : Type :=
| JNaN
| JInt (z : Z).

#[global] Instance jsnum_eq_dec : EqDecision jsnum.
Proof. solve_decision. Defined.

(** [a + b] *)
Definition add (a b : jsnum) : jsnum :=
  match a, b with
  | JInt x, JInt y => JInt (x + y)
  | _, _ => JNaN
  end.

(** [a - b] *)
Definition sub (a b : jsnum) : jsnum :=
  match a, b with
  | JInt x, JInt y => JInt (x - y)
  | _, _ => JNaN
  end.

(** [a > b]: false as soon as one side is NaN *)
Definition gt (a b : jsnum) : bool :=
  match a, b with
  | JInt x, JInt y => y <? x
  | _, _ => false
  end.

Definition is_int (a : jsnum) : Prop :=
  match a with JInt _ => True | JNaN => False end.

#[global] Instance is_int_dec a : Decision (is_int a).
Proof. destruct a; simpl; apply _. Defined.

(** A run of decimal digits, as [StringToNumber] reads an unsigned
    integer literal; the empty run is no literal. *)
Definition digits (s : string) : option Z :=
  match s with
  | "" => None
  | _ => (fun d => Z.of_N (N.of_uint d)) <$> NilEmpty.uint_of_string s
  end.

(** [Number(s)] on the integer numerals: the empty string is [0], an
    optional sign may precede the digits, and everything else is [NaN].
    (Fractions, exponents, other radices, surrounding blanks and the
    infinities are outside the integers kept here; the code never writes
    one of them.) *)
Definition Number (s : string) : jsnum :=
  match s with
  | "" => JInt 0
  | String c s' =>
      if Ascii.eqb c "-" then
        match digits s' with Some n => JInt (- n) | None => JNaN end
      else if Ascii.eqb c "+" then
        match digits s' with Some n => JInt n | None => JNaN end
      else
        match digits s with Some n => JInt n | None => JNaN end
  end.

(** The integer a number stands for ([0] for NaN). *)
Definition to_Z (n : jsnum) : Z :=
  match n with JInt z => z | JNaN => 0 end.

(** [n.toString()] *)
Definition toString (n : jsnum) : string :=
  match n with
  | JNaN => "NaN"
  | JInt z => NilEmpty.string_of_int (Z.to_int z)
  end.

(** *** Strings and arrays *)

(** A string is truthy when it is not empty. *)
Definition truthy (s : string) : bool :=
  match s with "" => false | _ => true end.

(** [s.split(c)] for a separator of one character. *)
Fixpoint split (c : ascii) (s : string) : list string :=
  match s with
  | "" => [""]
  | String a s' =>
      if Ascii.eqb a c then "" :: split c s'
      else match split c s' with
           | h :: t => String a h :: t
           | [] => [String a ""]
           end
  end.

(** [l.join(sep)] *)
Definition join (sep : string) (l : list string) : string :=
  String.concat sep l.

(** [[...new Set(l)]]: the elements of [l] in the order of their first
    occurrence. *)
Definition set_add {A} `{EqDecision A} (acc : list A) (x : A) : list A :=
  if decide (x ∈ acc) then acc else acc ++ [x].

Definition uniq {A} `{EqDecision A} (l : list A) : list A :=
  fold_left set_add l [].

(** The comparator [(a, b) => b - a]; [Array.prototype.sort] reads a NaN
    result as [+0]. *)
Definition cmp_desc (a b : jsnum) : Z :=
  match sub b a with
  | JInt d => d
  | JNaN => 0
  end.

(** [l.sort(cmp)]: a stable sort. It is written as the insertion sort; any
    stable sort returns the same array when the comparator is a consistent
    one, which [cmp_desc] is on arrays without NaN. *)
Fixpoint sort_insert {A} (cmp : A -> A -> Z) (x : A) (l : list A) : list A :=
  match l with
  | [] => [x]
  | y :: l' => if cmp x y <=? 0 then x :: y :: l' else y :: sort_insert cmp x l'
  end.

Definition sort {A} (cmp : A -> A -> Z) (l : list A) : list A :=
  foldr (sort_insert cmp) [] l.

(** [l.slice(0, n)] *)
Definition slice0 {A} (n : nat) (l : list A) : list A := take n l.

End Js.

Example Number_examples :
  Js.Number "50" = Js.JInt 50 /\ Js.Number "" = Js.JInt 0 /\
  Js.Number "-7" = Js.JInt (-7) /\ Js.Number "abc" = Js.JNaN /\
  Js.Number "NaN" = Js.JNaN /\ Js.Number "-" = Js.JNaN /\
  Js.toString (Js.JInt 250) = "250" /\ Js.toString (Js.JInt (-3)) = "-3".
Proof. repeat split; reflexivity. Qed.

Example split_examples :
  Js.split "," "3,1,2" = ["3"; "1"; "2"] /\ Js.split "," "" = [""] /\
  Js.split "," "7," = ["7"; ""] /\ Js.join "," ["3"; "2"; "1"] = "3,2,1".
Proof. repeat split; reflexivity. Qed.

Example sort_examples :
  Js.sort Js.cmp_desc (Js.uniq (map Js.JInt [3; 9; 3; 1; 9; 4])) =
  map Js.JInt [9; 4; 3; 1].
Proof. reflexivity. Qed.

(** ** What the code imports *)

(** A decrypted note ([models/utxo.ts]): its amount (a [BN]), its ledger
    index, and the rest of the payload (blinding, key pair), which this
    code only hands on. *)
Record Utxo : Type := mkUtxo {
  amount : Z;
  index : Z;
  payload : string;
}.

#[global] Instance Utxo_eq_dec : EqDecision Utxo.
Proof. solve_decision. Defined.

Class Primitives : Type := {
  (** [utils/constants.ts] *)
  PROGRAM_ID : string;
  LSK_FETCH_OFFSET : string;
  LSK_ENCRYPTED_OUTPUTS : string;
  FETCH_UTXOS_GROUP_SIZE : Z;
  (** [crypto.subtle.digest('SHA-256', bytes)] *)
  sha256 : string -> string;
  (** [btoa] and [atob]; [atob] throws on what is no base64 *)
  btoa : string -> string;
  atob : string -> option string;
  (** [crypto.subtle.importKey('raw', bytes, 'AES-GCM')]; it throws on a key
      of a wrong length *)
  importKey : string -> option string;
  (** [crypto.subtle.encrypt({name: 'AES-GCM', iv}, key, data)] *)
  aes_gcm_encrypt : string -> string -> string -> string;
  (** [JSON.parse] and [JSON.stringify] on the arrays of strings kept in the
      ciphertext cache; [JSON_parse] throws on anything else *)
  JSON_parse : string -> option (list string);
  JSON_stringify : list string -> string;
  (** [EncryptionService.decryptUtxo]; it throws on a ciphertext of another
      wallet *)
  decryptUtxo : string -> option Utxo;
  (** [Utxo.getNullifier] followed by [leInt2Buff] and [reverse] *)
  getNullifier : Utxo -> string;
  (** [PublicKey.findProgramAddressSync([seed, nullifier], PROGRAM_ID)] *)
  findProgramAddress : string -> string -> string;
}.

(** ** The persistent storage *)

(** The [CacheStorage] adapter handed to the SDK ([cache]) and, when the
    code runs inside the extension, [chrome.storage.local]. The code reads
    and writes the second one directly; calls to it are taken to succeed
    (a failing one is caught and ignored by the code). *)
Record Storage : Type := mkStorage {
  cache : gmap string string;
  chromeLocal : option (gmap string string);
}.

Module Store.

(** [storage.getItem(k)] *)
Definition getItem (k : string) (st : Storage) : option string :=
  cache st !! k.

(** [storage.setItem(k, v)] *)
Definition setItem (k v : string) (st : Storage) : Storage :=
  mkStorage (<[k := v]> (cache st)) (chromeLocal st).

(** [storage.removeItem(k)] *)
Definition removeItem (k : string) (st : Storage) : Storage :=
  mkStorage (delete k (cache st)) (chromeLocal st).

(** [typeof chrome !== 'undefined' && chrome.storage && chrome.storage.local] *)
Definition hasChrome (st : Storage) : bool :=
  match chromeLocal st with Some _ => true | None => false end.

(** [chrome.storage.local.get(k)] followed by [result[k] || null] *)
Definition chromeGet (k : string) (st : Storage) : option string :=
  match chromeLocal st with
  | Some c =>
      match c !! k with
      | Some v => if Js.truthy v then Some v else None
      | None => None
      end
  | None => None
  end.

(** [chrome.storage.local.set({[k]: v})], guarded by the test for [chrome] *)
Definition chromeSet (k v : string) (st : Storage) : Storage :=
  mkStorage (cache st) ((fun c => <[k := v]> c) <$> chromeLocal st).

(** [chrome.storage.local.remove(keys)] *)
Definition chromeRemove (keys : list string) (st : Storage) : Storage :=
  mkStorage (cache st) ((fun c => foldr delete c keys) <$> chromeLocal st).

(** [Promise.all(keys.map(key => storage.removeItem(key)))] *)
Definition removeItems (keys : list string) (st : Storage) : Storage :=
  foldl (fun s k => removeItem k s) st keys.

(** A value looked up in the adapter and, when it has none, in
    [chrome.storage.local]. *)
Definition readThrough (k : string) (st : Storage) : option string :=
  match getItem k st with
  | Some v => Some v
  | None => chromeGet k st
  end.

(** The value written to the adapter and to [chrome.storage.local]. *)
Definition writeBoth (k v : string) (st : Storage) : Storage :=
  chromeSet k v (setItem k v st).

End Store.

(** ** A concrete instance

    Stand-ins for the imported functions, used to run the definitions on
    concrete inputs. *)

Module Sample.

Definition dq : string := String (ascii_of_nat 34) "".

Fixpoint strip_last (c : ascii) (s : string) : option string :=
  match s with
  | "" => None
  | String a r =>
      match r with
      | "" => if Ascii.eqb a c then Some "" else None
      | _ => String a <$> strip_last c r
      end
  end.

Definition unquote (s : string) : option string :=
  match s with
  | String a r => if Ascii.eqb a (ascii_of_nat 34) then strip_last (ascii_of_nat 34) r else None
  | "" => None
  end.

Definition stringify (l : list string) : string :=
  "[" +:+ Js.join "," (map (fun s => dq +:+ s +:+ dq) l) +:+ "]".

Definition parse (s : string) : option (list string) :=
  match s with
  | String a r =>
      if Ascii.eqb a "[" then
        match strip_last "]" r with
        | Some "" => Some []
        | Some inner => mapM unquote (Js.split "," inner)
        | None => None
        end
      else None
  | "" => None
  end.

Definition decrypt (c : string) : option Utxo :=
  if String.eqb c "aa" then Some (mkUtxo 5 0 "aa")
  else if String.eqb c "bb" then Some (mkUtxo 0 1 "bb")
  else if String.eqb c "cc" then Some (mkUtxo 7 0 "cc")
  else if String.eqb c "dd" then Some (mkUtxo 9 3 "dd")
  else if String.eqb c "ee" then Some (mkUtxo 9007199254740992 4 "ee")
  else None.

#[local] Instance prims : Primitives := {|
  PROGRAM_ID := "9fhQBbumKEFuXtMBDw8AaQyAjCorLGJQiS3skWZdQyQD";
  LSK_FETCH_OFFSET := "fetch_offset";
  LSK_ENCRYPTED_OUTPUTS := "encrypted_outputs";
  FETCH_UTXOS_GROUP_SIZE := 100;
  sha256 := fun s => "sha256:" +:+ s;
  btoa := fun s => s;
  atob := fun s => Some s;
  importKey := fun k => if Nat.eqb (String.length k) 16 then Some k else None;
  aes_gcm_encrypt := fun k iv p => "aes(" +:+ k +:+ "," +:+ p +:+ ")";
  JSON_parse := parse;
  JSON_stringify := stringify;
  decryptUtxo := decrypt;
  getNullifier := fun u => payload u +:+ "#" +:+ Js.toString (Js.JInt (index u));
  findProgramAddress := fun seed n => seed +:+ "/" +:+ n;
|}.

Definition wallet : string := "4Nd1mBQtrMJVYVfKf2PJy9NZUZdTAsp7D4xWLs4gDB4T".
Definition otherWallet : string := "7xKXtg2CW87d97TXJSDpbD5jBkheTqA83TZRuJosgAsU".
Definition sessionKey : string := "0123456789abcdef".

End Sample.

Example sample_json :
  Sample.parse (Sample.stringify ["aa"; "bb"]) = Some ["aa"; "bb"] /\
  Sample.parse (Sample.stringify []) = Some [] /\
  Sample.parse "oops" = None.
Proof. repeat split; reflexivity. Qed.

(** ** Storage-key suffixes ([hashPublicKey], [encryptStorageKeyName],
    [localstorageKey], [localstorageKeyOld]) *)

Module KeyDirectory.

(** The two memo tables of [getUtxos.ts]. *)
Record Caches : Type := mkCaches {
  publicKeyHashCache : gmap string string;
  publicKeyEncryptionCache : gmap string string;
}.

Definition no_caches : Caches := mkCaches ∅ ∅.

(** [every character of s satisfies p] *)
Fixpoint string_forallb (p : ascii -> bool) (s : string) : bool :=
  match s with
  | "" => true
  | String a s' => p a && string_forallb p s'
  end.

Fixpoint string_existsb (p : ascii -> bool) (s : string) : bool :=
  match s with
  | "" => false
  | String a s' => p a || string_existsb p s'
  end.

(** [PublicKey.toString()] is the base58 encoding of the key. *)
Definition base58_alphabet : string :=
  "123456789ABCDEFGHJKLMNPQRSTUVWXYZabcdefghijkmnopqrstuvwxyz".

Definition is_base58 (s : string) : bool :=
  string_forallb (fun a => string_existsb (Ascii.eqb a) base58_alphabet) s.

(** [s.replace(/\+/g, '-').replace(/\//g, '_').replace(/=/g, '')] *)
Fixpoint base64url (s : string) : string :=
  match s with
  | "" => ""
  | String a s' =>
      if Ascii.eqb a "+" then String "-" (base64url s')
      else if Ascii.eqb a "/" then String "_" (base64url s')
      else if Ascii.eqb a "=" then base64url s'
      else String a (base64url s')
  end.

Section WithPrimitives.
Context {Pr : Primitives}.

(** The first six characters of the program identifier. *)
Definition contractPrefix : string := String.substring 0 6 PROGRAM_ID.

(** The hashed name of a wallet, without the memo table. *)
Definition hashedName (keyString : string) : string :=
  base64url (btoa (sha256 keyString)).

Definition hashPublicKey (keyString : string) (c : Caches) : string * Caches :=
  match publicKeyHashCache c !! keyString with
  | Some v => (v, c)
  | None =>
      let data := keyString in
      let hashBuffer := sha256 data in
      let base64 := btoa hashBuffer in
      let v := base64url base64 in
      (v, mkCaches (<[keyString := v]> (publicKeyHashCache c))
                   (publicKeyEncryptionCache c))
  end.

(** [encryptStorageKeyName]: every failure inside is rethrown as one error. *)
Definition encryptStorageKeyName (publicKeyString encryptionKey : string)
  : Result string :=
  match atob encryptionKey with
  | None => Err "Failed to encrypt storage key name"
  | Some keyBytes =>
      match importKey keyBytes with
      | None => Err "Failed to encrypt storage key name"
      | Some cryptoKey =>
          let publicKeyBytes := publicKeyString in
          let hashBuffer := sha256 publicKeyBytes in
          let iv := String.substring 0 12 hashBuffer in
          let dataToEncrypt := publicKeyString in
          let encryptedBuffer := aes_gcm_encrypt cryptoKey iv dataToEncrypt in
          let combined := iv +:+ encryptedBuffer in
          Ok (base64url (btoa combined))
      end
  end.

(** The optional encryption key as the test [if (encryptionKey)] reads it:
    [null], [undefined] and the empty string are all falsy. *)
Definition usableKey (encryptionKey : option string) : option string :=
  match encryptionKey with
  | Some ek => if Js.truthy ek then Some ek else None
  | None => None
  end.

Definition localstorageKey (keyString : string) (encryptionKey : option string)
  (c : Caches) : Result string * Caches :=
  match usableKey encryptionKey with
  | Some ek =>
      let cacheKey := keyString +:+ ":" +:+ ek in
      match publicKeyEncryptionCache c !! cacheKey with
      | Some v => (Ok (contractPrefix +:+ v), c)
      | None =>
          match encryptStorageKeyName keyString ek with
          | Ok encryptedKey =>
              (Ok (contractPrefix +:+ encryptedKey),
               mkCaches (publicKeyHashCache c)
                        (<[cacheKey := encryptedKey]> (publicKeyEncryptionCache c)))
          | Err m => (Err m, c)
          end
      end
  | None =>
      let '(hashedKey, c') := hashPublicKey keyString c in
      (Ok (contractPrefix +:+ hashedKey), c')
  end.

(** [localstorageKeyOld] *)
Definition localstorageKeyOld (keyString : string) : string :=
  String.substring 0 6 PROGRAM_ID +:+ keyString.

(** The suffix as a function of the wallet and the key alone. *)
Definition storageKeySuffix (keyString : string) (encryptionKey : option string)
  : Result string :=
  match usableKey encryptionKey with
  | Some ek =>
      match encryptStorageKeyName keyString ek with
      | Ok v => Ok (contractPrefix +:+ v)
      | Err m => Err m
      end
  | None => Ok (contractPrefix +:+ hashedName keyString)
  end.

(** The memo tables a process can hold: empty at its start, then filled by
    calls of [localstorageKey] on wallet identities. *)
Inductive reachable : Caches -> Prop :=
| reachable_start : reachable no_caches
| reachable_call c w ek :
    reachable c -> is_base58 w = true ->
    reachable (snd (localstorageKey w ek c)).

(** What every reachable memo table satisfies. *)
Definition caches_sound (c : Caches) : Prop :=
  (forall w v, publicKeyHashCache c !! w = Some v -> v = hashedName w) /\
  (forall ck v, publicKeyEncryptionCache c !! ck = Some v ->
     exists w ek, is_base58 w = true /\ ck = w +:+ ":" +:+ ek /\
                  encryptStorageKeyName w ek = Ok v).

End WithPrimitives.

(** *** Proofs *)

Lemma base58_no_colon a s :
  is_base58 (String a s) = true -> a <> ":"%char /\ is_base58 s = true.
Proof.
  unfold is_base58. simpl. intros Hb.
  apply andb_true_iff in Hb as [Ha Hs]. split; [|exact Hs].
  intros ->. vm_compute in Ha. discriminate.
Qed.

(** A memo key [w:ek] determines [w] and [ek] when [w] is base58. *)
Lemma cacheKey_inj w1 w2 e1 e2 :
  is_base58 w1 = true -> is_base58 w2 = true ->
  w1 +:+ ":" +:+ e1 = w2 +:+ ":" +:+ e2 -> w1 = w2 /\ e1 = e2.
Proof.
  revert w2. induction w1 as [|a w1 IH]; intros [|b w2] H1 H2 E; simpl in E.
  - by inversion E.
  - inversion E; subst. by apply base58_no_colon in H2 as [? _].
  - inversion E; subst. by apply base58_no_colon in H1 as [? _].
  - inversion E; subst.
    apply base58_no_colon in H1 as [_ H1], H2 as [_ H2].
    destruct (IH w2 H1 H2) as [-> ->]; auto.
Qed.

Section Proofs.
Context {Pr : Primitives}.

Lemma caches_sound_start : caches_sound no_caches.
Proof. split; intros ? ?; simpl; by rewrite lookup_empty. Qed.

Lemma caches_sound_call c w ek :
  caches_sound c -> is_base58 w = true ->
  caches_sound (snd (localstorageKey w ek c)).
Proof.
  intros [Hh He] Hw. unfold localstorageKey.
  destruct (usableKey ek) as [k|].
  - destruct (publicKeyEncryptionCache c !! (w +:+ ":" +:+ k)) eqn:El; [by split|].
    destruct (encryptStorageKeyName w k) as [v|m] eqn:Ee; [|by split].
    split; [exact Hh|]. simpl. intros ck v' Hl.
    destruct (decide (w +:+ ":" +:+ k = ck)) as [<-|Hne].
    + rewrite lookup_insert_eq in Hl. inversion Hl; subst. eauto.
    + rewrite lookup_insert_ne in Hl by done. eauto.
  - unfold hashPublicKey.
    destruct (publicKeyHashCache c !! w) eqn:El; [by split|].
    split; [|exact He]. simpl. intros w' v' Hl.
    destruct (decide (w = w')) as [<-|Hne].
    + rewrite lookup_insert_eq in Hl. by inversion Hl.
    + rewrite lookup_insert_ne in Hl by done. eauto.
Qed.

Lemma reachable_sound c : reachable c -> caches_sound c.
Proof.
  induction 1; [apply caches_sound_start | by apply caches_sound_call].
Qed.

(** With sound memo tables [localstorageKey] answers what the suffix
    function says: the tables are not observable. *)
Lemma localstorageKey_pure c w ek :
  caches_sound c -> is_base58 w = true ->
  fst (localstorageKey w ek c) = storageKeySuffix w ek.
Proof.
  intros [Hh He] Hw. unfold localstorageKey, storageKeySuffix.
  destruct (usableKey ek) as [k|].
  - destruct (publicKeyEncryptionCache c !! (w +:+ ":" +:+ k)) as [v|] eqn:El.
    + destruct (He _ _ El) as (w' & k' & Hw' & Hck & Henc).
      destruct (cacheKey_inj _ _ _ _ Hw Hw' Hck) as [-> ->].
      by rewrite Henc.
    + by destruct (encryptStorageKeyName w k).
  - unfold hashPublicKey.
    destruct (publicKeyHashCache c !! w) as [v|] eqn:El; simpl; [|done].
    by rewrite (Hh _ _ El).
Qed.

(** C9. Storage-key suffix derivation is deterministic: whatever the state
    of the two memo tables of the process (a later call in the same
    process, or the first call after a restart), [localstorageKey] returns
    the same string for the same wallet and the same optional encryption
    key. The hashed form is [contractPrefix] followed by the base64url of
    the SHA-256 of the wallet string; the encrypted form is a function of
    the wallet string and the key, its IV being the first 12 bytes of that
    SHA-256 and not a random value. *)
Theorem localstorageKey_deterministic (c1 c2 : Caches) (w : string)
    (ek : option string) :
  reachable c1 -> reachable c2 -> is_base58 w = true ->
  fst (localstorageKey w ek c1) = fst (localstorageKey w ek c2) /\
  fst (localstorageKey w None c1)
    = Ok (contractPrefix +:+ base64url (btoa (sha256 w))) /\
  (forall k keyBytes cryptoKey,
     ek = Some k -> Js.truthy k = true ->
     atob k = Some keyBytes -> importKey keyBytes = Some cryptoKey ->
     fst (localstorageKey w ek c1)
       = Ok (contractPrefix +:+
             base64url (btoa (String.substring 0 12 (sha256 w) +:+
               aes_gcm_encrypt cryptoKey (String.substring 0 12 (sha256 w)) w)))).
Proof.
  intros R1 R2 Hw.
  apply reachable_sound in R1, R2.
  rewrite !localstorageKey_pure by done.
  split; [done|]. split; [done|].
  intros k kb ck -> Hk Ha Hi.
  unfold storageKeySuffix, usableKey, encryptStorageKeyName.
  by rewrite Hk, Ha, Hi.
Qed.

End Proofs.

Lemma localstorageKey_deterministic_witness :
  let c1 := no_caches in
  let c2 := snd (localstorageKey (Pr := Sample.prims) Sample.wallet
                   (Some Sample.sessionKey) no_caches) in
  is_base58 Sample.wallet = true /\
  fst (localstorageKey (Pr := Sample.prims) Sample.wallet (Some Sample.sessionKey) c1)
    = fst (localstorageKey (Pr := Sample.prims) Sample.wallet (Some Sample.sessionKey) c2).
Proof.
  split; [reflexivity|].
  apply (localstorageKey_deterministic (Pr := Sample.prims)).
  - apply reachable_start.
  - apply (reachable_call (Pr := Sample.prims)); [apply reachable_start | reflexivity].
  - reflexivity.
Defined.

Example localstorageKey_sample :
  fst (localstorageKey (Pr := Sample.prims) Sample.wallet None no_caches)
    = Ok "9fhQBbsha256:4Nd1mBQtrMJVYVfKf2PJy9NZUZdTAsp7D4xWLs4gDB4T" /\
  fst (localstorageKey (Pr := Sample.prims) Sample.wallet (Some "") no_caches)
    = fst (localstorageKey (Pr := Sample.prims) Sample.wallet None no_caches) /\
  fst (localstorageKey (Pr := Sample.prims) Sample.wallet (Some "short") no_caches)
    = Err "Failed to encrypt storage key name".
Proof. repeat split; reflexivity. Qed.

End KeyDirectory.

(** ** Migration of the storage keys ([migrateStorageKeys]) *)

Module Migration.
Import KeyDirectory.

(** The rows of [keysToMigrate]. *)
Inductive Kind : Type :=
| FetchOffset
| EncryptedOutputs
| TradeHistory.

#[global] Instance Kind_eq_dec : EqDecision Kind.
Proof. solve_decision. Defined.

Definition keysToMigrate : list Kind :=
  [FetchOffset; EncryptedOutputs; TradeHistory].

(** [rec.split(',').map(n => Number(n))] *)
Definition parseIndexes (s : string) : list Js.jsnum :=
  map Js.Number (Js.split "," s).

(** [[...new Set(l)].sort((a, b) => b - a).slice(0, 20)] *)
Definition top20 (l : list Js.jsnum) : list Js.jsnum :=
  Js.slice0 20 (Js.sort Js.cmp_desc (Js.uniq l)).

(** [top20.join(',')] *)
Definition joinIndexes (l : list Js.jsnum) : string :=
  Js.join "," (map Js.toString l).

Definition marker : string := "SDK_MIGRATION_TEST".
Definition markerDirect : string := "SDK_MIGRATION_TEST_DIRECT".

(** The text of the marker; [now] is [Date.now()]. *)
Definition testMarker (now : Z) (publicKey : string) : string :=
  "Migration executed at " +:+ Js.toString (Js.JInt now) +:+ " for wallet "
    +:+ String.substring 0 8 publicKey.

Section WithPrimitives.
Context {Pr : Primitives}.

Definition prefix (k : Kind) : string :=
  match k with
  | FetchOffset => LSK_FETCH_OFFSET
  | EncryptedOutputs => LSK_ENCRYPTED_OUTPUTS
  | TradeHistory => "tradeHistory"
  end.

(** What is written over an existing value of the newer key, [None] when
    nothing is: the larger offset, the union of the two ciphertext arrays,
    the twenty largest of the two index sets. A [JSON.parse] that throws is
    caught, and the newer value stays. *)
Definition mergeValues (k : Kind) (srcValue newValue : string) : option string :=
  match k with
  | FetchOffset =>
      if Js.gt (Js.Number srcValue) (Js.Number newValue) then Some srcValue
      else None
  | EncryptedOutputs =>
      match JSON_parse srcValue, JSON_parse newValue with
      | Some srcData, Some newData =>
          Some (JSON_stringify (Js.uniq (srcData ++ newData)))
      | _, _ => None
      end
  | TradeHistory =>
      Some (joinIndexes (top20 (parseIndexes srcValue ++ parseIndexes newValue)))
  end.

(** One leg of the migration of one kind, from [srcKey] to [newKey]; the
    answer says whether a value was found under [srcKey]. The code has this
    block four times: for the legacy and for the hashed source, in both
    revisions of the file. The revisions differ in how they read and write,
    which [rd] and [wr] stand for. *)
Definition migrateFrom
    (rd : string -> Storage -> option string)
    (wr : string -> string -> Storage -> Storage)
    (k : Kind) (srcKey newKey : string) (st : Storage) : Storage * bool :=
  match rd srcKey st with
  | Some srcValue =>
      (match rd newKey st with
       | None => wr newKey srcValue st
       | Some newValue =>
           match mergeValues k srcValue newValue with
           | Some v => wr newKey v st
           | None => st
           end
       end, true)
  | None => (st, false)
  end.

(** The body of the loop over [keysToMigrate]; [del] is [oldKeysToDelete]. *)
Definition migrateKind
    (rd : string -> Storage -> option string)
    (wr : string -> string -> Storage -> Storage)
    (needsMigration : bool) (oldKeySuffix hashedKeySuffix newKeySuffix : string)
    (acc : Storage * list string) (k : Kind) : Storage * list string :=
  let oldKey := prefix k +:+ oldKeySuffix in
  let hashedKey := prefix k +:+ hashedKeySuffix in
  let newKey := prefix k +:+ newKeySuffix in
  let st1 := fst (migrateFrom rd wr k oldKey newKey (fst acc)) in
  let del1 := snd acc ++ [oldKey] in
  if needsMigration then
    let r := migrateFrom rd wr k hashedKey newKey st1 in
    (fst r, if snd r then del1 ++ [hashedKey] else del1)
  else (st1, del1).

(** The deletion of the collected keys: straight from [chrome.storage.local]
    when there is one, through the adapter otherwise. *)
Definition deleteOldKeys (del : list string) (st : Storage) : Storage :=
  match del with
  | [] => st
  | _ => if Store.hasChrome st then Store.chromeRemove del st
         else Store.removeItems del st
  end.

(** [!!encryptionKey && hashedKeySuffix !== newKeySuffix] *)
Definition needsMigration (encryptionKey : option string)
    (hashedKeySuffix newKeySuffix : string) : bool :=
  match usableKey encryptionKey with
  | Some _ => negb (String.eqb hashedKeySuffix newKeySuffix)
  | None => false
  end.

Definition migrateAll
    (rd : string -> Storage -> option string)
    (wr : string -> string -> Storage -> Storage)
    (publicKey : string) (encryptionKey : option string) (st : Storage)
  : Result unit * Storage :=
  let oldKeySuffix := localstorageKeyOld publicKey in
  match storageKeySuffix publicKey None with
  | Err m => (Err m, st)
  | Ok hashedKeySuffix =>
      match storageKeySuffix publicKey encryptionKey with
      | Err m => (Err m, st)
      | Ok newKeySuffix =>
          let needs := needsMigration encryptionKey hashedKeySuffix newKeySuffix in
          let r := foldl (migrateKind rd wr needs oldKeySuffix hashedKeySuffix
                            newKeySuffix) (st, []) keysToMigrate in
          (Ok tt, deleteOldKeys (snd r) (fst r))
      end
  end.

(** [migrateStorageKeys] of the first copy of [getUtxos.ts]: it leaves a
    marker with the time of the run, looks source and target values up in
    the adapter and then in [chrome.storage.local], and writes to both. *)
Definition migrateStorageKeys (now : Z) (publicKey : string)
    (encryptionKey : option string) (st : Storage) : Result unit * Storage :=
  let st := Store.setItem marker (testMarker now publicKey) st in
  let st := Store.chromeSet markerDirect (testMarker now publicKey) st in
  migrateAll Store.readThrough Store.writeBoth publicKey encryptionKey st.

(** [migrateStorageKeys] of the second copy of the file: no marker, and
    reads and writes go through the adapter only. *)
Definition migrateStorageKeys2 (publicKey : string)
    (encryptionKey : option string) (st : Storage) : Result unit * Storage :=
  migrateAll Store.getItem Store.setItem publicKey encryptionKey st.

(** The storage keys a migration touches: the marker, the keys of the
    three kinds under the newer suffix and under the legacy suffix and, when
    the hashed leg runs, under the hashed suffix. *)
Definition keyList (needs : bool) (oldS hashedS newS : string) : list string :=
  [marker; markerDirect]
    ++ map (fun k => prefix k +:+ newS) keysToMigrate
    ++ map (fun k => prefix k +:+ oldS) keysToMigrate
    ++ (if needs then map (fun k => prefix k +:+ hashedS) keysToMigrate else []).

Definition migrationKeys (publicKey : string) (encryptionKey : option string)
  : list string :=
  match storageKeySuffix publicKey None, storageKeySuffix publicKey encryptionKey with
  | Ok hashedKeySuffix, Ok newKeySuffix =>
      keyList (needsMigration encryptionKey hashedKeySuffix newKeySuffix)
        (localstorageKeyOld publicKey) hashedKeySuffix newKeySuffix
  | _, _ => []
  end.

End WithPrimitives.

(** *** The storage operations *)

Lemma getItem_setItem_eq k v st : Store.getItem k (Store.setItem k v st) = Some v.
Proof. unfold Store.getItem, Store.setItem; simpl. apply lookup_insert_eq. Qed.

Lemma getItem_setItem_ne k k' v st :
  k <> k' -> Store.getItem k' (Store.setItem k v st) = Store.getItem k' st.
Proof. intros. unfold Store.getItem, Store.setItem; simpl. by apply lookup_insert_ne. Qed.

Lemma readThrough_writeBoth_eq k v st :
  Store.readThrough k (Store.writeBoth k v st) = Some v.
Proof.
  unfold Store.readThrough, Store.writeBoth, Store.getItem; simpl.
  by rewrite lookup_insert_eq.
Qed.

Lemma readThrough_writeBoth_ne k k' v st :
  k <> k' ->
  Store.readThrough k' (Store.writeBoth k v st) = Store.readThrough k' st.
Proof.
  intros Hne. unfold Store.readThrough, Store.writeBoth, Store.getItem,
    Store.chromeGet; simpl.
  rewrite lookup_insert_ne by done.
  destruct (cache st !! k'); [done|].
  destruct (chromeLocal st); simpl; [|done].
  by rewrite lookup_insert_ne.
Qed.

Lemma getItem_removeItems x del st :
  Store.getItem x (Store.removeItems del st)
  = if decide (x ∈ del) then None else Store.getItem x st.
Proof.
  revert st. induction del as [|d del IH]; intros st.
  - by destruct (decide (x ∈ [])); [set_solver|].
  - unfold Store.removeItems in *. simpl. rewrite IH.
    unfold Store.getItem, Store.removeItem; simpl.
    destruct (decide (x ∈ del)) as [Hin|Hin];
      destruct (decide (x ∈ d :: del)) as [Hin'|Hin']; try done.
    + set_solver.
    + assert (x = d) as -> by set_solver. apply lookup_delete_eq.
    + apply lookup_delete_ne. set_solver.
Qed.

Lemma chromeLocal_removeItems del st :
  chromeLocal (Store.removeItems del st) = chromeLocal st.
Proof.
  revert st. induction del as [|d del IH]; intros st; [done|].
  unfold Store.removeItems in *. simpl. by rewrite IH.
Qed.

Lemma removeItems_absent del st :
  (forall x, x ∈ del -> Store.getItem x st = None) ->
  Store.removeItems del st = st.
Proof.
  revert st. induction del as [|d del IH]; intros st Hd; [done|].
  unfold Store.removeItems in *. simpl.
  assert (Store.removeItem d st = st) as ->.
  { destruct st as [c ch]. unfold Store.removeItem; simpl. f_equal.
    apply delete_id. apply (Hd d). set_solver. }
  apply IH. intros x Hx. apply Hd. set_solver.
Qed.

Lemma getItem_chromeRemove x del st :
  Store.getItem x (Store.chromeRemove del st) = Store.getItem x st.
Proof. done. Qed.

Lemma lookup_foldr_delete (x : string) (del : list string) (c : gmap string string) :
  foldr delete c del !! x = if decide (x ∈ del) then None else c !! x.
Proof.
  induction del as [|d del IH].
  - by destruct (decide (x ∈ [])); [set_solver|].
  - simpl. destruct (decide (x = d)) as [->|Hne].
    + rewrite lookup_delete_eq. by rewrite decide_True by set_solver.
    + rewrite lookup_delete_ne by done. rewrite IH.
      destruct (decide (x ∈ del)) as [Hin|Hin];
        destruct (decide (x ∈ d :: del)) as [Hin'|Hin']; try done; set_solver.
Qed.

Lemma readThrough_chromeRemove x del st :
  x ∉ del ->
  Store.readThrough x (Store.chromeRemove del st) = Store.readThrough x st.
Proof.
  intros Hx. unfold Store.readThrough, Store.chromeRemove, Store.getItem,
    Store.chromeGet; simpl.
  destruct (cache st !! x); [done|].
  destruct (chromeLocal st); simpl; [|done].
  by rewrite lookup_foldr_delete, decide_False.
Qed.

Lemma readThrough_removeItems x del st :
  x ∉ del ->
  Store.readThrough x (Store.removeItems del st) = Store.readThrough x st.
Proof.
  intros Hx. unfold Store.readThrough.
  rewrite getItem_removeItems, decide_False by done.
  unfold Store.chromeGet. by rewrite chromeLocal_removeItems.
Qed.

Lemma nochrome_readThrough k st :
  chromeLocal st = None -> Store.readThrough k st = Store.getItem k st.
Proof.
  intros Hc. unfold Store.readThrough, Store.chromeGet. rewrite Hc.
  by destruct (Store.getItem k st).
Qed.

Lemma nochrome_writeBoth k v st :
  chromeLocal st = None -> Store.writeBoth k v st = Store.setItem k v st.
Proof.
  intros Hc. unfold Store.writeBoth, Store.chromeSet, Store.setItem; simpl.
  by rewrite Hc.
Qed.

Lemma nochrome_chromeSet k v st :
  chromeLocal st = None -> Store.chromeSet k v st = st.
Proof.
  intros Hc. destruct st as [c ch]; simpl in *; subst.
  by unfold Store.chromeSet.
Qed.

Section Legs.
Context {Pr : Primitives}.
Variable rd : string -> Storage -> option string.
Variable wr : string -> string -> Storage -> Storage.

Variables oldS hashedS newS : string.

#[local] Abbreviation step needs := (migrateKind rd wr needs oldS hashedS newS).

Lemma migrateFrom_absent kind src new st :
  rd src st = None -> migrateFrom rd wr kind src new st = (st, false).
Proof. intros Hs. unfold migrateFrom. by rewrite Hs. Qed.

Lemma migrateFrom_found kind src new st v :
  rd src st = Some v -> snd (migrateFrom rd wr kind src new st) = true.
Proof. intros Hs. unfold migrateFrom. by rewrite Hs. Qed.

Lemma step_del_mono needs x acc k : x ∈ snd acc -> x ∈ snd (step needs acc k).
Proof.
  intros Hx. unfold migrateKind. destruct needs; simpl; [|set_solver].
  destruct (snd (migrateFrom _ _ _ _ _ _)); set_solver.
Qed.

Lemma run_del_mono needs x ks acc : x ∈ snd acc -> x ∈ snd (foldl (step needs) acc ks).
Proof.
  revert acc. induction ks as [|k ks IH]; intros acc Hx; [done|].
  simpl. by apply IH, step_del_mono.
Qed.

Lemma step_del_old needs acc k : prefix k +:+ oldS ∈ snd (step needs acc k).
Proof.
  unfold migrateKind. destruct needs; simpl; [|set_solver].
  destruct (snd (migrateFrom _ _ _ _ _ _)); set_solver.
Qed.

Lemma run_del_old needs ks acc k :
  k ∈ ks -> prefix k +:+ oldS ∈ snd (foldl (step needs) acc ks).
Proof.
  revert acc. induction ks as [|k0 ks IH]; intros acc Hk; [set_solver|].
  simpl. apply elem_of_cons in Hk as [->|Hk].
  - apply run_del_mono, step_del_old.
  - by apply IH.
Qed.

Lemma step_del_sources needs acc k x :
  x ∈ snd (step needs acc k) ->
  x ∈ snd acc \/ x = prefix k +:+ oldS \/
  (needs = true /\ x = prefix k +:+ hashedS).
Proof.
  unfold migrateKind. destruct needs; simpl.
  - destruct (snd (migrateFrom _ _ _ _ _ _)); set_solver.
  - set_solver.
Qed.

(** Every key marked for deletion is a legacy key or, when the hashed leg
    runs, a hashed key. *)
Lemma run_del_sources needs ks acc x :
  x ∈ snd (foldl (step needs) acc ks) ->
  x ∈ snd acc \/
  exists k, k ∈ ks /\
    (x = prefix k +:+ oldS \/ (needs = true /\ x = prefix k +:+ hashedS)).
Proof.
  revert acc. induction ks as [|k0 ks IH]; intros acc Hx; [by left|].
  simpl in Hx. destruct (IH _ Hx) as [Hx'|(k & Hk & Hx')].
  - destruct (step_del_sources _ _ _ _ Hx') as [?|Hs]; [by left|].
    right. exists k0. split; [set_solver|done].
  - right. exists k. split; [set_solver|done].
Qed.

(** With nothing under the source keys the loop changes nothing. *)
Lemma run_no_sources needs ks st del :
  (forall k, k ∈ ks -> rd (prefix k +:+ oldS) st = None) ->
  (needs = true -> forall k, k ∈ ks -> rd (prefix k +:+ hashedS) st = None) ->
  foldl (step needs) (st, del) ks = (st, del ++ map (fun k => prefix k +:+ oldS) ks).
Proof.
  revert del. induction ks as [|k ks IH]; intros del Ho Hh; simpl.
  - by rewrite app_nil_r.
  - assert (step needs (st, del) k = (st, del ++ [prefix k +:+ oldS])) as ->.
    { unfold migrateKind. cbn [fst snd].
      rewrite (migrateFrom_absent k (prefix k +:+ oldS)) by (apply Ho; set_solver).
      cbn [fst snd]. destruct needs eqn:En; [|done].
      by rewrite migrateFrom_absent by (apply Hh; [done|set_solver]). }
    rewrite IH.
    + by rewrite <- app_assoc.
    + intros; apply Ho; set_solver.
    + intros; apply Hh; [done|set_solver].
Qed.

Hypothesis rd_wr_eq : forall k v st, rd k (wr k v st) = Some v.
Hypothesis rd_wr_ne : forall k k' v st, k <> k' -> rd k' (wr k v st) = rd k' st.

Lemma migrateFrom_other kind src new x st :
  x <> new -> rd x (fst (migrateFrom rd wr kind src new st)) = rd x st.
Proof using rd_wr_ne.
  clear rd_wr_eq.
  intros Hx. unfold migrateFrom.
  destruct (rd src st); simpl; [|done].
  destruct (rd new st); simpl.
  - destruct (mergeValues kind _ _); [|done]. by apply rd_wr_ne.
  - by apply rd_wr_ne.
Qed.

(** The larger of two offsets is kept. *)
Lemma migrateFrom_offset src new st sv nv a b :
  rd src st = Some sv -> rd new st = Some nv ->
  Js.Number sv = Js.JInt a -> Js.Number nv = Js.JInt b ->
  exists v, rd new (fst (migrateFrom rd wr FetchOffset src new st)) = Some v /\
            Js.Number v = Js.JInt (Z.max a b).
Proof using rd_wr_eq.
  intros Hs Hn Ha Hb. unfold migrateFrom. rewrite Hs, Hn. simpl.
  rewrite Ha, Hb. simpl.
  destruct (Z.ltb_spec b a).
  - exists sv. rewrite rd_wr_eq, Ha. split; [done|]. f_equal. lia.
  - exists nv. rewrite Hn, Hb. split; [done|]. f_equal. lia.
Qed.

Lemma step_other needs x acc k :
  x <> prefix k +:+ newS -> rd x (fst (step needs acc k)) = rd x (fst acc).
Proof using rd_wr_ne.
  clear rd_wr_eq.
  intros Hx. unfold migrateKind. destruct needs; simpl.
  - by rewrite !migrateFrom_other.
  - by rewrite migrateFrom_other.
Qed.

Lemma run_other needs x ks acc :
  (forall k, k ∈ ks -> x <> prefix k +:+ newS) ->
  rd x (fst (foldl (step needs) acc ks)) = rd x (fst acc).
Proof using rd_wr_ne.
  clear rd_wr_eq.
  revert acc. induction ks as [|k ks IH]; intros acc Hx; [done|].
  simpl. rewrite IH by (intros; apply Hx; set_solver).
  apply step_other, Hx. set_solver.
Qed.

(** After the loop a hashed key is marked for deletion or holds nothing. *)
Lemma run_hashed needs ks acc k :
  needs = true -> k ∈ ks ->
  (forall j, j ∈ ks -> prefix k +:+ hashedS <> prefix j +:+ newS) ->
  prefix k +:+ hashedS ∈ snd (foldl (step needs) acc ks) \/
  rd (prefix k +:+ hashedS) (fst (foldl (step needs) acc ks)) = None.
Proof using rd_wr_ne.
  clear rd_wr_eq.
  intros ->. revert acc. induction ks as [|k0 ks IH]; intros acc Hk Hne; [set_solver|].
  cbn [foldl]. apply elem_of_cons in Hk as [->|Hk].
  - clear IH.
    set (st1 := fst (migrateFrom rd wr k0 (prefix k0 +:+ oldS)
                       (prefix k0 +:+ newS) (fst acc))).
    assert (step true acc k0 =
            (let r := migrateFrom rd wr k0 (prefix k0 +:+ hashedS)
                        (prefix k0 +:+ newS) st1 in
             (fst r, if snd r
                     then (snd acc ++ [prefix k0 +:+ oldS]) ++ [prefix k0 +:+ hashedS]
                     else snd acc ++ [prefix k0 +:+ oldS]))) as -> by done.
    destruct (rd (prefix k0 +:+ hashedS) st1) as [hv|] eqn:Eh.
    + left. apply run_del_mono. cbv zeta. cbn [snd].
      rewrite (migrateFrom_found _ _ _ _ _ Eh). set_solver.
    + right. rewrite run_other by (intros; apply Hne; set_solver).
      cbv zeta. cbn [fst]. by rewrite migrateFrom_absent.
  - apply IH; [done|]. intros. apply Hne. set_solver.
Qed.

End Legs.

Section Keys.
Context {Pr : Primitives}.
Variables (needs : bool) (oldS hashedS newS : string).
Hypothesis Hnd : NoDup (keyList needs oldS hashedS newS).

Lemma new_ne_old k j : prefix k +:+ newS <> prefix j +:+ oldS.
Proof.
  unfold keyList in Hnd.
  simpl in Hnd.
  nodup_facts Hnd. destruct k, j; simpl; congruence.
Qed.

Lemma new_ne_hashed k j : needs = true -> prefix k +:+ newS <> prefix j +:+ hashedS.
Proof.
  unfold keyList in Hnd.
  intros En. rewrite En in Hnd. simpl in Hnd.
  nodup_facts Hnd. destruct k, j; simpl; congruence.
Qed.

Lemma new_ne_new k j : k <> j -> prefix k +:+ newS <> prefix j +:+ newS.
Proof.
  intros Hkj. unfold keyList in Hnd. simpl in Hnd. nodup_facts Hnd.
  destruct k, j; simpl; congruence.
Qed.

Lemma marker_ne_old k : marker <> prefix k +:+ oldS.
Proof.
  unfold keyList in Hnd.
  simpl in Hnd.
  nodup_facts Hnd. destruct k; simpl; congruence.
Qed.

Lemma marker_ne_new k : marker <> prefix k +:+ newS.
Proof.
  unfold keyList in Hnd.
  simpl in Hnd.
  nodup_facts Hnd. destruct k; simpl; congruence.
Qed.

Lemma marker_ne_hashed k : needs = true -> marker <> prefix k +:+ hashedS.
Proof.
  unfold keyList in Hnd.
  intros En. rewrite En in Hnd. simpl in Hnd.
  nodup_facts Hnd. destruct k; simpl; congruence.
Qed.

Lemma markerDirect_ne_old k : markerDirect <> prefix k +:+ oldS.
Proof.
  unfold keyList in Hnd.
  simpl in Hnd.
  nodup_facts Hnd. destruct k; simpl; congruence.
Qed.

Lemma markerDirect_ne_new k : markerDirect <> prefix k +:+ newS.
Proof.
  unfold keyList in Hnd.
  simpl in Hnd.
  nodup_facts Hnd. destruct k; simpl; congruence.
Qed.

Lemma markerDirect_ne_hashed k : needs = true -> markerDirect <> prefix k +:+ hashedS.
Proof.
  unfold keyList in Hnd.
  intros En. rewrite En in Hnd. simpl in Hnd.
  nodup_facts Hnd. destruct k; simpl; congruence.
Qed.

End Keys.

Section Offsets.
Context {Pr : Primitives}.
Variable rd : string -> Storage -> option string.
Variable wr : string -> string -> Storage -> Storage.
Hypothesis rd_wr_eq : forall k v st, rd k (wr k v st) = Some v.
Hypothesis rd_wr_ne : forall k k' v st, k <> k' -> rd k' (wr k v st) = rd k' st.
Hypothesis rd_delete :
  forall x del st, x ∉ del -> rd x (deleteOldKeys del st) = rd x st.

Lemma suffix_hashed pk :
  storageKeySuffix pk None = Ok (contractPrefix +:+ hashedName pk).
Proof. done. Qed.

(** The fetch offset after a migration, in either revision. *)
Lemma migrateAll_offset pk ek newS st ov nv a b :
  storageKeySuffix pk ek = Ok newS ->
  NoDup (migrationKeys pk ek) ->
  let hashedS := contractPrefix +:+ hashedName pk in
  let needs := needsMigration ek hashedS newS in
  rd (LSK_FETCH_OFFSET +:+ localstorageKeyOld pk) st = Some ov ->
  rd (LSK_FETCH_OFFSET +:+ newS) st = Some nv ->
  Js.Number ov = Js.JInt a -> Js.Number nv = Js.JInt b ->
  (forall hv, needs = true -> rd (LSK_FETCH_OFFSET +:+ hashedS) st = Some hv ->
              Js.is_int (Js.Number hv)) ->
  exists v,
    rd (LSK_FETCH_OFFSET +:+ newS) (snd (migrateAll rd wr pk ek st)) = Some v /\
    Js.Number v = Js.JInt
      match (if needs then rd (LSK_FETCH_OFFSET +:+ hashedS) st else None) with
      | Some hv => Z.max (Z.max a b) (Js.to_Z (Js.Number hv))
      | None => Z.max a b
      end.
Proof.
  intros Hnew Hnd hashedS needs Ho Hn Ha Hb Hh.
  unfold migrationKeys in Hnd. rewrite suffix_hashed, Hnew in Hnd.
  fold hashedS in Hnd. fold needs in Hnd.
  unfold migrateAll. rewrite suffix_hashed, Hnew. fold hashedS. fold needs.
  cbn [snd].
  set (F := migrateKind rd wr needs (localstorageKeyOld pk) hashedS newS).
  change (foldl F (st, []) keysToMigrate)
    with (foldl F (F (st, []) FetchOffset) [EncryptedOutputs; TradeHistory]).
  set (acc1 := F (st, []) FetchOffset).
  set (r := foldl F acc1 _).
  assert (Hkl : NoDup (keyList needs (localstorageKeyOld pk) hashedS newS)) by exact Hnd.
  (* the deletion leaves the newer key alone *)
  assert (LSK_FETCH_OFFSET +:+ newS ∉ snd r) as Hdel.
  { intros Hin. subst r F.
    apply run_del_sources in Hin as [Hin|(k & Hk & [Hin|[En Hin]])].
    - subst acc1. apply step_del_sources in Hin as [Hin|[Hin|[En Hin]]].

      + set_solver.
      + by apply (new_ne_old _ _ _ _ Hkl FetchOffset FetchOffset).
      + by apply (new_ne_hashed _ _ _ _ Hkl FetchOffset FetchOffset).
    - by apply (new_ne_old _ _ _ _ Hkl FetchOffset k).
    - by apply (new_ne_hashed _ _ _ _ Hkl FetchOffset k). }
  rewrite rd_delete by done.
  (* the other two kinds leave it alone as well *)
  subst r F. rewrite (run_other rd wr _ _ _ rd_wr_ne).
  2:{ intros k Hk. apply (new_ne_new _ _ _ _ Hkl FetchOffset k).
      intros <-. set_solver. }
  (* the two legs of the fetch offset *)
  subst acc1. unfold migrateKind. cbn [fst snd prefix].
  destruct (migrateFrom_offset rd wr rd_wr_eq _ _ _ _ _ _ _ Ho Hn Ha Hb)
    as (v1 & Hv1 & Hn1).
  destruct needs eqn:En; cbn [fst]; [|by exists v1].
  assert (LSK_FETCH_OFFSET +:+ hashedS <> LSK_FETCH_OFFSET +:+ newS) as Hne.
  { intros E. by apply (new_ne_hashed _ _ _ _ Hkl FetchOffset FetchOffset). }
  set (st1 := fst (migrateFrom rd wr FetchOffset _ _ st)) in *.
  assert (rd (LSK_FETCH_OFFSET +:+ hashedS) st1
          = rd (LSK_FETCH_OFFSET +:+ hashedS) st) as Hh1
    by (subst st1; by apply (migrateFrom_other rd wr rd_wr_ne)).
  destruct (rd (LSK_FETCH_OFFSET +:+ hashedS) st) as [hv|] eqn:Ehv.
  - specialize (Hh hv eq_refl eq_refl).
    destruct (Js.Number hv) as [|c] eqn:Ec; [done|].
    destruct (migrateFrom_offset rd wr rd_wr_eq _ _ _ _ _ _ _ Hh1 Hv1 Ec Hn1)
      as (v2 & Hv2 & Hn2).
    exists v2. split; [done|]. rewrite Hn2. simpl. f_equal. lia.
  - rewrite migrateFrom_absent by done. by exists v1.
Qed.

End Offsets.

Lemma readThrough_deleteOldKeys x del st :
  x ∉ del -> Store.readThrough x (deleteOldKeys del st) = Store.readThrough x st.
Proof.
  intros Hx. unfold deleteOldKeys. destruct del as [|d del]; [done|].
  destruct (Store.hasChrome st).
  - by apply readThrough_chromeRemove.
  - by apply readThrough_removeItems.
Qed.

Lemma getItem_deleteOldKeys x del st :
  x ∉ del -> Store.getItem x (deleteOldKeys del st) = Store.getItem x st.
Proof.
  intros Hx. unfold deleteOldKeys. destruct del as [|d del]; [done|].
  destruct (Store.hasChrome st).
  - apply getItem_chromeRemove.
  - by rewrite getItem_removeItems, decide_False.
Qed.

Lemma readThrough_markers x t st :
  x <> marker -> x <> markerDirect ->
  Store.readThrough x (Store.chromeSet markerDirect t (Store.setItem marker t st))
  = Store.readThrough x st.
Proof.
  intros H1 H2. unfold Store.readThrough, Store.chromeSet, Store.setItem,
    Store.getItem, Store.chromeGet; simpl.
  rewrite lookup_insert_ne by done.
  destruct (cache st !! x); [done|].
  destruct (chromeLocal st); simpl; [|done].
  by rewrite lookup_insert_ne.
Qed.

Section OffsetTheorem.
Context {Pr : Primitives}.

(** C4 (as amended). In both revisions of [migrateStorageKeys], when the
    legacy key and the newer-generation key of the fetch offset both hold an
    integer, the newer-generation key holds after the migration the numeric
    maximum of all the offsets the migration reads: the legacy one, the
    newer-generation one and, when the hashed leg runs (a session key is
    given and changes the suffix) and the hashed key holds a value, that
    value too. With no value under the hashed key, or no hashed leg, it is
    the maximum of the two. The first revision reads a value in the adapter
    and then in [chrome.storage.local]; the second in the adapter. *)
Theorem fetch_offset_merge (now : Z) (pk : string) (ek : option string)
    (newS : string) (st : Storage) (ov nv : string) (a b : Z) :
  storageKeySuffix pk ek = Ok newS ->
  NoDup (migrationKeys pk ek) ->
  let oldKey := LSK_FETCH_OFFSET +:+ localstorageKeyOld pk in
  let hashedKey := LSK_FETCH_OFFSET +:+ (contractPrefix +:+ hashedName pk) in
  let newKey := LSK_FETCH_OFFSET +:+ newS in
  let hashedLeg := needsMigration ek (contractPrefix +:+ hashedName pk) newS in
  Js.Number ov = Js.JInt a -> Js.Number nv = Js.JInt b ->
  (Store.readThrough oldKey st = Some ov ->
   Store.readThrough newKey st = Some nv ->
   (forall hv, hashedLeg = true -> Store.readThrough hashedKey st = Some hv ->
               Js.is_int (Js.Number hv)) ->
   exists v,
     Store.readThrough newKey (snd (migrateStorageKeys now pk ek st)) = Some v /\
     Js.Number v = Js.JInt
       match (if hashedLeg then Store.readThrough hashedKey st else None) with
       | Some hv => Z.max (Z.max a b) (Js.to_Z (Js.Number hv))
       | None => Z.max a b
       end) /\
  (Store.getItem oldKey st = Some ov ->
   Store.getItem newKey st = Some nv ->
   (forall hv, hashedLeg = true -> Store.getItem hashedKey st = Some hv ->
               Js.is_int (Js.Number hv)) ->
   exists v,
     Store.getItem newKey (snd (migrateStorageKeys2 pk ek st)) = Some v /\
     Js.Number v = Js.JInt
       match (if hashedLeg then Store.getItem hashedKey st else None) with
       | Some hv => Z.max (Z.max a b) (Js.to_Z (Js.Number hv))
       | None => Z.max a b
       end).
Proof.
  intros Hnew Hnd oldKey hashedKey newKey hashedLeg Ha Hb.
  assert (Hkl : NoDup (keyList hashedLeg (localstorageKeyOld pk)
                         (contractPrefix +:+ hashedName pk) newS)).
  { unfold migrationKeys in Hnd. by rewrite suffix_hashed, Hnew in Hnd. }
  split.
  - intros Ho Hn Hh. unfold migrateStorageKeys.
    set (st0 := Store.chromeSet markerDirect _ (Store.setItem marker _ st)).
    assert (Hrd : forall k, Store.readThrough (prefix k +:+ newS) st0
                            = Store.readThrough (prefix k +:+ newS) st).
    { intros k. apply readThrough_markers; apply not_eq_sym;
        [eapply marker_ne_new | eapply markerDirect_ne_new]; exact Hkl. }
    assert (Hro : forall k, Store.readThrough (prefix k +:+ localstorageKeyOld pk) st0
                            = Store.readThrough (prefix k +:+ localstorageKeyOld pk) st).
    { intros k. apply readThrough_markers; apply not_eq_sym;
        [eapply marker_ne_old | eapply markerDirect_ne_old]; exact Hkl. }
    assert (Hrh : hashedLeg = true ->
                  Store.readThrough hashedKey st0 = Store.readThrough hashedKey st).
    { intros En. apply readThrough_markers; apply not_eq_sym;
        [eapply (marker_ne_hashed _ _ _ _ Hkl FetchOffset)
        | eapply (markerDirect_ne_hashed _ _ _ _ Hkl FetchOffset)]; exact En. }
    assert (Ho0 : Store.readThrough oldKey st0 = Some ov)
      by (etrans; [exact (Hro FetchOffset)|exact Ho]).
    assert (Hn0 : Store.readThrough newKey st0 = Some nv)
      by (etrans; [exact (Hrd FetchOffset)|exact Hn]).
    assert (Hh0 : forall hv, hashedLeg = true ->
                  Store.readThrough hashedKey st0 = Some hv ->
                  Js.is_int (Js.Number hv)).
    { intros hv En Hhv. apply (Hh hv En). by rewrite <- Hrh. }
    destruct (migrateAll_offset Store.readThrough Store.writeBoth
                readThrough_writeBoth_eq readThrough_writeBoth_ne
                readThrough_deleteOldKeys pk ek newS st0 ov nv a b Hnew Hnd
                Ho0 Hn0 Ha Hb Hh0)
      as (v & Hv & Hnum).
    exists v. split; [exact Hv|]. rewrite Hnum. fold hashedLeg. fold hashedKey.
    destruct hashedLeg; [|done]. by rewrite Hrh.
  - intros Ho Hn Hh. unfold migrateStorageKeys2.
    exact (migrateAll_offset Store.getItem Store.setItem
             getItem_setItem_eq getItem_setItem_ne getItem_deleteOldKeys
             pk ek newS st ov nv a b Hnew Hnd Ho Hn Ha Hb Hh).
Qed.

End OffsetTheorem.


(** A run of both revisions: legacy offset 50, current offset 30, no
    session key. *)
Lemma fetch_offset_merge_witness :
  let pk := Sample.wallet in
  let oldKey := "fetch_offset" +:+ localstorageKeyOld (Pr := Sample.prims) pk in
  let newKey := "fetch_offset9fhQBbsha256:4Nd1mBQtrMJVYVfKf2PJy9NZUZdTAsp7D4xWLs4gDB4T" in
  let st := mkStorage (<[oldKey := "50"]> (<[newKey := "30"]> ∅)) None in
  NoDup (migrationKeys (Pr := Sample.prims) pk None) /\
  (exists v, Store.readThrough newKey
               (snd (migrateStorageKeys (Pr := Sample.prims) 1700000000000 pk None st))
             = Some v /\ Js.Number v = Js.JInt 50) /\
  (exists v, Store.getItem newKey
               (snd (migrateStorageKeys2 (Pr := Sample.prims) pk None st))
             = Some v /\ Js.Number v = Js.JInt 50).
Proof.
  intros pk oldKey newKey st.
  assert (Hnd : NoDup (migrationKeys (Pr := Sample.prims) pk None)).
  { apply (bool_decide_unpack _). vm_compute. exact I. }
  split; [exact Hnd|].
  destruct (fetch_offset_merge (Pr := Sample.prims) 1700000000000 pk None
              "9fhQBbsha256:4Nd1mBQtrMJVYVfKf2PJy9NZUZdTAsp7D4xWLs4gDB4T"
              st "50" "30" 50 30 eq_refl Hnd eq_refl eq_refl) as [H1 H2].
  split.
  - apply H1; [reflexivity | reflexivity | intros hv En; discriminate En].
  - apply H2; [reflexivity | reflexivity | intros hv En; discriminate En].
Defined.

(** The claim as stated fails when all three generations hold an offset:
    legacy 10, hashed 50, current (encrypted) 30 leave 50 under the current
    key, which is not the maximum of the legacy and the current offset. *)
Lemma fetch_offset_merge_counterexample :
  let pk := Sample.wallet in
  let ek := Some Sample.sessionKey in
  let oldKey := "fetch_offset9fhQBb4Nd1mBQtrMJVYVfKf2PJy9NZUZdTAsp7D4xWLs4gDB4T" in
  let hashedKey := "fetch_offset9fhQBbsha256:4Nd1mBQtrMJVYVfKf2PJy9NZUZdTAsp7D4xWLs4gDB4T" in
  let newKey := "fetch_offset9fhQBbsha256:4Nd1maes(0123456789abcdef,4Nd1mBQtrMJVYVfKf2PJy9NZUZdTAsp7D4xWLs4gDB4T)" in
  let st := mkStorage (<[oldKey := "10"]> (<[hashedKey := "50"]> (<[newKey := "30"]> ∅))) None in
  storageKeySuffix (Pr := Sample.prims) pk ek
    = Ok "9fhQBbsha256:4Nd1maes(0123456789abcdef,4Nd1mBQtrMJVYVfKf2PJy9NZUZdTAsp7D4xWLs4gDB4T)" /\
  localstorageKeyOld (Pr := Sample.prims) pk = "9fhQBb4Nd1mBQtrMJVYVfKf2PJy9NZUZdTAsp7D4xWLs4gDB4T" /\
  Store.getItem oldKey st = Some "10" /\
  Store.getItem newKey st = Some "30" /\
  Store.getItem newKey (snd (migrateStorageKeys (Pr := Sample.prims) 1700000000000 pk ek st))
    = Some "50" /\
  Store.getItem newKey (snd (migrateStorageKeys2 (Pr := Sample.prims) pk ek st))
    = Some "50" /\
  Js.Number "50" <> Js.JInt (Z.max 10 30).
Proof. repeat split; try reflexivity. vm_compute. discriminate. Qed.


(** *** Running the migration twice *)

Lemma nochrome_deleteOldKeys del st :
  chromeLocal st = None -> deleteOldKeys del st = Store.removeItems del st.
Proof.
  intros Hc. unfold deleteOldKeys, Store.hasChrome. rewrite Hc.
  by destruct del.
Qed.

Section Twice.
Context {Pr : Primitives}.

Lemma nochrome_migrateFrom k src new st :
  chromeLocal st = None ->
  migrateFrom Store.readThrough Store.writeBoth k src new st
  = migrateFrom Store.getItem Store.setItem k src new st.
Proof.
  intros Hc. unfold migrateFrom.
  rewrite !nochrome_readThrough by done.
  destruct (Store.getItem src st); [|done].
  destruct (Store.getItem new st).
  - destruct (mergeValues k _ _); [|done]. by rewrite nochrome_writeBoth.
  - by rewrite nochrome_writeBoth.
Qed.

Lemma chromeLocal_migrateFrom k src new st :
  chromeLocal (fst (migrateFrom Store.getItem Store.setItem k src new st))
  = chromeLocal st.
Proof.
  unfold migrateFrom. destruct (Store.getItem src st); [|done].
  destruct (Store.getItem new st); [|done].
  by destruct (mergeValues k _ _).
Qed.

Lemma chromeLocal_step needs oldS hashedS newS acc k :
  chromeLocal (fst (migrateKind Store.getItem Store.setItem needs oldS hashedS newS acc k))
  = chromeLocal (fst acc).
Proof.
  unfold migrateKind. destruct needs; cbn [fst].
  - by rewrite !chromeLocal_migrateFrom.
  - by rewrite chromeLocal_migrateFrom.
Qed.

Lemma chromeLocal_run needs oldS hashedS newS ks acc :
  chromeLocal (fst (foldl (migrateKind Store.getItem Store.setItem needs oldS hashedS newS) acc ks))
  = chromeLocal (fst acc).
Proof.
  revert acc. induction ks as [|k ks IH]; intros acc; [done|].
  cbn [foldl]. by rewrite IH, chromeLocal_step.
Qed.

Lemma nochrome_step needs oldS hashedS newS acc k :
  chromeLocal (fst acc) = None ->
  migrateKind Store.readThrough Store.writeBoth needs oldS hashedS newS acc k
  = migrateKind Store.getItem Store.setItem needs oldS hashedS newS acc k.
Proof.
  intros Hc. unfold migrateKind.
  rewrite (nochrome_migrateFrom k (prefix k +:+ oldS)) by done.
  destruct needs; [|done].
  by rewrite nochrome_migrateFrom by (by rewrite chromeLocal_migrateFrom).
Qed.

Lemma nochrome_run needs oldS hashedS newS ks acc :
  chromeLocal (fst acc) = None ->
  foldl (migrateKind Store.readThrough Store.writeBoth needs oldS hashedS newS) acc ks
  = foldl (migrateKind Store.getItem Store.setItem needs oldS hashedS newS) acc ks.
Proof.
  revert acc. induction ks as [|k ks IH]; intros acc Hc; [done|].
  cbn [foldl]. rewrite nochrome_step by done.
  apply IH. by rewrite chromeLocal_step.
Qed.

(** Without [chrome.storage.local] the first revision is the second one
    run after the marker is written. *)
Lemma nochrome_migrateStorageKeys now pk ek st :
  chromeLocal st = None ->
  migrateStorageKeys now pk ek st
  = migrateStorageKeys2 pk ek (Store.setItem marker (testMarker now pk) st).
Proof.
  intros Hc. unfold migrateStorageKeys, migrateStorageKeys2.
  rewrite nochrome_chromeSet by done.
  unfold migrateAll.
  destruct (storageKeySuffix pk None); [|done].
  destruct (storageKeySuffix pk ek); [|done].
  by rewrite nochrome_run.
Qed.

(** After a run through the adapter nothing is left under a source key. *)
Lemma migrate2_sources_gone pk ek newS st :
  chromeLocal st = None ->
  storageKeySuffix pk ek = Ok newS ->
  let hashedS := contractPrefix +:+ hashedName pk in
  let needs := needsMigration ek hashedS newS in
  NoDup (keyList needs (localstorageKeyOld pk) hashedS newS) ->
  let r := migrateStorageKeys2 pk ek st in
  fst r = Ok tt /\
  chromeLocal (snd r) = None /\
  (forall k, Store.getItem (prefix k +:+ localstorageKeyOld pk) (snd r) = None) /\
  (needs = true -> forall k, Store.getItem (prefix k +:+ hashedS) (snd r) = None).
Proof.
  intros Hc Hnew hashedS needs Hkl. unfold migrateStorageKeys2, migrateAll.
  rewrite suffix_hashed, Hnew. fold hashedS. fold needs. cbn [fst snd].
  set (F := migrateKind Store.getItem Store.setItem needs (localstorageKeyOld pk) hashedS newS).
  assert (Hcr : chromeLocal (fst (foldl F (st, []) keysToMigrate)) = None)
    by (unfold F; by rewrite chromeLocal_run).
  rewrite nochrome_deleteOldKeys by done.
  assert (Hall : forall k, k ∈ keysToMigrate) by (intros []; set_solver).
  split; [done|]. split; [by rewrite chromeLocal_removeItems|]. split.
  - intros k. rewrite getItem_removeItems, decide_True; [done|].
    apply run_del_old, Hall.
  - intros En k. rewrite getItem_removeItems.
    destruct (decide _); [done|].
    destruct (run_hashed Store.getItem Store.setItem (localstorageKeyOld pk)
                hashedS newS getItem_setItem_ne needs keysToMigrate (st, []) k En
                (Hall k)) as [Hin|Hnone]; [|done|done].
    intros j _ E. by apply (new_ne_hashed _ _ _ _ Hkl j k En).
Qed.

(** With nothing under a source key a run through the adapter changes
    nothing. *)
Lemma migrate2_no_sources pk ek newS st :
  chromeLocal st = None ->
  storageKeySuffix pk ek = Ok newS ->
  let hashedS := contractPrefix +:+ hashedName pk in
  let needs := needsMigration ek hashedS newS in
  (forall k, Store.getItem (prefix k +:+ localstorageKeyOld pk) st = None) ->
  (needs = true -> forall k, Store.getItem (prefix k +:+ hashedS) st = None) ->
  migrateStorageKeys2 pk ek st = (Ok tt, st).
Proof.
  intros Hc Hnew hashedS needs Ho Hh. unfold migrateStorageKeys2, migrateAll.
  rewrite suffix_hashed, Hnew. fold hashedS. fold needs.
  rewrite run_no_sources by (intros; auto). cbn [fst snd].
  rewrite nochrome_deleteOldKeys by done.
  f_equal. apply removeItems_absent.
  intros x Hx. rewrite app_nil_l in Hx.
  apply list_elem_of_fmap in Hx as (k & -> & _). apply Ho.
Qed.

(** Where the adapter is the only storage (there is no
    [chrome.storage.local], so the deletions go through the adapter), a
    second run of [migrateStorageKeys] changes one storage entry only: the
    marker [SDK_MIGRATION_TEST]. *)
Lemma second_run_adapter (t1 t2 : Z) (pk : string) (ek : option string)
    (st : Storage) :
  chromeLocal st = None ->
  NoDup (migrationKeys pk ek) ->
  let r1 := migrateStorageKeys t1 pk ek st in
  let r2 := migrateStorageKeys t2 pk ek (snd r1) in
  fst r2 = fst r1 /\
  snd r2 = Store.setItem marker (testMarker t2 pk) (snd r1) /\
  (forall k, k <> marker -> Store.getItem k (snd r2) = Store.getItem k (snd r1)).
Proof.
  intros Hc Hnd r1 r2.
  assert (fst r2 = fst r1 /\
          snd r2 = Store.setItem marker (testMarker t2 pk) (snd r1)) as [E1 E2].
  2:{ split; [done|]. split; [done|]. intros k Hk. rewrite E2.
      by apply getItem_setItem_ne. }
  subst r2 r1. rewrite (nochrome_migrateStorageKeys t1 pk ek st) by done.
  set (st0 := Store.setItem marker (testMarker t1 pk) st).
  assert (Hc0 : chromeLocal st0 = None) by done.
  destruct (storageKeySuffix pk ek) as [newS|m] eqn:Hnew.
  - unfold migrationKeys in Hnd. rewrite suffix_hashed, Hnew in Hnd.
    destruct (migrate2_sources_gone pk ek newS st0 Hc0 Hnew Hnd)
      as (Hok & Hc1 & Ho & Hh).
    rewrite nochrome_migrateStorageKeys by done.
    rewrite (migrate2_no_sources pk ek newS); try done.
    + intros k. rewrite getItem_setItem_ne; [apply Ho|].
      by apply (marker_ne_old _ _ _ _ Hnd).
    + intros En k. rewrite getItem_setItem_ne; [by apply Hh|].
      by apply (marker_ne_hashed _ _ _ _ Hnd).
  - unfold migrateStorageKeys2 at 1 2 3. unfold migrateAll at 1 2 3.
    rewrite suffix_hashed, Hnew. cbn [fst snd].
    rewrite nochrome_migrateStorageKeys by done.
    unfold migrateStorageKeys2, migrateAll. by rewrite suffix_hashed, Hnew.
Qed.

End Twice.

End Migration.

(** ** Facts about the JavaScript model: sets, sorting, numerals *)

Module JsFacts.
Import Js.

(** The comparator [(a, b) => b - a] on integers. *)
Definition desc (a b : Z) : Z := b - a.

(** [top20] on integers. *)
Definition top20Z (l : list Z) : list Z := slice0 20 (sort desc (uniq l)).

Definition no_comma (s : string) : bool :=
  KeyDirectory.string_forallb (fun a => negb (Ascii.eqb a ",")) s.

(** *** [uniq] *)

Lemma set_add_elem {A} `{EqDecision A} (acc : list A) x y :
  y ∈ set_add acc x <-> y ∈ acc \/ y = x.
Proof.
  unfold set_add. destruct (decide (x ∈ acc)).
  - split; [by left|]. intros [?| ->]; done.
  - rewrite elem_of_app, list_elem_of_singleton. done.
Qed.

Lemma set_add_NoDup {A} `{EqDecision A} (acc : list A) x :
  NoDup acc -> NoDup (set_add acc x).
Proof.
  intros Hnd. unfold set_add. destruct (decide (x ∈ acc)); [done|].
  apply NoDup_app. split; [done|]. split.
  - intros y Hy Hy'. apply list_elem_of_singleton in Hy'. by subst.
  - apply NoDup_singleton.
Qed.

Lemma fold_set_add {A} `{EqDecision A} (l : list A) : forall acc,
  NoDup acc ->
  NoDup (fold_left set_add l acc) /\
  forall y, y ∈ fold_left set_add l acc <-> y ∈ acc \/ y ∈ l.
Proof.
  induction l as [|x l IH]; intros acc Hnd; simpl.
  - split; [done|]. intros y. rewrite elem_of_nil. tauto.
  - destruct (IH (set_add acc x) (set_add_NoDup _ _ Hnd)) as [H1 H2].
    split; [done|]. intros y. rewrite H2, set_add_elem, elem_of_cons. tauto.
Qed.

Lemma uniq_NoDup {A} `{EqDecision A} (l : list A) : NoDup (uniq l).
Proof. apply fold_set_add. constructor. Qed.

Lemma uniq_elem {A} `{EqDecision A} (l : list A) y : y ∈ uniq l <-> y ∈ l.
Proof.
  unfold uniq. destruct (fold_set_add l [] (NoDup_nil_2)) as [_ H2].
  rewrite H2, elem_of_nil. tauto.
Qed.

Lemma fold_set_add_map {A B} `{EqDecision A} `{EqDecision B} (f : A -> B)
    `{!Inj (=) (=) f} (l : list A) : forall acc,
  fold_left set_add (map f l) (map f acc) = map f (fold_left set_add l acc).
Proof.
  induction l as [|x l IH]; intros acc; [done|]. simpl.
  rewrite <- IH. f_equal. unfold set_add.
  destruct (decide (x ∈ acc)) as [Hin|Hin].
  - rewrite decide_True; [done|]. by apply list_elem_of_fmap_2.
  - rewrite decide_False.
    + by rewrite map_app.
    + intros Hin'. apply list_elem_of_fmap in Hin' as (x' & E & Hx').
      apply (inj f) in E. by subst.
Qed.

Lemma uniq_map {A B} `{EqDecision A} `{EqDecision B} (f : A -> B)
    `{!Inj (=) (=) f} (l : list A) : uniq (map f l) = map f (uniq l).
Proof. apply (fold_set_add_map f l []). Qed.

(** *** [sort] *)

Lemma sort_insert_perm {A} (cmp : A -> A -> Z) x l :
  Permutation (sort_insert cmp x l) (x :: l).
Proof.
  induction l as [|y l IH]; simpl; [done|].
  destruct (cmp x y <=? 0); [done|].
  rewrite IH. apply perm_swap.
Qed.

Lemma sort_perm {A} (cmp : A -> A -> Z) l : Permutation (sort cmp l) l.
Proof.
  induction l as [|x l IH]; simpl; [done|].
  unfold sort in *. simpl. by rewrite sort_insert_perm, IH.
Qed.

Lemma sort_insert_sorted x l :
  StronglySorted Z.ge l -> StronglySorted Z.ge (sort_insert desc x l).
Proof.
  induction 1 as [|y l Hs IH Hy]; simpl.
  - repeat constructor.
  - unfold desc at 1. destruct (Z.leb_spec (y - x) 0).
    + constructor; [by constructor|]. constructor; [lia|].
      eapply Forall_impl; [exact Hy|]. simpl. intros; lia.
    + constructor; [done|].
      rewrite (sort_insert_perm desc x l). constructor; [lia|done].
Qed.

Lemma sort_sorted l : StronglySorted Z.ge (sort desc l).
Proof.
  induction l as [|x l IH]; [constructor|].
  unfold sort in *. simpl. by apply sort_insert_sorted.
Qed.

Lemma sort_insert_map x l :
  sort_insert cmp_desc (JInt x) (map JInt l) = map JInt (sort_insert desc x l).
Proof.
  induction l as [|y l IH]; [done|]. cbn [map sort_insert].
  change (cmp_desc (JInt x) (JInt y)) with (desc x y).
  destruct (desc x y <=? 0); [done|]. by rewrite IH.
Qed.

Lemma sort_map l : sort cmp_desc (map JInt l) = map JInt (sort desc l).
Proof.
  induction l as [|x l IH]; [done|].
  unfold sort in *. simpl. by rewrite IH, sort_insert_map.
Qed.

(** *** The twenty largest *)

Lemma top20_map l : Migration.top20 (map JInt l) = map JInt (top20Z l).
Proof.
  unfold Migration.top20, top20Z, slice0.
  assert (Inj (=) (=) JInt) by (intros x y E; by inversion E).
  by rewrite uniq_map, sort_map, <- fmap_take.
Qed.

Lemma StronglySorted_app_lt (l1 l2 : list Z) :
  StronglySorted Z.gt (l1 ++ l2) ->
  StronglySorted Z.gt l1 /\ forall y x, y ∈ l1 -> x ∈ l2 -> x < y.
Proof.
  induction l1 as [|a l1 IH]; simpl; intros Hs.
  - split; [constructor|]. intros y x Hy. by apply elem_of_nil in Hy.
  - apply StronglySorted_inv in Hs as [Hs Ha].
    destruct (IH Hs) as [H1 H2]. split.
    + constructor; [done|]. apply Forall_app in Ha. tauto.
    + intros y x Hy Hx. apply elem_of_cons in Hy as [->|Hy]; [|by apply H2].
      rewrite Forall_forall in Ha. specialize (Ha x).
      assert (a > x); [|lia]. apply Ha. apply elem_of_app. by right.
Qed.

Lemma sorted_ge_NoDup_gt (l : list Z) :
  StronglySorted Z.ge l -> NoDup l -> StronglySorted Z.gt l.
Proof.
  induction 1 as [|a l Hs IH Ha]; intros Hnd; [constructor|].
  apply NoDup_cons in Hnd as [Hnin Hnd]. constructor; [by apply IH|].
  rewrite Forall_forall in *. intros x Hx. specialize (Ha x Hx).
  assert (a <> x) by (intros ->; done). lia.
Qed.

(** [top20Z l] is the list of the twenty largest distinct values of [l], in
    descending order (all of them when there are fewer). *)
Lemma top20Z_spec (l : list Z) :
  (length (top20Z l) <= 20)%nat /\
  NoDup (top20Z l) /\
  StronglySorted Z.gt (top20Z l) /\
  (forall x, x ∈ top20Z l -> x ∈ l) /\
  (forall x, x ∈ l -> x ∉ top20Z l ->
     length (top20Z l) = 20%nat /\ forall y, y ∈ top20Z l -> x < y).
Proof.
  unfold top20Z, slice0. set (L := sort desc (uniq l)).
  assert (HP : Permutation L (uniq l)) by apply sort_perm.
  assert (Hnd : NoDup L) by (rewrite HP; apply uniq_NoDup).
  assert (Hin : forall x, x ∈ L <-> x ∈ l)
    by (intros x; by rewrite HP, uniq_elem).
  assert (Hs : StronglySorted Z.gt L)
    by (apply sorted_ge_NoDup_gt; [apply sort_sorted|done]).
  rewrite <- (take_drop 20 L) in Hs, Hnd.
  apply StronglySorted_app_lt in Hs as [Hs1 Hs2].
  split; [rewrite length_take; lia|].
  split; [by apply NoDup_app in Hnd as [? _]|].
  split; [done|]. split.
  - intros x Hx. apply Hin. rewrite <- (take_drop 20 L). apply elem_of_app. by left.
  - intros x Hx Hnot. apply Hin in Hx. rewrite <- (take_drop 20 L) in Hx.
    apply elem_of_app in Hx as [Hx|Hx]; [done|]. split.
    + rewrite length_take. apply list_elem_of_lookup in Hx as [i Hi].
      apply lookup_lt_Some in Hi. rewrite length_drop in Hi. lia.
    + intros y Hy. by apply Hs2.
Qed.

Lemma top20Z_nil l : top20Z l = [] -> l = [].
Proof.
  intros Ht. destruct l as [|x l]; [done|]. exfalso.
  destruct (top20Z_spec (x :: l)) as (_ & _ & _ & _ & H).
  destruct (decide (x ∈ top20Z (x :: l))) as [Hin|Hout].
  - rewrite Ht in Hin. by apply elem_of_nil in Hin.
  - destruct (H x) as [Hl _]; [by left|done|]. by rewrite Ht in Hl.
Qed.

(** *** Numerals *)

Lemma uint_no_comma d : no_comma (NilEmpty.string_of_uint d) = true.
Proof. induction d; simpl; auto. Qed.

Lemma toString_no_comma n : no_comma (toString n) = true.
Proof.
  destruct n as [|z]; [done|]. unfold toString.
  destruct (Z.to_int z); simpl; apply uint_no_comma.
Qed.

Lemma digits_uint d :
  d <> Decimal.Nil ->
  digits (NilEmpty.string_of_uint d) = Some (Z.of_N (N.of_uint d)) /\
  exists c s, NilEmpty.string_of_uint d = String c s /\
              Ascii.eqb c "-" = false /\ Ascii.eqb c "+" = false.
Proof.
  intros Hd. split.
  - unfold digits. rewrite NilEmpty.usu.
    destruct d; simpl; try done.
  - destruct d; try done; simpl; eauto.
Qed.

Lemma Number_toString z : Number (toString (JInt z)) = JInt z.
Proof.
  unfold toString. destruct z as [|p|p]; [done|..]; simpl.
  - destruct (digits_uint (Pos.to_uint p) (Unsigned.to_uint_nonnil p))
      as [Hd (c & s & Hs & H1 & H2)].
    unfold Number. rewrite Hs, H1, H2, <- Hs, Hd.
    f_equal. unfold N.of_uint. by rewrite DecimalPos.Unsigned.of_to.
  - destruct (digits_uint (Pos.to_uint p) (Unsigned.to_uint_nonnil p))
      as [Hd _].
    rewrite Hd. f_equal. unfold N.of_uint. by rewrite DecimalPos.Unsigned.of_to.
Qed.

(** *** [split] after [join] *)

Lemma split_no_comma x : no_comma x = true -> split "," x = [x].
Proof.
  induction x as [|a x IH]; [done|]. unfold no_comma. simpl.
  intros H. apply andb_true_iff in H as [Ha Hx].
  destruct (Ascii.eqb a ","); [done|]. by rewrite (IH Hx).
Qed.

Lemma split_app_comma x rest :
  no_comma x = true -> split "," (x +:+ "," +:+ rest) = x :: split "," rest.
Proof.
  induction x as [|a x IH]; [done|]. unfold no_comma. simpl.
  intros H. apply andb_true_iff in H as [Ha Hx].
  destruct (Ascii.eqb a ","); [done|]. by rewrite (IH Hx).
Qed.

Lemma split_join l :
  l <> [] -> Forall (fun x => no_comma x = true) l ->
  split "," (join "," l) = l.
Proof.
  intros Hne Hl. induction Hl as [|x l Hx Hl IH]; [done|].
  destruct l as [|y l].
  - simpl. by apply split_no_comma.
  - change (join "," (x :: y :: l)) with (x +:+ "," +:+ join "," (y :: l)).
    rewrite split_app_comma by done. by rewrite IH.
Qed.

Lemma parse_join (ks : list Z) :
  ks <> [] ->
  Migration.parseIndexes (Migration.joinIndexes (map JInt ks)) = map JInt ks.
Proof.
  intros Hne. unfold Migration.parseIndexes, Migration.joinIndexes.
  rewrite split_join.
  - rewrite !map_map. apply map_ext. intros z. apply Number_toString.
  - by destruct ks.
  - apply Forall_forall. intros x Hx. apply list_elem_of_fmap in Hx as (n & -> & _).
    apply toString_no_comma.
Qed.

End JsFacts.

(** ** Clearing the cache ([PrivacyCash.clearCache]) *)

Module ClearCache.
Import KeyDirectory.

Section WithPrimitives.
Context {Pr : Primitives}.

(** [clearCache] of [index.ts]: the suffix is derived with the session key
    of the instance; a failing derivation rejects before anything is
    removed. *)
Definition clearCache (publicKey : string) (storageKeyEncryptionKey : option string)
    (st : Storage) : Result unit * Storage :=
  match storageKeySuffix publicKey storageKeyEncryptionKey with
  | Err m => (Err m, st)
  | Ok storageKeySuffix =>
      let st := Store.removeItem (LSK_FETCH_OFFSET +:+ storageKeySuffix) st in
      let st := Store.removeItem (LSK_ENCRYPTED_OUTPUTS +:+ storageKeySuffix) st in
      (Ok tt, st)
  end.

(** [clearCache] of the earlier [index.ts] (before session keys): the hashed
    suffix, then the three legacy keys of the wallet. *)
Definition clearCache0 (publicKey : string) (st : Storage) : Storage :=
  let storageKeySuffix := contractPrefix +:+ hashedName publicKey in
  let st := Store.removeItem (LSK_FETCH_OFFSET +:+ storageKeySuffix) st in
  let st := Store.removeItem (LSK_ENCRYPTED_OUTPUTS +:+ storageKeySuffix) st in
  let oldKeySuffix := publicKey in
  let contractPrefix := String.substring 0 6 PROGRAM_ID in
  let oldSuffix := contractPrefix +:+ oldKeySuffix in
  let st := Store.removeItem (LSK_FETCH_OFFSET +:+ oldSuffix) st in
  let st := Store.removeItem (LSK_ENCRYPTED_OUTPUTS +:+ oldSuffix) st in
  let st := Store.removeItem ("tradeHistory" +:+ oldSuffix) st in
  st.

(** The keys of the three kinds under one suffix. *)
Definition kindKeys (suffix : string) : list string :=
  [LSK_FETCH_OFFSET +:+ suffix; LSK_ENCRYPTED_OUTPUTS +:+ suffix;
   "tradeHistory" +:+ suffix].

(** All storage keys of a wallet: the three kinds under its legacy and
    its hashed suffix and, where a session key makes another suffix of it,
    under its current suffix. Without a usable session key the current
    suffix is the hashed one. *)
Definition walletKeys (publicKey : string) (encryptionKey : option string)
  : list string :=
  let hashedS := contractPrefix +:+ hashedName publicKey in
  kindKeys (localstorageKeyOld publicKey)
    ++ kindKeys hashedS
    ++ match storageKeySuffix publicKey encryptionKey with
       | Ok s => if String.eqb s hashedS then [] else kindKeys s
       | Err _ => []
       end.

Lemma getItem_removeItem k k' st :
  Store.getItem k' (Store.removeItem k st)
  = if decide (k = k') then None else Store.getItem k' st.
Proof.
  unfold Store.getItem, Store.removeItem; simpl. destruct (decide (k = k')) as [->|].
  - apply lookup_delete_eq.
  - by apply lookup_delete_ne.
Qed.

Lemma suffix_hashed_none pk :
  storageKeySuffix pk None = Ok (contractPrefix +:+ hashedName pk).
Proof. done. Qed.

(** What one lookup sees after [clearCache]. *)
Lemma clearCache_lookup pk ek suffix st k :
  storageKeySuffix pk ek = Ok suffix ->
  Store.getItem k (snd (clearCache pk ek st))
  = if decide (k ∈ [LSK_FETCH_OFFSET +:+ suffix; LSK_ENCRYPTED_OUTPUTS +:+ suffix])
    then None else Store.getItem k st.
Proof.
  intros Hs. unfold clearCache. rewrite Hs. cbn [snd]. cbv zeta.
  rewrite !getItem_removeItem.
  destruct (decide (k ∈ _)) as [Hin|Hout].
  - apply elem_of_cons in Hin as [->|Hin].
    + destruct (decide (_ = _)); [done|]. by rewrite decide_True.
    + apply list_elem_of_singleton in Hin as ->. by rewrite decide_True.
  - apply not_elem_of_cons in Hout as [H1 Hout].
    apply not_elem_of_cons in Hout as [H2 _].
    by rewrite !decide_False by congruence.
Qed.

Lemma clearCache0_lookup pk st k :
  Store.getItem k (clearCache0 pk st)
  = if decide (k ∈ [LSK_FETCH_OFFSET +:+ (contractPrefix +:+ hashedName pk);
                     LSK_ENCRYPTED_OUTPUTS +:+ (contractPrefix +:+ hashedName pk)]
                    ++ kindKeys (localstorageKeyOld pk))
    then None else Store.getItem k st.
Proof.
  unfold clearCache0. cbv zeta.
  change (String.substring 0 6 PROGRAM_ID +:+ pk) with (localstorageKeyOld pk).
  unfold kindKeys. cbn [app].
  rewrite !getItem_removeItem.
  destruct (decide (k ∈ _)) as [Hin|Hout].
  - repeat (apply elem_of_cons in Hin as [->|Hin]);
      [..|by apply elem_of_nil in Hin];
      repeat (destruct (decide (_ = _)); [done|]); done.
  - repeat (apply not_elem_of_cons in Hout as [? Hout]).
    by rewrite !decide_False by congruence.
Qed.

(** C10. [clearCache] removes the fetch-offset and the ciphertext-cache entry
    under the wallet's current suffix, and of the entries under that suffix
    no other: the recent-activity entry ([tradeHistory]) under it is left as
    it was, and so is every entry whose key is not one of the removed keys,
    the entries of every other wallet among them. This holds for the
    [clearCache] of both revisions of [index.ts]; the earlier one removes, in
    addition, the three legacy-format entries of the same wallet. *)
Theorem clearCache_frame (pk : string) (ek : option string) (suffix : string)
    (st : Storage) :
  storageKeySuffix pk ek = Ok suffix ->
  NoDup (walletKeys pk ek) ->
  (let st' := snd (clearCache pk ek st) in
   Store.getItem (LSK_FETCH_OFFSET +:+ suffix) st' = None /\
   Store.getItem (LSK_ENCRYPTED_OUTPUTS +:+ suffix) st' = None /\
   Store.getItem ("tradeHistory" +:+ suffix) st'
     = Store.getItem ("tradeHistory" +:+ suffix) st /\
   (forall k, k <> LSK_FETCH_OFFSET +:+ suffix ->
              k <> LSK_ENCRYPTED_OUTPUTS +:+ suffix ->
              Store.getItem k st' = Store.getItem k st) /\
   (forall pk' ek' k,
      k ∈ walletKeys pk' ek' -> k ∉ walletKeys pk ek ->
      Store.getItem k st' = Store.getItem k st) /\
   chromeLocal st' = chromeLocal st) /\
  (let hashedS := contractPrefix +:+ hashedName pk in
   let st' := clearCache0 pk st in
   Store.getItem (LSK_FETCH_OFFSET +:+ hashedS) st' = None /\
   Store.getItem (LSK_ENCRYPTED_OUTPUTS +:+ hashedS) st' = None /\
   Store.getItem ("tradeHistory" +:+ hashedS) st'
     = Store.getItem ("tradeHistory" +:+ hashedS) st /\
   (forall k, k ∉ [LSK_FETCH_OFFSET +:+ hashedS; LSK_ENCRYPTED_OUTPUTS +:+ hashedS]
                ++ kindKeys (localstorageKeyOld pk) ->
              Store.getItem k st' = Store.getItem k st) /\
   (forall pk' k,
      k ∈ walletKeys pk' None -> k ∉ walletKeys pk None ->
      Store.getItem k st' = Store.getItem k st) /\
   chromeLocal st' = chromeLocal st).
Proof.
  intros Hs Hnd.
  assert (Hin : forall k, k ∈ kindKeys suffix -> k ∈ walletKeys pk ek).
  { intros k Hk. unfold walletKeys. cbv zeta. rewrite Hs.
    apply elem_of_app. right. apply elem_of_app.
    destruct (String.eqb_spec suffix (contractPrefix +:+ hashedName pk)) as [E|_].
    - left. by rewrite <- E.
    - by right. }
  unfold walletKeys in Hnd. cbv zeta in Hnd. rewrite Hs in Hnd.
  apply NoDup_app in Hnd as (Hold & Hdis1 & Hnd).
  apply NoDup_app in Hnd as (Hhash & Hdis2 & Hcur').
  assert (Hcur : NoDup (kindKeys suffix)).
  { destruct (String.eqb_spec suffix (contractPrefix +:+ hashedName pk)) as [E|_];
      [by rewrite E|done]. }
  clear Hcur' Hdis2.
  split; cbv zeta.
  - assert (Hth : "tradeHistory" +:+ suffix
                  ∉ [LSK_FETCH_OFFSET +:+ suffix; LSK_ENCRYPTED_OUTPUTS +:+ suffix]).
    { clear -Hcur. unfold kindKeys in Hcur. nodup_facts Hcur.
      intros Hin. apply elem_of_cons in Hin as [E|Hin]; [congruence|].
      apply list_elem_of_singleton in Hin. congruence. }
    split; [|split; [|split; [|split; [|split]]]].
    + rewrite (clearCache_lookup _ _ suffix) by done.
      apply decide_True. apply list_elem_of_here.
    + rewrite (clearCache_lookup _ _ suffix) by done.
      apply decide_True. apply list_elem_of_further, list_elem_of_here.
    + rewrite (clearCache_lookup _ _ suffix) by done. by apply decide_False.
    + intros k Hk1 Hk2. rewrite (clearCache_lookup _ _ suffix) by done.
      apply decide_False. intros Hk.
      apply elem_of_cons in Hk as [E|Hk]; [done|].
      by apply list_elem_of_singleton in Hk.
    + intros pk' ek' k _ Hout. rewrite (clearCache_lookup _ _ suffix) by done.
      apply decide_False. intros Hk. apply Hout, Hin. unfold kindKeys.
      apply elem_of_cons in Hk as [->|Hk]; [apply list_elem_of_here|].
      apply list_elem_of_singleton in Hk as ->.
      apply list_elem_of_further, list_elem_of_here.
    + unfold clearCache. by rewrite Hs.
  - assert (Hth : "tradeHistory" +:+ (contractPrefix +:+ hashedName pk)
                  ∉ [LSK_FETCH_OFFSET +:+ (contractPrefix +:+ hashedName pk);
                     LSK_ENCRYPTED_OUTPUTS +:+ (contractPrefix +:+ hashedName pk)]
                    ++ kindKeys (localstorageKeyOld pk)).
    { intros Hk. cbn [app] in Hk.
      apply elem_of_cons in Hk as [E|Hk].
      { clear -Hhash E. unfold kindKeys in Hhash. nodup_facts Hhash. congruence. }
      apply elem_of_cons in Hk as [E|Hk].
      { clear -Hhash E. unfold kindKeys in Hhash. nodup_facts Hhash. congruence. }
      apply (Hdis1 _ Hk). apply elem_of_app. left. unfold kindKeys.
      do 2 apply list_elem_of_further. apply list_elem_of_here. }
    split; [|split; [|split; [|split; [|split]]]].
    + rewrite clearCache0_lookup. apply decide_True. apply list_elem_of_here.
    + rewrite clearCache0_lookup. apply decide_True.
      apply list_elem_of_further, list_elem_of_here.
    + rewrite clearCache0_lookup. by apply decide_False.
    + intros k Hk. rewrite clearCache0_lookup. by apply decide_False.
    + intros pk' k _ Hout. rewrite clearCache0_lookup.
      apply decide_False. intros Hk. apply Hout.
      unfold walletKeys. cbv zeta. cbn [app] in Hk.
      apply elem_of_cons in Hk as [->|Hk].
      { apply elem_of_app. right. apply elem_of_app. left. apply list_elem_of_here. }
      apply elem_of_cons in Hk as [->|Hk].
      { apply elem_of_app. right. apply elem_of_app. left.
        apply list_elem_of_further, list_elem_of_here. }
      apply elem_of_app. by left.
    + done.
Qed.

End WithPrimitives.

(** A run without a session key, as the SDK is set up by default, and a
    run with one: the two cache entries go, the recent-activity entry and
    the entry of another wallet stay. *)
Lemma clearCache_frame_witness :
  let pk := Sample.wallet in
  let other := "fetch_offset9fhQBbsha256:7xKXtg2CW87d97TXJSDpbD5jBkheTqA83TZRuJosgAsU" in
  let filled := fun suffix : string =>
    mkStorage
      (<["fetch_offset" +:+ suffix := "200"]>
       (<["encrypted_outputs" +:+ suffix := "[]"]>
        (<["tradeHistory" +:+ suffix := "7,3"]>
         (<[other := "100"]> ∅)))) None in
  let hashedS := "9fhQBbsha256:4Nd1mBQtrMJVYVfKf2PJy9NZUZdTAsp7D4xWLs4gDB4T" in
  let encryptedS := "9fhQBbsha256:4Nd1maes(0123456789abcdef,4Nd1mBQtrMJVYVfKf2PJy9NZUZdTAsp7D4xWLs4gDB4T)" in
  let st0 := snd (clearCache (Pr := Sample.prims) pk None (filled hashedS)) in
  let st1 := snd (clearCache (Pr := Sample.prims) pk (Some Sample.sessionKey)
                    (filled encryptedS)) in
  (NoDup (walletKeys (Pr := Sample.prims) pk None) /\
   Store.getItem ("fetch_offset" +:+ hashedS) st0 = None /\
   Store.getItem ("encrypted_outputs" +:+ hashedS) st0 = None /\
   Store.getItem ("tradeHistory" +:+ hashedS) st0 = Some "7,3" /\
   Store.getItem other st0 = Some "100") /\
  (NoDup (walletKeys (Pr := Sample.prims) pk (Some Sample.sessionKey)) /\
   Store.getItem ("fetch_offset" +:+ encryptedS) st1 = None /\
   Store.getItem ("encrypted_outputs" +:+ encryptedS) st1 = None /\
   Store.getItem ("tradeHistory" +:+ encryptedS) st1 = Some "7,3" /\
   Store.getItem other st1 = Some "100").
Proof.
  intros pk other filled hashedS encryptedS st0 st1.
  assert (Hnd0 : NoDup (walletKeys (Pr := Sample.prims) pk None)).
  { apply (bool_decide_unpack _). vm_compute. exact I. }
  assert (Hnd1 : NoDup (walletKeys (Pr := Sample.prims) pk (Some Sample.sessionKey))).
  { apply (bool_decide_unpack _). vm_compute. exact I. }
  destruct (clearCache_frame (Pr := Sample.prims) pk None hashedS (filled hashedS)
              eq_refl Hnd0) as [(A1 & A2 & A3 & A4 & _) _].
  destruct (clearCache_frame (Pr := Sample.prims) pk (Some Sample.sessionKey)
              encryptedS (filled encryptedS) eq_refl Hnd1)
    as [(B1 & B2 & B3 & B4 & _) _].
  split.
  - split; [exact Hnd0|]. split; [exact A1|]. split; [exact A2|].
    split; [exact A3|]. apply (A4 other); vm_compute; discriminate.
  - split; [exact Hnd1|]. split; [exact B1|]. split; [exact B2|].
    split; [exact B3|]. apply (B4 other); vm_compute; discriminate.
Defined.

End ClearCache.

(** ** Amounts ([bn.js])

    The amount of a note is a [BN]. The code compares it as a JavaScript
    number, through [toNumber], which the library refuses for a value of
    more than 53 bits. *)

Module BN.

Definition overflow : string := "Number can only safely store up to 53 bits".

(** [amount.toNumber()] *)
Definition toNumber (z : Z) : Result Z :=
  if Z.abs z <? 2 ^ 53 then Ok z else Err overflow.

(** The values [toNumber] accepts. *)
Definition safe (z : Z) : Prop := Z.abs z < 2 ^ 53.

#[global] Instance safe_dec z : Decision (safe z).
Proof. unfold safe. apply _. Defined.

Lemma toNumber_safe z : safe z -> toNumber z = Ok z.
Proof.
  unfold safe, toNumber. intros H.
  by destruct (Z.ltb_spec (Z.abs z) (2 ^ 53)); [|lia].
Qed.

Lemma toNumber_ok z n : toNumber z = Ok n -> n = z /\ safe z.
Proof.
  unfold safe, toNumber.
  destruct (Z.ltb_spec (Z.abs z) (2 ^ 53)); [|done]. by intros [= <-].
Qed.

Lemma toNumber_unsafe z : ~ safe z -> toNumber z = Err overflow.
Proof.
  unfold safe, toNumber. intros H.
  by destruct (Z.ltb_spec (Z.abs z) (2 ^ 53)).
Qed.

End BN.

(** ** The spent check ([areUtxosSpent]) and the selection of unspent notes *)

Module Spent.

(** One answer of [connection.getMultipleAccountsInfo]: the call throws, or
    it reads the ledger, which holds an account or [null] at an address. *)
Inductive RpcOutcome : Type :=
| RpcError
| RpcOk (ledger : string -> option string).

(** The connection: the outcome of its n-th call. *)
Definition Connection : Type := nat -> RpcOutcome.

Section WithPrimitives.
Context {Pr : Primitives}.

Definition nullifier0PDA (utxo : Utxo) : string :=
  findProgramAddress "nullifier0" (getNullifier utxo).

Definition nullifier1PDA (utxo : Utxo) : string :=
  findProgramAddress "nullifier1" (getNullifier utxo).

(** The first loop of [areUtxosSpent]: two entries [{utxoIndex, pda}] per
    note, [i] being the index of the first note of [utxos]. *)
Fixpoint collectPDAs (i : nat) (utxos : list Utxo) : list (nat * string) :=
  match utxos with
  | [] => []
  | utxo :: rest =>
      (i, nullifier0PDA utxo) :: (i, nullifier1PDA utxo) :: collectPDAs (S i) rest
  end.

Definition getMultipleAccountsInfo (conn : Connection) (call : nat)
    (pdas : list string) : Result (list (option string)) :=
  match conn call with
  | RpcError => Err "getMultipleAccountsInfo failed"
  | RpcOk ledger => Ok (map ledger pdas)
  end.

(** [results[i] !== null]; an index past the end reads [undefined], which is
    not [null]. *)
Definition notNull (results : list (option string)) (i : nat) : bool :=
  match results !! i with
  | Some None => false
  | _ => true
  end.

(** The second loop: [spentFlags[allPDAs[i].utxoIndex] = true] where
    [results[i]] is an account; [i] is the position of the first entry of
    [allPDAs]. *)
Fixpoint markSpent (i : nat) (allPDAs : list (nat * string))
    (results : list (option string)) (spentFlags : list bool) : list bool :=
  match allPDAs with
  | [] => spentFlags
  | (utxoIndex, _) :: rest =>
      markSpent (S i) rest results
        (if notNull results i then <[utxoIndex := true]> spentFlags else spentFlags)
  end.

(** [areUtxosSpent]: any error is followed by a delay of three seconds and
    another attempt on the whole batch. The answer comes with the number of
    the next call of the connection. *)
Fixpoint areUtxosSpent (fuel : nat) (conn : Connection) (call : nat)
    (utxos : list Utxo) : option (list bool * nat) :=
  match fuel with
  | O => None
  | S fuel' =>
      let allPDAs := collectPDAs 0 utxos in
      match getMultipleAccountsInfo conn call (map snd allPDAs) with
      | Ok results =>
          let spentFlags := replicate (length utxos) false in
          Some (markSpent 0 allPDAs results spentFlags, S call)
      | Err _ => areUtxosSpent fuel' conn (S call) utxos
      end
  end.

(** The notes of a page with a positive amount, each with its ciphertext
    ([nonZeroUtxos] and [nonZeroEncrypted], two arrays filled together);
    [k] is the index of the first note of [utxos]. The test is
    [utxo.amount.toNumber() > 0], which throws on an amount of more than 53
    bits. *)
Fixpoint nonZero (k : nat) (utxos : list Utxo) (encryptedOutputs : list string)
  : Result (list (Utxo * string)) :=
  match utxos with
  | [] => Ok []
  | utxo :: rest =>
      n ← BN.toNumber (amount utxo);
      rest ← nonZero (S k) rest encryptedOutputs;
      Ok (if 0 <? n
          then (utxo, default "" (encryptedOutputs !! k)) :: rest
          else rest)
  end.

(** The notes pushed to [valid_utxos] and [valid_strings]: those with
    [!spentFlags[i]]. *)
Fixpoint keepUnspent (i : nat) (nz : list (Utxo * string)) (spentFlags : list bool)
  : list (Utxo * string) :=
  match nz with
  | [] => []
  | p :: rest =>
      match spentFlags !! i with
      | Some true => keepUnspent (S i) rest spentFlags
      | _ => p :: keepUnspent (S i) rest spentFlags
      end
  end.

(** The part of the loop body of [getUtxos] between the page fetch and the
    write of the offset: [None] when the spent check does not come back
    within [fuel] attempts, an error when an amount makes [toNumber] throw,
    the notes kept and the number of the next call otherwise. *)
Definition unspentOfPage (fuel : nat) (conn : Connection) (call : nat)
    (utxos : list Utxo) (encryptedOutputs : list string)
  : option (Result (list (Utxo * string) * nat)) :=
  match nonZero 0 utxos encryptedOutputs with
  | Err m => Some (Err m)
  | Ok [] => Some (Ok ([], call))
  | Ok nz =>
      match areUtxosSpent fuel conn call (map fst nz) with
      | Some (spentFlags, call') => Some (Ok (keepUnspent 0 nz spentFlags, call'))
      | None => None
      end
  end.

(** A note is spent on a ledger when one of its two marker addresses holds
    an account. *)
Definition spentOn (ledger : string -> option string) (utxo : Utxo) : bool :=
  bool_decide (is_Some (ledger (nullifier0PDA utxo)) \/
               is_Some (ledger (nullifier1PDA utxo))).

End WithPrimitives.

(** *** Proofs *)

Section Proofs.
Context {Pr : Primitives}.

Lemma notNull_ledger (ledger : string -> option string) pre post x :
  notNull (pre ++ ledger x :: post) (length pre)
  = bool_decide (is_Some (ledger x)).
Proof.
  unfold notNull. rewrite list_lookup_middle by done.
  by destruct (ledger x).
Qed.

Lemma mark_twice (b0 b1 : bool) (i0 : nat) (flags : list bool) (j : nat) :
  (if b1 then <[i0 := true]> (if b0 then <[i0 := true]> flags else flags)
   else (if b0 then <[i0 := true]> flags else flags)) !! j
  = if decide (i0 = j) then orb (b0 || b1) <$> flags !! j else flags !! j.
Proof.
  destruct (decide (i0 = j)) as [<-|Hne].
  - destruct (flags !! i0) as [f|] eqn:Ef.
    + assert ((i0 < length flags)%nat) by (by apply lookup_lt_Some in Ef).
      destruct b0, b1; simpl;
        rewrite ?list_lookup_insert_eq by (by rewrite ?length_insert);
        by rewrite ?Ef.
    + assert ((length flags <= i0)%nat) by (by apply lookup_ge_None).
      destruct b0, b1; simpl; rewrite ?list_insert_ge by (by rewrite ?list_insert_ge);
        by rewrite ?Ef.
  - destruct b0, b1; by rewrite ?list_lookup_insert_ne by done.
Qed.

Lemma markSpent_collect (ledger : string -> option string) us :
  forall i0 pre post flags j,
  markSpent (length pre) (collectPDAs i0 us)
    (pre ++ map ledger (map snd (collectPDAs i0 us)) ++ post) flags !! j
  = match us !! (j - i0)%nat with
    | Some u => if decide (i0 <= j)%nat
                then orb (spentOn ledger u) <$> flags !! j else flags !! j
    | None => flags !! j
    end.
Proof.
  induction us as [|u r IH]; intros i0 pre post flags j.
  - by rewrite lookup_nil.
  - cbn [collectPDAs map snd markSpent app].
    rewrite notNull_ledger.
    change (pre ++ ledger (nullifier0PDA u) :: ledger (nullifier1PDA u) :: ?t)
      with (pre ++ [ledger (nullifier0PDA u)] ++ ledger (nullifier1PDA u) :: t).
    rewrite (app_assoc pre).
    replace (S (length pre)) with (length (pre ++ [ledger (nullifier0PDA u)]))
      by (rewrite length_app; simpl; lia).
    rewrite notNull_ledger.
    change (?a ++ ledger (nullifier1PDA u) :: ?t)
      with (a ++ [ledger (nullifier1PDA u)] ++ t).
    rewrite (app_assoc (pre ++ _)).
    replace (S (length (pre ++ [ledger (nullifier0PDA u)])))
      with (length ((pre ++ [ledger (nullifier0PDA u)]) ++ [ledger (nullifier1PDA u)]))
      by (rewrite !length_app; simpl; lia).
    rewrite IH. rewrite mark_twice.
    fold (spentOn ledger u).
    assert (Hsp : bool_decide (is_Some (ledger (nullifier0PDA u)))
                  || bool_decide (is_Some (ledger (nullifier1PDA u)))
                  = spentOn ledger u).
    { unfold spentOn. apply eq_true_iff_eq.
      rewrite orb_true_iff, !bool_decide_eq_true. tauto. }
    rewrite Hsp.
    destruct (decide (i0 = j)) as [<-|Hne].
    + replace (i0 - i0)%nat with 0%nat by lia. simpl.
      rewrite decide_True by lia.
      replace (i0 - S i0)%nat with 0%nat by lia.
      destruct (r !! 0%nat); [|done]. by rewrite decide_False by lia.
    + destruct (decide (i0 <= j)%nat) as [Hle|Hgt].
      * replace (j - i0)%nat with (S (j - S i0)) by lia. simpl.
        destruct (r !! (j - S i0)%nat); [|done]. by rewrite decide_True by lia.
      * replace (j - i0)%nat with 0%nat by lia. simpl.
        replace (j - S i0)%nat with 0%nat by lia.
        destruct (r !! 0%nat); [|done]. by rewrite decide_False by lia.
Qed.

Lemma markSpent_length allPDAs : forall i results flags,
  length (markSpent i allPDAs results flags) = length flags.
Proof.
  induction allPDAs as [|[ui pda] rest IH]; intros i results flags; [done|].
  cbn [markSpent]. rewrite IH. destruct (notNull results i); [|done].
  by rewrite length_insert.
Qed.

(** The flags of a successful call: one per note, in the order of the notes. *)
Lemma markSpent_flags (ledger : string -> option string) utxos :
  markSpent 0 (collectPDAs 0 utxos)
    (map ledger (map snd (collectPDAs 0 utxos)))
    (replicate (length utxos) false)
  = map (spentOn ledger) utxos.
Proof.
  apply list_eq. intros j.
  pose proof (markSpent_collect ledger utxos 0 [] [] (replicate (length utxos) false) j) as H.
  cbn [length app] in H. rewrite app_nil_r in H. rewrite H. clear H.
  replace (j - 0)%nat with j by lia.
  rewrite list_lookup_fmap.
  destruct (utxos !! j) as [u|] eqn:Eu; cbn [fmap option_fmap option_map].
  - destruct (decide (0 <= j)%nat); [|lia].
    rewrite lookup_replicate_2 by (by apply lookup_lt_Some in Eu).
    simpl. by rewrite orb_false_r.
  - apply lookup_replicate_None. by apply lookup_ge_None in Eu.
Qed.

Lemma areUtxosSpent_retry conn k : forall call fuel ledger utxos,
  (forall j, (j < k)%nat -> conn (call + j)%nat = RpcError) ->
  conn (call + k)%nat = RpcOk ledger ->
  (k < fuel)%nat ->
  areUtxosSpent fuel conn call utxos
  = Some (map (spentOn ledger) utxos, S (call + k)).
Proof.
  induction k as [|k IH]; intros call fuel ledger utxos Herr Hok Hfuel.
  - destruct fuel as [|fuel]; [lia|]. cbn [areUtxosSpent].
    unfold getMultipleAccountsInfo. replace (call + 0)%nat with call in Hok by lia.
    rewrite Hok. cbv zeta. by rewrite markSpent_flags, Nat.add_0_r.
  - destruct fuel as [|fuel]; [lia|]. cbn [areUtxosSpent].
    unfold getMultipleAccountsInfo.
    rewrite <- (Nat.add_0_r call) at 1. rewrite (Herr 0%nat) by lia.
    rewrite (IH (S call) fuel ledger).
    + do 2 f_equal. lia.
    + intros j Hj. replace (S call + j)%nat with (call + S j)%nat by lia.
      apply Herr. lia.
    + by replace (S call + k)%nat with (call + S k)%nat by lia.
    + lia.
Qed.

Lemma nonZero_safe utxos encs : forall k,
  Forall (fun u => BN.safe (amount u)) utxos ->
  exists nz, nonZero k utxos encs = Ok nz /\
             map fst nz = filter (fun u => 0 < amount u) utxos.
Proof.
  induction utxos as [|u r IH]; intros k Hs; [by exists []|].
  apply Forall_cons in Hs as [Hu Hr].
  destruct (IH (S k) Hr) as (nz & Hnz & Hf).
  cbn [nonZero]. rewrite (BN.toNumber_safe _ Hu). cbn [mbind Result_bind].
  rewrite Hnz. cbn [mbind Result_bind]. eexists. split; [done|].
  rewrite filter_cons. destruct (Z.ltb_spec 0 (amount u)).
  - rewrite decide_True by done. simpl. by rewrite Hf.
  - by rewrite decide_False by lia.
Qed.

Lemma nonZero_unsafe utxos encs : forall k,
  Exists (fun u => ~ BN.safe (amount u)) utxos ->
  nonZero k utxos encs = Err BN.overflow.
Proof.
  induction utxos as [|u r IH]; intros k He; [by apply Exists_nil in He|].
  cbn [nonZero]. apply Exists_cons in He as [Hu|Hr].
  - by rewrite (BN.toNumber_unsafe _ Hu).
  - destruct (decide (BN.safe (amount u))) as [Hs|Hn].
    + rewrite (BN.toNumber_safe _ Hs). cbn [mbind Result_bind].
      by rewrite (IH (S k) Hr).
    + by rewrite (BN.toNumber_unsafe _ Hn).
Qed.

Lemma keepUnspent_filter (f : Utxo -> bool) nz : forall i flags,
  (forall j p, nz !! j = Some p -> flags !! (i + j)%nat = Some (f (fst p))) ->
  keepUnspent i nz flags = filter (fun p => f (fst p) = false) nz.
Proof.
  induction nz as [|p rest IH]; intros i flags Hf; [done|].
  cbn [keepUnspent]. rewrite filter_cons.
  pose proof (Hf 0%nat p eq_refl) as H0. rewrite Nat.add_0_r in H0. rewrite H0.
  assert (keepUnspent (S i) rest flags = filter (fun p => f (fst p) = false) rest) as ->.
  { apply IH. intros j q Hq. replace (S i + j)%nat with (i + S j)%nat by lia.
    by apply Hf. }
  destruct (f (fst p)); [by rewrite decide_False|by rewrite decide_True].
Qed.

(** Where every amount of the page fits and a call of the ledger reader
    succeeds, the notes kept are the notes with a positive amount and no
    account at either address. *)
Lemma unspentOfPage_kept (conn : Connection) (call k fuel : nat)
    (ledger : string -> option string) (utxos : list Utxo) (encs : list string) :
  (forall j, (j < k)%nat -> conn (call + j)%nat = RpcError) ->
  conn (call + k)%nat = RpcOk ledger ->
  (k < fuel)%nat ->
  Forall (fun u => BN.safe (amount u)) utxos ->
  exists kept call',
    unspentOfPage fuel conn call utxos encs = Some (Ok (kept, call')) /\
    forall u, u ∈ map fst kept <->
      u ∈ utxos /\ 0 < amount u /\
      ledger (nullifier0PDA u) = None /\ ledger (nullifier1PDA u) = None.
Proof.
  intros Herr Hok Hfuel Hsafe. unfold unspentOfPage.
  destruct (nonZero_safe utxos encs 0 Hsafe) as (nz & -> & Hfst).
  assert (Hmem : forall u,
    u ∈ map fst (filter (fun p => spentOn ledger (fst p) = false) nz) <->
    u ∈ utxos /\ 0 < amount u /\
    ledger (nullifier0PDA u) = None /\ ledger (nullifier1PDA u) = None).
  { intros u. rewrite list_elem_of_fmap. split.
    - intros ([u' e] & -> & Hin). apply list_elem_of_filter in Hin as [Hs Hin].
      assert (u' ∈ map fst nz) as Hu by (apply list_elem_of_fmap; by exists (u', e)).
      rewrite Hfst in Hu.
      apply list_elem_of_filter in Hu as [Hpos Hu]. simpl in *.
      split; [done|]. split; [done|].
      unfold spentOn in Hs. apply bool_decide_eq_false in Hs.
      destruct (ledger (nullifier0PDA u')) eqn:E0; [exfalso; apply Hs; left; by eexists|].
      destruct (ledger (nullifier1PDA u')) eqn:E1; [exfalso; apply Hs; right; by eexists|].
      done.
    - intros (Hu & Hpos & E0 & E1).
      assert (u ∈ map fst nz) as Hin.
      { rewrite Hfst. by apply list_elem_of_filter. }
      apply list_elem_of_fmap in Hin as ([u' e] & Heq & Hin). simpl in Heq. subst u'.
      exists (u, e). split; [done|]. apply list_elem_of_filter. split; [|done].
      simpl. unfold spentOn. apply bool_decide_eq_false. rewrite E0, E1.
      intros [[? ?]|[? ?]]; discriminate. }
  destruct nz as [|p rest] eqn:Enz.
  - exists [], call. split; [done|]. intros u. rewrite <- Hmem. done.
  - rewrite <- Enz in *.
    rewrite (areUtxosSpent_retry conn k call fuel ledger) by done.
    exists (keepUnspent 0 nz (map (spentOn ledger) (map fst nz))), (S (call + k)).
    split; [by rewrite Enz|]. intros u. rewrite <- Hmem.
    rewrite (keepUnspent_filter (spentOn ledger)); [done|].
    intros j q Hq. simpl. by rewrite !list_lookup_fmap, Hq.
Qed.

Lemma unspentOfPage_overflow fuel conn call utxos encs :
  Exists (fun u => ~ BN.safe (amount u)) utxos ->
  unspentOfPage fuel conn call utxos encs = Some (Err BN.overflow).
Proof. intros He. unfold unspentOfPage. by rewrite nonZero_unsafe. Qed.

(** C1. Once a call of the ledger reader succeeds (after any number of
    failed calls, each followed by a retry of the whole batch),
    [areUtxosSpent] returns one flag per note, in the order of the notes,
    and the flag of note [i] is [true] exactly when the ledger holds an
    account at the [nullifier0] or at the [nullifier1] address of the note.
    In the loop of [getUtxos] the notes kept for the result are exactly the
    notes of the page with a positive amount and no account at either
    address: a note with an account at one of them is left out although its
    amount is positive. The page has no result at all, such a note
    included, where the amount of one of its notes does not fit 53 bits:
    the comparison of the amounts throws before the ledger is asked. *)
Theorem areUtxosSpent_flags (conn : Connection) (call k fuel : nat)
    (ledger : string -> option string) (utxos : list Utxo) :
  (forall j, (j < k)%nat -> conn (call + j)%nat = RpcError) ->
  conn (call + k)%nat = RpcOk ledger ->
  (k < fuel)%nat ->
  (exists spentFlags,
     areUtxosSpent fuel conn call utxos = Some (spentFlags, S (call + k)) /\
     length spentFlags = length utxos /\
     forall i u, utxos !! i = Some u ->
       exists b, spentFlags !! i = Some b /\
         (b = true <-> is_Some (ledger (nullifier0PDA u)) \/
                       is_Some (ledger (nullifier1PDA u)))) /\
  (forall encryptedOutputs,
     (Forall (fun u => BN.safe (amount u)) utxos ->
      exists kept call',
        unspentOfPage fuel conn call utxos encryptedOutputs = Some (Ok (kept, call')) /\
        forall u, u ∈ map fst kept <->
          u ∈ utxos /\ 0 < amount u /\
          ledger (nullifier0PDA u) = None /\ ledger (nullifier1PDA u) = None) /\
     (~ Forall (fun u => BN.safe (amount u)) utxos ->
      unspentOfPage fuel conn call utxos encryptedOutputs = Some (Err BN.overflow))).
Proof.
  intros Herr Hok Hfuel. split.
  - exists (map (spentOn ledger) utxos).
    split; [by apply areUtxosSpent_retry|]. split; [by rewrite length_map|].
    intros i u Hu. exists (spentOn ledger u).
    rewrite list_lookup_fmap, Hu. split; [done|].
    unfold spentOn. by rewrite bool_decide_eq_true.
  - intros encs. split.
    + intros Hsafe. by apply (unspentOfPage_kept conn call k fuel ledger).
    + intros Hn. apply unspentOfPage_overflow.
      exact (not_Forall_Exists _ _ Hn).
Qed.

End Proofs.

(** Two notes with a positive amount, the second spent through its second
    marker; the first call of the connection fails. *)
Lemma areUtxosSpent_flags_witness :
  let ledger := fun pda : string =>
    if String.eqb pda "nullifier1/cc#0" then Some "account" else None in
  let conn : Connection := fun n => if Nat.eqb n 1 then RpcOk ledger else RpcError in
  let utxos := [mkUtxo 5 0 "aa"; mkUtxo 7 0 "cc"] in
  areUtxosSpent (Pr := Sample.prims) 3 conn 0 utxos = Some ([false; true], 2%nat) /\
  exists spentFlags,
    areUtxosSpent (Pr := Sample.prims) 3 conn 0 utxos = Some (spentFlags, 2%nat) /\
    length spentFlags = length utxos.
Proof.
  intros ledger conn utxos. split; [reflexivity|].
  destruct (areUtxosSpent_flags (Pr := Sample.prims) conn 0 1 3 ledger utxos)
    as [(flags & H1 & H2 & _) _].
  - intros j Hj. destruct j; [reflexivity|lia].
  - reflexivity.
  - lia.
  - exists flags. split; [exact H1|exact H2].
Defined.

Example unspentOfPage_sample :
  let ledger := fun pda : string =>
    if String.eqb pda "nullifier1/cc#0" then Some "account" else None in
  let conn : Connection := fun n => if Nat.eqb n 1 then RpcOk ledger else RpcError in
  unspentOfPage (Pr := Sample.prims) 3 conn 0
    [mkUtxo 5 0 "aa"; mkUtxo 0 1 "bb"; mkUtxo 7 0 "cc"] ["aa"; "bb"; "cc"]
  = Some (Ok ([(mkUtxo 5 0 "aa", "aa")], 2%nat)) /\
  unspentOfPage (Pr := Sample.prims) 3 conn 0
    [mkUtxo 5 0 "aa"; mkUtxo 9007199254740992 4 "ee"] ["aa"; "ee"]
  = Some (Err BN.overflow).
Proof. split; reflexivity. Qed.

End Spent.

(** ** Decryption of a batch of ciphertexts ([decrypt_outputs]) *)

Module Decrypt.

Inductive Status : Type :=
| decrypted
| skipped
| unDecrypted.

#[global] Instance Status_eq_dec : EqDecision Status.
Proof. solve_decision. Defined.

(** [DecryptRes] *)
Record DecryptRes : Type := mkRes {
  status : Status;
  utxo : option Utxo;
  encryptedOutput : option string;
}.

(** An element of the [indices] array: a number or something else. *)
Inductive JsValue : Type :=
| VNumber (n : Z)
| VOther.

(** The [indices] field of the answer of [POST /utxos/indices]: absent (or
    falsy), present and no array, or an array. *)
Inductive IndicesField : Type :=
| IndicesMissing
| IndicesNotArray
| IndicesArray (indices : list JsValue).

(** The answer itself: the request or the reading of its body throws, or the
    body is read. *)
Inductive IndicesResponse : Type :=
| IndicesFailed (msg : string)
| IndicesJson (indices : IndicesField).

Section WithPrimitives.
Context {Pr : Primitives}.

(** The indexer's [POST /utxos/indices], as a function of the ciphertexts
    sent. *)
Variable indices_api : list string -> IndicesResponse.

(** The body of the first loop, for one ciphertext. *)
Definition decryptOne (encryptedOutput : string) : DecryptRes :=
  if Js.truthy encryptedOutput then
    match decryptUtxo encryptedOutput with
    | Some utxo => mkRes decrypted (Some utxo) (Some encryptedOutput)
    | None => mkRes unDecrypted None None
    end
  else mkRes skipped None None.

(** [utxo.index = j.indices[i]] when the two differ and the element is a
    number. *)
Definition setIndex (r : DecryptRes) (v : option JsValue) : DecryptRes :=
  match utxo r, v with
  | Some u, Some (VNumber n) =>
      if decide (index u <> n)
      then mkRes (status r) (Some (mkUtxo (amount u) n (payload u))) (encryptedOutput r)
      else r
  | _, _ => r
  end.

(** The last loop; [i] is the index of the first element of [results]. *)
Fixpoint updateIndexes (i : nat) (results : list DecryptRes) (indices : list JsValue)
  : list DecryptRes :=
  match results with
  | [] => []
  | r :: rest => setIndex r (indices !! i) :: updateIndexes (S i) rest indices
  end.

Definition decrypt_outputs (encryptedOutputs : list string)
  : Result (list DecryptRes) :=
  let results := map decryptOne encryptedOutputs in
  let results := filter (fun r => status r = decrypted) results in
  match results with
  | [] => Ok []
  | _ =>
      let encrypted_outputs := map (fun r => default "" (encryptedOutput r)) results in
      match indices_api encrypted_outputs with
      | IndicesFailed m => Err m
      | IndicesJson (IndicesArray indices) =>
          if negb (Nat.eqb (length indices) (length encrypted_outputs))
          then Err "failed fetching /utxos/indices"
          else Ok (updateIndexes 0 results indices)
      | IndicesJson _ => Err "failed fetching /utxos/indices"
      end
  end.

(** The ciphertexts of a batch that decrypt, in the order of the batch, each
    with its note. *)
Definition survivors (encryptedOutputs : list string) : list (string * Utxo) :=
  omap (fun c => if Js.truthy c then (fun u => (c, u)) <$> decryptUtxo c else None)
       encryptedOutputs.

(** A decrypted note as the first loop records it. *)
Definition found (cu : string * Utxo) : DecryptRes :=
  mkRes decrypted (Some (snd cu)) (Some (fst cu)).

(** The index of a note after the last loop, [v] being its element of the
    answer: the element where it is a number, the index the note was
    decrypted with where it is not. *)
Definition indexAfter (u : Utxo) (v : JsValue) : Z :=
  match v with
  | VNumber n => n
  | VOther => index u
  end.

(** A decrypted note after the last loop. *)
Definition settled (cu : string * Utxo) (v : JsValue) : DecryptRes :=
  mkRes decrypted
        (Some (mkUtxo (amount (snd cu)) (indexAfter (snd cu) v) (payload (snd cu))))
        (Some (fst cu)).

End WithPrimitives.

(** *** Proofs *)

Section Proofs.
Context {Pr : Primitives}.
Variable indices_api : list string -> IndicesResponse.

Lemma decryptOne_cases c :
  match (if Js.truthy c then (fun u => (c, u)) <$> decryptUtxo c else None) with
  | Some cu => decryptOne c = found cu
  | None => status (decryptOne c) <> decrypted
  end.
Proof.
  unfold decryptOne. destruct (Js.truthy c); [|done].
  by destruct (decryptUtxo c).
Qed.

Lemma filter_decryptOne batch :
  filter (fun r => status r = decrypted) (map decryptOne batch)
  = map found (survivors batch).
Proof.
  induction batch as [|c batch IH]; [done|].
  cbn [map]. unfold survivors in *. cbn [omap list_omap].
  pose proof (decryptOne_cases c) as Hc.
  destruct (if Js.truthy c then _ else _) as [cu|].
  - rewrite filter_cons_True by (by rewrite Hc). cbn [map]. by rewrite IH, Hc.
  - by rewrite filter_cons_False.
Qed.

Lemma request_survivors batch :
  map (fun r => default "" (encryptedOutput r)) (map found (survivors batch))
  = map fst (survivors batch).
Proof. rewrite map_map. by apply map_ext. Qed.

Lemma survivors_app l1 l2 : survivors (l1 ++ l2) = survivors l1 ++ survivors l2.
Proof. unfold survivors. apply omap_app. Qed.

Lemma survivors_cons c batch :
  survivors (c :: batch)
  = match (if Js.truthy c then (fun u => (c, u)) <$> decryptUtxo c else None) with
    | Some cu => cu :: survivors batch
    | None => survivors batch
    end.
Proof. done. Qed.

Lemma survivors_fst batch : survivors (map fst (survivors batch)) = survivors batch.
Proof.
  induction batch as [|c batch IH]; [done|].
  rewrite survivors_cons.
  destruct (Js.truthy c) eqn:Et; [|done].
  destruct (decryptUtxo c) as [u|] eqn:Ed; [|done].
  cbn [fmap option_fmap option_map map fst]. rewrite survivors_cons, Et, Ed.
  cbn [fmap option_fmap option_map]. by rewrite IH.
Qed.

Lemma decrypt_outputs_survivors batch :
  decrypt_outputs indices_api batch
  = match survivors batch with
    | [] => Ok []
    | sv =>
        match indices_api (map fst sv) with
        | IndicesFailed m => Err m
        | IndicesJson (IndicesArray indices) =>
            if negb (Nat.eqb (length indices) (length sv))
            then Err "failed fetching /utxos/indices"
            else Ok (updateIndexes 0 (map found sv) indices)
        | IndicesJson _ => Err "failed fetching /utxos/indices"
        end
    end.
Proof.
  unfold decrypt_outputs. rewrite filter_decryptOne.
  destruct (survivors batch) as [|cu sv] eqn:Es; [done|].
  cbv zeta. rewrite <- Es, request_survivors, !length_map.
  by rewrite Es.
Qed.

Lemma survivors_failing pre c post :
  Js.truthy c = false \/ decryptUtxo c = None ->
  survivors (pre ++ c :: post) = survivors (pre ++ post).
Proof.
  intros Hc. rewrite !survivors_app, survivors_cons.
  destruct Hc as [-> | Hd]; [done|].
  rewrite Hd. by destruct (Js.truthy c).
Qed.

Lemma survivors_elem c u batch :
  c ∈ batch -> Js.truthy c = true -> decryptUtxo c = Some u ->
  (c, u) ∈ survivors batch.
Proof.
  intros Hin Ht Hd. unfold survivors. apply list_elem_of_omap.
  exists c. split; [done|]. by rewrite Ht, Hd.
Qed.

Lemma updateIndexes_settled sv : forall i pre vs,
  length pre = i -> length vs = length sv ->
  updateIndexes i (map found sv) (pre ++ vs) = zip_with settled sv vs.
Proof.
  induction sv as [|[c u] sv IH]; intros i pre vs Hi Hn; [by destruct vs|].
  destruct vs as [|v vs]; [done|]. cbn [map updateIndexes zip_with].
  rewrite <- Hi, list_lookup_middle by done.
  f_equal.
  - unfold setIndex, found, settled, indexAfter. simpl.
    destruct v as [n|]; [|by destruct u].
    destruct (decide (index u <> n)) as [|He]; [done|].
    apply dec_stable in He. subst n. by destruct u.
  - change (pre ++ v :: vs) with (pre ++ [v] ++ vs).
    rewrite app_assoc. apply IH; [rewrite length_app; simpl; lia|].
    simpl in Hn. lia.
Qed.

(** C5 (as amended). [decrypt_outputs] works per ciphertext. When the
    indexer answers the request for the surviving ciphertexts with an
    array of as many elements, the call returns the decrypted notes in the
    order of the batch; the note at position [i] has for index the [i]-th
    element of the answer where that element is a number, and the index it
    was decrypted with where it is not. Every ciphertext of the batch that
    decrypts has its note in the result, whatever the other ciphertexts do;
    and taking a ciphertext that is empty or does not decrypt out of the
    batch changes nothing in what the call returns. *)
Theorem decrypt_outputs_per_item (batch : list string) (vs : list JsValue) :
  indices_api (map fst (survivors batch)) = IndicesJson (IndicesArray vs) ->
  length vs = length (survivors batch) ->
  decrypt_outputs indices_api batch = Ok (zip_with settled (survivors batch) vs) /\
  (forall i c u v,
     survivors batch !! i = Some (c, u) -> vs !! i = Some v ->
     zip_with settled (survivors batch) vs !! i
     = Some (mkRes decrypted
               (Some (mkUtxo (amount u)
                        (match v with VNumber n => n | VOther => index u end)
                        (payload u)))
               (Some c))) /\
  (forall c u, c ∈ batch -> Js.truthy c = true -> decryptUtxo c = Some u ->
     exists v, settled (c, u) v ∈ zip_with settled (survivors batch) vs) /\
  (forall pre c post, batch = pre ++ c :: post ->
     Js.truthy c = false \/ decryptUtxo c = None ->
     decrypt_outputs indices_api (pre ++ post) = decrypt_outputs indices_api batch).
Proof.
  intros Hresp Hlen. split; [|split; [|split]].
  - rewrite decrypt_outputs_survivors.
    destruct (survivors batch) as [|cu sv] eqn:Es; [by destruct vs|].
    cbv zeta. rewrite Hresp, Hlen, Nat.eqb_refl. cbn [negb].
    f_equal. by apply (updateIndexes_settled _ 0 []).
  - intros i c u v Hi Hv. by rewrite lookup_zip_with, Hi, Hv.
  - intros c u Hin Ht Hd.
    apply (survivors_elem c u) in Hin; [|done..].
    apply list_elem_of_lookup in Hin as [i Hi].
    destruct (vs !! i) as [v|] eqn:En.
    + exists v. apply list_elem_of_lookup. exists i.
      by rewrite lookup_zip_with, Hi, En.
    + apply lookup_ge_None in En. apply lookup_lt_Some in Hi. lia.
  - intros pre c post -> Hc.
    by rewrite !decrypt_outputs_survivors, survivors_failing.
Qed.

(** What a malformed answer of the indexer does to a batch with a note in
    it. *)
Lemma decrypt_outputs_malformed batch f :
  survivors batch <> [] ->
  indices_api (map fst (survivors batch)) = IndicesJson f ->
  match f with
  | IndicesArray indices => length indices <> length (survivors batch)
  | _ => True
  end ->
  decrypt_outputs indices_api batch = Err "failed fetching /utxos/indices".
Proof.
  intros Hne Hresp Hf. rewrite decrypt_outputs_survivors.
  destruct (survivors batch) as [|cu sv] eqn:Es; [done|].
  cbv zeta. rewrite Hresp. destruct f as [| |indices]; [done|done|].
  by rewrite (proj2 (Nat.eqb_neq _ _) Hf).
Qed.

End Proofs.

(** A batch of four: the second ciphertext belongs to another wallet, the
    third is empty. *)
Lemma decrypt_outputs_per_item_witness :
  let api := fun _ : list string => IndicesJson (IndicesArray [VNumber 10; VNumber 11]) in
  let batch := ["aa"; "zz"; ""; "cc"] in
  survivors (Pr := Sample.prims) batch = [("aa", mkUtxo 5 0 "aa"); ("cc", mkUtxo 7 0 "cc")] /\
  decrypt_outputs (Pr := Sample.prims) api batch
  = Ok [mkRes decrypted (Some (mkUtxo 5 10 "aa")) (Some "aa");
        mkRes decrypted (Some (mkUtxo 7 11 "cc")) (Some "cc")].
Proof.
  intros api batch. split; [reflexivity|].
  apply (decrypt_outputs_per_item (Pr := Sample.prims) api batch
           [VNumber 10; VNumber 11]); reflexivity.
Defined.

(** The claim as stated fails on an answer of the right length with an
    element that is no number: the note [dd], decrypted with the index 3,
    is returned with the index 3, which is not what the answer holds for
    it; the note [aa] after it takes the number 8. And with an answer that
    has no array of indices, or one of another length, the call returns no
    note at all, although [aa] decrypts. *)
Lemma decrypt_outputs_per_item_counterexample :
  let answer := [VOther; VNumber 8] in
  let api := fun _ : list string => IndicesJson (IndicesArray answer) in
  let batch := ["dd"; "zz"; "aa"] in
  (length answer = length (survivors (Pr := Sample.prims) batch) /\
   decrypt_outputs (Pr := Sample.prims) api batch
   = Ok [mkRes decrypted (Some (mkUtxo 9 3 "dd")) (Some "dd");
         mkRes decrypted (Some (mkUtxo 5 8 "aa")) (Some "aa")] /\
   answer !! 0%nat = Some VOther /\
   answer !! 0%nat <> Some (VNumber 3)) /\
  (decryptUtxo (Primitives := Sample.prims) "aa" = Some (mkUtxo 5 0 "aa") /\
   decrypt_outputs (Pr := Sample.prims) (fun _ => IndicesJson IndicesMissing)
     ["zz"; "aa"] = Err "failed fetching /utxos/indices" /\
   decrypt_outputs (Pr := Sample.prims)
     (fun _ => IndicesJson (IndicesArray [VNumber 1; VNumber 2])) ["zz"; "aa"]
   = Err "failed fetching /utxos/indices").
Proof. repeat split; try reflexivity. discriminate. Qed.

Example decrypt_outputs_samples :
  decrypt_outputs (Pr := Sample.prims) (fun _ => IndicesJson IndicesMissing) ["zz"; ""]
    = Ok [] /\
  decrypt_outputs (Pr := Sample.prims) (fun _ => IndicesJson IndicesMissing) ["zz"; "aa"]
    = Err "failed fetching /utxos/indices" /\
  decrypt_outputs (Pr := Sample.prims)
    (fun _ => IndicesJson (IndicesArray [VOther])) ["aa"]
    = Ok [mkRes decrypted (Some (mkUtxo 5 0 "aa")) (Some "aa")].
Proof. repeat split; reflexivity. Qed.

End Decrypt.

(** ** The synchronisation ([fetchUserUtxos], [getUtxos]) *)

Module Sync.
Import KeyDirectory.

(** [ApiUtxo] *)
Record ApiUtxo : Type := mkApiUtxo {
  commitment : string;
  encrypted_output : string;
  api_index : Z;
  nullifier : option string;
}.

(** The body of an answer of [GET /utxos/range], by the shapes the code
    tells apart: falsy, an array of [ApiUtxo], an object with an
    [encrypted_outputs] array (and [hasMore]; its [total] only feeds the
    progress log), anything else. *)
Inductive RangeData : Type :=
| DataFalsy
| DataArray (items : list ApiUtxo)
| DataObject (encrypted_outputs : list string) (hasMore : bool)
| DataOther.

Inductive HttpResponse : Type :=
| HttpFailed (msg : string)
| HttpNotOk (status : Z)
| HttpJson (data : RangeData).

(** The services the synchronisation talks to: the n-th request of a page
    (with its [start] and [end]), the index resolution, the ledger reader. *)
Record Remote : Type := mkRemote {
  range_api : nat -> Js.jsnum -> Js.jsnum -> HttpResponse;
  indices_api : list string -> Decrypt.IndicesResponse;
  connection : Spent.Connection;
}.

(** What [fetchUserUtxos] returns. *)
Record Fetched : Type := mkFetched {
  encryptedOutputs : list string;
  utxos : list Utxo;
  hasMore : bool;
  len : nat;
}.

(** The state of the loop of [getUtxos]: the storage, the numbers of the
    next ledger call and of the next page request, and the three arrays
    ([valid_utxos] and [valid_strings] are filled together). *)
Record LoopState : Type := mkLoop {
  storage : Storage;
  rpcCalls : nat;
  pages : nat;
  valid : list (Utxo * string);
  history_indexes : list Z;
}.

(** How one turn of the loop ends. *)
Inductive Flow : Type :=
| Next (s : LoopState)
| Done (s : LoopState)
| Throw (msg : string) (s : LoopState).

Section WithPrimitives.
Context {Pr : Primitives}.

(** [data.hasMore]: [undefined], hence falsy, where the body has no such
    field. *)
Definition dataHasMore (data : RangeData) : bool :=
  match data with
  | DataObject _ h => h
  | _ => false
  end.

(** The ciphertexts taken from a page. *)
Definition extractOutputs (data : RangeData) : Result (list string) :=
  match data with
  | DataFalsy => Err "API returned empty data"
  | DataArray items =>
      Ok (map encrypted_output
            (filter (fun u => Js.truthy (encrypted_output u) = true) items))
  | DataObject encrypted_outputs _ => Ok encrypted_outputs
  | DataOther => Err "API returned unexpected data format"
  end.

(** The notes and ciphertexts pushed to [myUtxos] and
    [myEncryptedOutputs]. *)
Definition decryptedOf (batchRes : list Decrypt.DecryptRes) : list (Utxo * string) :=
  omap (fun dres =>
          match Decrypt.status dres, Decrypt.utxo dres with
          | Decrypt.decrypted, Some u =>
              Some (u, default "" (Decrypt.encryptedOutput dres))
          | _, _ => None
          end) batchRes.

(** [JSON.parse(cachedString)] where the cached string is truthy. *)
Definition parseCached (cachedString : option string) : Result (option (list string)) :=
  match cachedString with
  | Some s =>
      if Js.truthy s then
        match JSON_parse s with
        | Some l => Ok (Some l)
        | None => Err "Unexpected token in JSON"
        end
      else Ok None
  | None => Ok None
  end.

Definition fetchUserUtxos (remote : Remote) (response : HttpResponse)
    (publicKey : string) (storageKeyEncryptionKey : option string)
    (st : Storage) : Result Fetched :=
  match response with
  | HttpFailed m => Err m
  | HttpNotOk status => Err ("HTTP error! status: " +:+ Js.toString (Js.JInt status))
  | HttpJson data =>
      encryptedOutputs ← extractOutputs data;
      storageKeySuffix ← storageKeySuffix publicKey storageKeyEncryptionKey;
      let cachedString := Store.getItem (LSK_ENCRYPTED_OUTPUTS +:+ storageKeySuffix) st in
      cached ← parseCached cachedString;
      batchRes ← Decrypt.decrypt_outputs (indices_api remote) encryptedOutputs;
      let mine := decryptedOf batchRes in
      mine ← (if negb (dataHasMore data) then
                match cached with
                | Some cachedEncryptedOutputs =>
                    batchRes ← Decrypt.decrypt_outputs (indices_api remote)
                                 cachedEncryptedOutputs;
                    Ok (mine ++ decryptedOf batchRes)
                | None => Ok mine
                end
              else Ok mine);
      Ok (mkFetched (map snd mine) (map fst mine) (dataHasMore data)
            (length encryptedOutputs))
  end.

(** [offsetStr ? Number(offsetStr) : 0] *)
Definition readOffset (storageKeySuffix : string) (st : Storage) : Js.jsnum :=
  match Store.getItem (LSK_FETCH_OFFSET +:+ storageKeySuffix) st with
  | Some offsetStr => if Js.truthy offsetStr then Js.Number offsetStr else Js.JInt 0
  | None => Js.JInt 0
  end.

(** One turn of the [while (true)] loop; [None] when the spent check does
    not come back within [rpcFuel] attempts. What is thrown between the
    page fetch and the write of the offset leaves the state of the loop as
    it was. *)
Definition loopBody (rpcFuel : nat) (remote : Remote) (publicKey : string)
    (storageKeyEncryptionKey : option string) (storageKeySuffix : string)
    (s : LoopState) : option Flow :=
  let fetch_utxo_offset := readOffset storageKeySuffix (storage s) in
  let fetch_utxo_end := Js.add fetch_utxo_offset (Js.JInt FETCH_UTXOS_GROUP_SIZE) in
  let response := range_api remote (pages s) fetch_utxo_offset fetch_utxo_end in
  match fetchUserUtxos remote response publicKey storageKeyEncryptionKey (storage s) with
  | Err m => Some (Throw m s)
  | Ok fetched =>
      let history := history_indexes s ++ map index (utxos fetched) in
      match Spent.unspentOfPage rpcFuel (connection remote) (rpcCalls s)
              (utxos fetched) (encryptedOutputs fetched) with
      | None => None
      | Some (Err m) => Some (Throw m s)
      | Some (Ok (kept, calls)) =>
          let st := Store.setItem (LSK_FETCH_OFFSET +:+ storageKeySuffix)
                      (Js.toString (Js.add fetch_utxo_offset
                                      (Js.JInt (Z.of_nat (len fetched)))))
                      (storage s) in
          let s' := mkLoop st calls (S (pages s)) (valid s ++ kept) history in
          if negb (hasMore fetched) then Some (Done s') else Some (Next s')
      end
  end.

(** The loop; [None] when it does not end within [fuel] turns. *)
Fixpoint syncLoop (fuel rpcFuel : nat) (remote : Remote) (publicKey : string)
    (storageKeyEncryptionKey : option string) (storageKeySuffix : string)
    (s : LoopState) : option Flow :=
  match fuel with
  | O => None
  | S fuel' =>
      match loopBody rpcFuel remote publicKey storageKeyEncryptionKey
              storageKeySuffix s with
      | Some (Next s') =>
          syncLoop fuel' rpcFuel remote publicKey storageKeyEncryptionKey
            storageKeySuffix s'
      | other => other
      end
  end.

(** The [try] block of the attempt: the migration, then the loop. *)
Definition tryBlock (fuel rpcFuel : nat) (remote : Remote) (now : Z)
    (publicKey : string) (storageKeyEncryptionKey : option string)
    (st : Storage) (rpc page : nat) : option Flow :=
  let '(migrated, st) :=
    Migration.migrateStorageKeys now publicKey storageKeyEncryptionKey st in
  let s := mkLoop st rpc page [] [] in
  match migrated with
  | Err m => Some (Throw m s)
  | Ok _ =>
      match storageKeySuffix publicKey storageKeyEncryptionKey with
      | Err m => Some (Throw m s)
      | Ok storageKeySuffix =>
          syncLoop fuel rpcFuel remote publicKey storageKeyEncryptionKey
            storageKeySuffix s
      end
  end.

(** The recent-activity set read from the storage: [rec.split(',').map(n
    => Number(n))] where [rec?.length] is truthy, the empty array
    otherwise. *)
Definition storedIndexes (historyKey : string) (st : Storage) : list Js.jsnum :=
  match Store.getItem historyKey st with
  | Some rec => if Js.truthy rec then Migration.parseIndexes rec else []
  | None => []
  end.

(** The recent-activity set written after the loop. *)
Definition persistHistory (historyKey : string) (history_indexes : list Z)
    (st : Storage) : Storage :=
  let recIndexes := storedIndexes historyKey st in
  let history_indexes :=
    match recIndexes with
    | [] => map Js.JInt history_indexes
    | _ => map Js.JInt history_indexes ++ recIndexes
    end in
  let top20 := Migration.top20 history_indexes in
  match top20 with
  | [] => st
  | _ => Store.setItem historyKey (Migration.joinIndexes top20) st
  end.

(** What follows the [finally]: the recent-activity set and the ciphertext
    cache are written and the notes returned. *)
Definition finalize (publicKey : string) (storageKeyEncryptionKey : option string)
    (s : LoopState) : Result (list Utxo) * Storage :=
  match storageKeySuffix publicKey storageKeyEncryptionKey with
  | Err m => (Err m, storage s)
  | Ok storageKeySuffix =>
      let historyKey := "tradeHistory" +:+ storageKeySuffix in
      let st := persistHistory historyKey (history_indexes s) (storage s) in
      let valid_strings := Js.uniq (map snd (valid s)) in
      let st := Store.setItem (LSK_ENCRYPTED_OUTPUTS +:+ storageKeySuffix)
                  (JSON_stringify valid_strings) st in
      (Ok (map fst (valid s)), st)
  end.

(** The process: its storage, the numbers of the next ledger call and page
    request, the in-flight handle [getMyUtxosPromise] (the number of the
    attempt it holds) and the number of attempts started so far. *)
Record Process : Type := mkProcess {
  pstorage : Storage;
  prpcCalls : nat;
  ppages : nat;
  getMyUtxosPromise : option nat;
  attempts : nat;
}.

(** What a caller of [getUtxos] gets: a rejection before any attempt is
    looked at, the outstanding attempt, or the outcome of the attempt the
    call started and awaited. *)
Inductive Answer : Type :=
| Rejected (msg : string)
| Attached (attempt : nat)
| Settled (attempt : nat) (result : Result (list Utxo)).

(** The check made before the handle is read: with a session key and an
    outstanding attempt, a ciphertext cache under the hashed key and none
    under the encrypted key make the code drop the handle. *)
Definition precheck (publicKey : string) (storageKeyEncryptionKey : option string)
    (p : Process) : Result Process :=
  match usableKey storageKeyEncryptionKey, getMyUtxosPromise p with
  | Some _, Some _ =>
      hashedKeySuffix ← storageKeySuffix publicKey None;
      encryptedKeySuffix ← storageKeySuffix publicKey storageKeyEncryptionKey;
      if negb (String.eqb hashedKeySuffix encryptedKeySuffix) then
        let hashedKey := LSK_ENCRYPTED_OUTPUTS +:+ hashedKeySuffix in
        let encryptedKey := LSK_ENCRYPTED_OUTPUTS +:+ encryptedKeySuffix in
        let hasHashedData := bool_decide (is_Some (Store.getItem hashedKey (pstorage p))) in
        let hasEncryptedData := bool_decide (is_Some (Store.getItem encryptedKey (pstorage p))) in
        if hasHashedData && negb hasEncryptedData
        then Ok (mkProcess (pstorage p) (prpcCalls p) (ppages p) None (attempts p))
        else Ok p
      else Ok p
  | _, _ => Ok p
  end.

(** [getUtxos], for a caller that awaits the promise it is handed. With no
    handle the call starts an attempt: the handle is set, the [try] block
    runs, the [finally] clause clears the handle, and what follows it runs
    when the block did not throw. *)
Definition getUtxos (fuel rpcFuel : nat) (remote : Remote) (now : Z)
    (publicKey : string) (storageKeyEncryptionKey : option string)
    (p : Process) : option (Answer * Process) :=
  match precheck publicKey storageKeyEncryptionKey p with
  | Err m => Some (Rejected m, p)
  | Ok p =>
      match getMyUtxosPromise p with
      | Some attempt => Some (Attached attempt, p)
      | None =>
          let attempt := attempts p in
          let p := mkProcess (pstorage p) (prpcCalls p) (ppages p)
                     (Some attempt) (S attempt) in
          match tryBlock fuel rpcFuel remote now publicKey storageKeyEncryptionKey
                  (pstorage p) (prpcCalls p) (ppages p) with
          | Some (Throw m s) =>
              let p := mkProcess (storage s) (rpcCalls s) (pages s) None (attempts p) in
              Some (Settled attempt (Err m), p)
          | Some (Done s) =>
              let p := mkProcess (storage s) (rpcCalls s) (pages s) None (attempts p) in
              let '(result, st) := finalize publicKey storageKeyEncryptionKey s in
              Some (Settled attempt result,
                    mkProcess st (prpcCalls p) (ppages p) (getMyUtxosPromise p)
                      (attempts p))
          | Some (Next _) | None => None
          end
      end
  end.

(** ** Properties of the synchronisation *)

Lemma toString_truthy n : Js.truthy (Js.toString n) = true.
Proof.
  destruct n as [|z]; [done|]. unfold Js.toString.
  destruct z as [|p|p]; [done| |done]. simpl.
  destruct (JsFacts.digits_uint (Pos.to_uint p) (DecimalPos.Unsigned.to_uint_nonnil p))
    as [_ (c & s & -> & _)]. done.
Qed.



Lemma loopBody_throw rpcFuel remote pk ek suffix s m :
  fetchUserUtxos remote
    (range_api remote (pages s) (readOffset suffix (storage s))
       (Js.add (readOffset suffix (storage s)) (Js.JInt FETCH_UTXOS_GROUP_SIZE)))
    pk ek (storage s) = Err m ->
  loopBody rpcFuel remote pk ek suffix s = Some (Throw m s).
Proof. intros Hf. unfold loopBody. by rewrite Hf. Qed.

(** C7. A page of which at least one ciphertext was decrypted and whose
    index-resolution response has no [indices] field, or one that is not
    an array, or an array of a length other than the number of ciphertexts
    sent: [decrypt_outputs] throws, the iteration throws the same error
    and so does the loop, and the state at the throw is the state before
    the page, the fetch offset included. *)
Theorem malformed_indices_abort (fuel rpcFuel : nat) (remote : Remote)
    (pk : string) (ek : option string) (suffix suffix' : string) (s : LoopState)
    (data : RangeData) (outs : list string)
    (cached : option (list string)) (f : Decrypt.IndicesField) :
  range_api remote (pages s) (readOffset suffix (storage s))
    (Js.add (readOffset suffix (storage s)) (Js.JInt FETCH_UTXOS_GROUP_SIZE))
    = HttpJson data ->
  extractOutputs data = Ok outs ->
  storageKeySuffix pk ek = Ok suffix' ->
  parseCached (Store.getItem (LSK_ENCRYPTED_OUTPUTS +:+ suffix') (storage s))
    = Ok cached ->
  Decrypt.survivors outs <> [] ->
  indices_api remote (map fst (Decrypt.survivors outs)) = Decrypt.IndicesJson f ->
  match f with
  | Decrypt.IndicesArray indices => length indices <> length (Decrypt.survivors outs)
  | _ => True
  end ->
  Decrypt.decrypt_outputs (indices_api remote) outs
    = Err "failed fetching /utxos/indices" /\
  loopBody rpcFuel remote pk ek suffix s
    = Some (Throw "failed fetching /utxos/indices" s) /\
  syncLoop (S fuel) rpcFuel remote pk ek suffix s
    = Some (Throw "failed fetching /utxos/indices" s).
Proof.
  intros Hr Ho Hs Hc Hne Hi Hf.
  pose proof (Decrypt.decrypt_outputs_malformed _ _ _ Hne Hi Hf) as Hd.
  assert (Hb : loopBody rpcFuel remote pk ek suffix s
               = Some (Throw "failed fetching /utxos/indices" s)).
  { apply loopBody_throw. rewrite Hr. unfold fetchUserUtxos.
    rewrite Ho. cbn [mbind Result_bind]. rewrite Hs. cbn [mbind Result_bind].
    rewrite Hc. cbn [mbind Result_bind]. by rewrite Hd. }
  split; [done|]. split; [done|]. cbn [syncLoop]. by rewrite Hb.
Qed.


Lemma persistHistory_ints historyKey h st prev :
  storedIndexes historyKey st = map Js.JInt prev ->
  persistHistory historyKey h st
  = match JsFacts.top20Z (h ++ prev) with
    | [] => st
    | kept => Store.setItem historyKey (Migration.joinIndexes (map Js.JInt kept)) st
    end.
Proof.
  intros Hp. unfold persistHistory. rewrite Hp.
  assert (match map Js.JInt prev with
          | [] => map Js.JInt h
          | _ => map Js.JInt h ++ map Js.JInt prev
          end = map Js.JInt (h ++ prev)) as ->.
  { rewrite map_app. destruct prev; [by rewrite app_nil_r|done]. }
  rewrite JsFacts.top20_map. by destruct (JsFacts.top20Z (h ++ prev)).
Qed.

Lemma storedIndexes_written historyKey kept st :
  kept <> [] ->
  storedIndexes historyKey
    (Store.setItem historyKey (Migration.joinIndexes (map Js.JInt kept)) st)
  = map Js.JInt kept.
Proof.
  intros Hne. unfold storedIndexes. rewrite Migration.getItem_setItem_eq.
  assert (Js.truthy (Migration.joinIndexes (map Js.JInt kept)) = true) as ->.
  { destruct kept as [|k kept]; [done|]. unfold Migration.joinIndexes, Js.join.
    pose proof (toString_truthy (Js.JInt k)) as Ht.
    cbn [map String.concat]. destruct (Js.toString (Js.JInt k)); [done|].
    by destruct (map Js.toString (map Js.JInt kept)). }
  by apply JsFacts.parse_join.
Qed.

Lemma getUtxos_success fuel rpcFuel remote now pk ek p id r p' :
  getUtxos fuel rpcFuel remote now pk ek p = Some (Settled id (Ok r), p') ->
  exists s,
    tryBlock fuel rpcFuel remote now pk ek (pstorage p) (prpcCalls p) (ppages p)
      = Some (Done s) /\
    finalize pk ek s = (Ok r, pstorage p').
Proof.
  unfold getUtxos. destruct (precheck pk ek p) as [p1|m] eqn:Hp; [|done].
  assert (pstorage p1 = pstorage p /\ prpcCalls p1 = prpcCalls p /\
          ppages p1 = ppages p) as (E1 & E2 & E3).
  { unfold precheck in Hp.
    destruct (usableKey ek); [|by inversion Hp].
    destruct (getMyUtxosPromise p); [|by inversion Hp].
    destruct (storageKeySuffix pk None); [|done]. cbn [mbind Result_bind] in Hp.
    destruct (storageKeySuffix pk ek); [|done]. cbn [mbind Result_bind] in Hp.
    destruct (negb _); [|by inversion Hp].
    destruct (_ && _); by inversion Hp. }
  destruct (getMyUtxosPromise p1); [done|]. cbn [pstorage prpcCalls ppages].
  rewrite E1, E2, E3.
  destruct (tryBlock _ _ _ _ _ _ _ _ _) as [[s|s|m s]|]; try done.
  destruct (finalize pk ek s) as [res st] eqn:Ef.
  intros H. inversion H; subst. by exists s.
Qed.


Lemma getUtxos_fresh fuel rpcFuel remote now pk ek p a p' :
  getMyUtxosPromise p = None ->
  getUtxos fuel rpcFuel remote now pk ek p = Some (a, p') ->
  exists result, a = Settled (attempts p) result /\
                 getMyUtxosPromise p' = None /\ attempts p' = S (attempts p).
Proof.
  intros Hh. unfold getUtxos.
  assert (precheck pk ek p = Ok p) as ->.
  { unfold precheck. rewrite Hh. by destruct (usableKey ek). }
  rewrite Hh. cbn [pstorage prpcCalls ppages attempts getMyUtxosPromise].
  destruct (tryBlock _ _ _ _ _ _ _ _ _) as [[s|s|m s]|]; try done.
  - destruct (finalize pk ek s) as [res st]. intros H. inversion H; subst.
    by exists res.
  - intros H. inversion H; subst. by exists (Err m).
Qed.

Lemma getUtxos_settled fuel rpcFuel remote now pk ek p id result p' :
  getUtxos fuel rpcFuel remote now pk ek p = Some (Settled id result, p') ->
  getMyUtxosPromise p' = None /\ (id < attempts p')%nat.
Proof.
  unfold getUtxos. destruct (precheck pk ek p) as [p1|m]; [|done].
  destruct (getMyUtxosPromise p1); [done|].
  cbn [pstorage prpcCalls ppages attempts getMyUtxosPromise].
  destruct (tryBlock _ _ _ _ _ _ _ _ _) as [[s|s|m s]|]; try done.
  - destruct (finalize pk ek s) as [res st]. intros H. inversion H; subst.
    simpl. split; [done|lia].
  - intros H. inversion H; subst. simpl. split; [done|lia].
Qed.

(** C8. A call to [getUtxos] whose attempt has ended, with a result or
    with an error: the handle [getMyUtxosPromise] is empty afterwards, and
    the next call, whatever its arguments, is not attached to the ended
    attempt (nor rejected) but is answered by an attempt of its own, the
    one numbered [attempts p'], which also leaves the handle empty. *)
Theorem getUtxos_clears_handle (fuel rpcFuel : nat) (remote : Remote) (now : Z)
    (pk : string) (ek : option string) (p p' : Process) (id : nat)
    (result : Result (list Utxo)) :
  getUtxos fuel rpcFuel remote now pk ek p = Some (Settled id result, p') ->
  getMyUtxosPromise p' = None /\
  forall fuel' rpcFuel' remote' now' pk' ek' a p'',
    getUtxos fuel' rpcFuel' remote' now' pk' ek' p' = Some (a, p'') ->
    exists result', a = Settled (attempts p') result' /\
                    (id < attempts p')%nat /\
                    getMyUtxosPromise p'' = None.
Proof.
  intros Hg. destruct (getUtxos_settled _ _ _ _ _ _ _ _ _ _ Hg) as [Hh Hid].
  split; [done|]. intros fuel' rpcFuel' remote' now' pk' ek' a p'' Hg'.
  destruct (getUtxos_fresh _ _ _ _ _ _ _ _ _ Hh Hg') as (res & -> & Hh' & _).
  by exists res.
Qed.

End WithPrimitives.

(** *** A sample indexer and validator *)

Definition sampleIndex (c : string) : Decrypt.JsValue :=
  if String.eqb c "aa" then Decrypt.VNumber 100 else
  if String.eqb c "bb" then Decrypt.VNumber 101 else
  if String.eqb c "cc" then Decrypt.VNumber 102 else
  if String.eqb c "dd" then Decrypt.VNumber 103 else Decrypt.VOther.

Definition sampleConnection : Spent.Connection :=
  fun _ => Spent.RpcOk (fun pda =>
    if String.eqb pda "nullifier0/dd#103" then Some "account" else None).

Definition sampleRemote : Remote := {|
  range_api := fun _ start _ =>
    match start with
    | Js.JInt 0 => HttpJson (DataObject ["aa"; "zz"; "bb"] true)
    | Js.JInt 3 => HttpJson (DataObject ["cc"; "dd"] false)
    | _ => HttpFailed "network"
    end;
  indices_api := fun req =>
    Decrypt.IndicesJson (Decrypt.IndicesArray (map sampleIndex req));
  connection := sampleConnection
|}.


Definition malformedRemote : Remote := {|
  range_api := fun _ _ _ => HttpJson (DataObject ["aa"; "zz"] false);
  indices_api := fun req => Decrypt.IndicesJson (Decrypt.IndicesArray []);
  connection := sampleConnection
|}.

Definition sampleSuffix : string :=
  match storageKeySuffix (Pr := Sample.prims) Sample.wallet None with
  | Ok suffix => suffix
  | Err _ => ""
  end.

Definition emptyStorage : Storage := mkStorage ∅ None.
Definition emptyLoop : LoopState := mkLoop emptyStorage 0 0 [] [].
Definition emptyProcess : Process := mkProcess emptyStorage 0 0 None 0.

Definition historicProcess : Process :=
  mkProcess
    (Store.setItem ("tradeHistory" +:+ sampleSuffix)
       "21,20,19,18,17,16,15,14,13,12,11,10,9,8,7,6,5,4,3,2,1" emptyStorage)
    0 0 None 0.

Example getUtxos_sample :
  exists p',
    getUtxos (Pr := Sample.prims) 5 3 sampleRemote 1000 Sample.wallet None emptyProcess
    = Some (Settled 0 (Ok [mkUtxo 5 100 "aa"; mkUtxo 7 102 "cc"]), p') /\
    Store.getItem (@LSK_FETCH_OFFSET Sample.prims +:+ sampleSuffix) (pstorage p') = Some "5" /\
    Store.getItem ("tradeHistory" +:+ sampleSuffix) (pstorage p')
    = Some "103,102,101,100" /\
    getMyUtxosPromise p' = None.
Proof. eexists. split; [vm_compute; reflexivity|]. by vm_compute. Qed.




Lemma malformed_indices_abort_witness :
  Decrypt.decrypt_outputs (Pr := Sample.prims) (indices_api malformedRemote) ["aa"; "zz"]
  = Err "failed fetching /utxos/indices" /\
  loopBody (Pr := Sample.prims) 3 malformedRemote Sample.wallet None sampleSuffix emptyLoop
  = Some (Throw "failed fetching /utxos/indices" emptyLoop) /\
  syncLoop (Pr := Sample.prims) 5 3 malformedRemote Sample.wallet None sampleSuffix emptyLoop
  = Some (Throw "failed fetching /utxos/indices" emptyLoop).
Proof.
  apply (malformed_indices_abort (Pr := Sample.prims) 4 3 malformedRemote
           Sample.wallet None sampleSuffix sampleSuffix emptyLoop
           (DataObject ["aa"; "zz"] false) ["aa"; "zz"] None (Decrypt.IndicesArray [])).
  - reflexivity.
  - reflexivity.
  - by vm_compute.
  - by vm_compute.
  - by vm_compute.
  - reflexivity.
  - by vm_compute.
Defined.



Definition sampleAfter : Process :=
  match getUtxos (Pr := Sample.prims) 5 3 sampleRemote 1000 Sample.wallet None
          emptyProcess with
  | Some (_, p') => p'
  | None => emptyProcess
  end.

Definition sampleAfter2 : Process :=
  match getUtxos (Pr := Sample.prims) 5 3 sampleRemote 2000 Sample.wallet None
          sampleAfter with
  | Some (_, p'') => p''
  | None => sampleAfter
  end.

Lemma getUtxos_clears_handle_witness :
  getUtxos (Pr := Sample.prims) 5 3 sampleRemote 1000 Sample.wallet None emptyProcess
  = Some (Settled 0 (Ok [mkUtxo 5 100 "aa"; mkUtxo 7 102 "cc"]), sampleAfter) /\
  getMyUtxosPromise sampleAfter = None /\
  getUtxos (Pr := Sample.prims) 5 3 sampleRemote 2000 Sample.wallet None sampleAfter
  = Some (Settled 1 (Err "network"), sampleAfter2) /\
  getMyUtxosPromise sampleAfter2 = None.
Proof.
  assert (Hrun : getUtxos (Pr := Sample.prims) 5 3 sampleRemote 1000 Sample.wallet
                   None emptyProcess
                 = Some (Settled 0 (Ok [mkUtxo 5 100 "aa"; mkUtxo 7 102 "cc"]),
                         sampleAfter))
    by (vm_compute; reflexivity).
  assert (Hrun2 : getUtxos (Pr := Sample.prims) 5 3 sampleRemote 2000 Sample.wallet
                    None sampleAfter
                  = Some (Settled 1 (Err "network"), sampleAfter2))
    by (vm_compute; reflexivity).
  destruct (getUtxos_clears_handle (Pr := Sample.prims) _ _ _ _ _ _ _ _ _ _ Hrun)
    as [Hh Hnext].
  destruct (Hnext _ _ _ _ _ _ _ _ Hrun2) as (result' & _ & _ & Hh2).
  split; [exact Hrun|]. split; [exact Hh|]. split; [exact Hrun2|exact Hh2].
Defined.

End Sync.

(** ** Further properties of the migration *)

Module MigrationFacts.
Import KeyDirectory Migration.

Section Facts.
Context {Pr : Primitives}.

Lemma all_kinds k : k ∈ keysToMigrate.
Proof. destruct k; set_solver. Qed.

Lemma keyList_of_migrationKeys pk ek newS :
  storageKeySuffix pk ek = Ok newS ->
  migrationKeys pk ek
  = keyList (needsMigration ek (contractPrefix +:+ hashedName pk) newS)
      (localstorageKeyOld pk) (contractPrefix +:+ hashedName pk) newS.
Proof. intros Hs. unfold migrationKeys. by rewrite suffix_hashed, Hs. Qed.

Lemma keyList_new needs oldS hashedS newS k :
  prefix k +:+ newS ∈ keyList needs oldS hashedS newS.
Proof. unfold keyList. destruct k; set_solver. Qed.

Lemma keyList_old needs oldS hashedS newS k :
  prefix k +:+ oldS ∈ keyList needs oldS hashedS newS.
Proof. unfold keyList. destruct k; set_solver. Qed.

Lemma keyList_hashed oldS hashedS newS k :
  prefix k +:+ hashedS ∈ keyList true oldS hashedS newS.
Proof. unfold keyList. destruct k; set_solver. Qed.

Lemma keyList_markers needs oldS hashedS newS :
  marker ∈ keyList needs oldS hashedS newS /\
  markerDirect ∈ keyList needs oldS hashedS newS.
Proof. unfold keyList. set_solver. Qed.

(** The keys collected for deletion are source keys, hence migration keys. *)
Lemma del_in_keyList rd wr needs oldS hashedS newS st x :
  x ∈ snd (foldl (migrateKind rd wr needs oldS hashedS newS) (st, []) keysToMigrate) ->
  x ∈ keyList needs oldS hashedS newS.
Proof.
  intros Hx. apply run_del_sources in Hx as [Hx|(k & _ & [->|[-> ->]])].
  - set_solver.
  - apply keyList_old.
  - apply keyList_hashed.
Qed.

(** X1. The second revision of [migrateStorageKeys] is idempotent where the
    adapter is the only storage: a run on what a run left returns without
    an error and changes no entry. *)
Theorem migrateStorageKeys2_idempotent (pk : string) (ek : option string)
    (newS : string) (st : Storage) :
  chromeLocal st = None ->
  storageKeySuffix pk ek = Ok newS ->
  NoDup (migrationKeys pk ek) ->
  let once := migrateStorageKeys2 pk ek st in
  fst once = Ok tt /\
  migrateStorageKeys2 pk ek (snd once) = (Ok tt, snd once).
Proof.
  intros Hc Hs Hnd once.
  rewrite (keyList_of_migrationKeys _ _ _ Hs) in Hnd.
  destruct (migrate2_sources_gone pk ek newS st Hc Hs Hnd) as (Hok & Hc1 & Ho & Hh).
  split; [exact Hok|].
  by apply (migrate2_no_sources pk ek newS).
Qed.

(** X2. A migration touches the keys of its wallet only: an entry whose key
    is none of the marker keys and none of the wallet's keys under the
    legacy, the hashed and the current suffix reads after the run as it did
    before, in both revisions. *)
Theorem migration_frame (now : Z) (pk : string) (ek : option string)
    (newS : string) (st : Storage) (x : string) :
  storageKeySuffix pk ek = Ok newS ->
  x ∉ migrationKeys pk ek ->
  Store.readThrough x (snd (migrateStorageKeys now pk ek st)) = Store.readThrough x st /\
  Store.getItem x (snd (migrateStorageKeys2 pk ek st)) = Store.getItem x st.
Proof.
  intros Hs Hx. rewrite (keyList_of_migrationKeys _ _ _ Hs) in Hx.
  set (hashedS := contractPrefix +:+ hashedName pk) in *.
  set (needs := needsMigration ek hashedS newS) in *.
  assert (Hnew : forall k, k ∈ keysToMigrate -> x <> prefix k +:+ newS).
  { intros k _ ->. apply Hx, keyList_new. }
  split.
  - unfold migrateStorageKeys, migrateAll. rewrite suffix_hashed, Hs.
    fold hashedS. fold needs. cbn [fst snd].
    rewrite readThrough_deleteOldKeys
      by (intros Hin; by apply del_in_keyList in Hin).
    rewrite (run_other Store.readThrough Store.writeBoth _ _ _
               readThrough_writeBoth_ne) by done.
    cbn [fst]. apply readThrough_markers.
    + intros ->. apply Hx, keyList_markers.
    + intros ->. apply Hx, keyList_markers.
  - unfold migrateStorageKeys2, migrateAll. rewrite suffix_hashed, Hs.
    fold hashedS. fold needs. cbn [fst snd].
    rewrite getItem_deleteOldKeys
      by (intros Hin; by apply del_in_keyList in Hin).
    by rewrite (run_other Store.getItem Store.setItem _ _ _ getItem_setItem_ne).
Qed.

(** *** What a run removes and what it carries over *)

Section Carry.
Variable rd : string -> Storage -> option string.
Variable wr : string -> string -> Storage -> Storage.
Variables (needs : bool) (oldS hashedS newS : string).
Hypothesis wr_hasChrome : forall k v st, Store.hasChrome (wr k v st) = Store.hasChrome st.

#[local] Abbreviation step := (migrateKind rd wr needs oldS hashedS newS).

Lemma migrateFrom_hasChrome kind src new st :
  Store.hasChrome (fst (migrateFrom rd wr kind src new st)) = Store.hasChrome st.
Proof using wr_hasChrome.
  unfold migrateFrom. destruct (rd src st); [|done].
  destruct (rd new st); cbn [fst]; [|done].
  by destruct (mergeValues kind _ _).
Qed.

Lemma run_hasChrome ks acc :
  Store.hasChrome (fst (foldl step acc ks)) = Store.hasChrome (fst acc).
Proof using wr_hasChrome.
  revert acc. induction ks as [|k ks IH]; intros acc; [done|].
  cbn [foldl]. rewrite IH. unfold migrateKind.
  destruct needs; cbn [fst]; by rewrite !migrateFrom_hasChrome.
Qed.

(** After the deletion no legacy key is left where the deletion went. *)
Lemma deleteOldKeys_old st k :
  let r := foldl step (st, []) keysToMigrate in
  let st' := deleteOldKeys (snd r) (fst r) in
  (Store.hasChrome st = false -> Store.getItem (prefix k +:+ oldS) st' = None) /\
  (Store.hasChrome st = true -> Store.chromeGet (prefix k +:+ oldS) st' = None).
Proof using wr_hasChrome.
  intros r st'.
  assert (Hin : prefix k +:+ oldS ∈ snd r) by apply run_del_old, all_kinds.
  assert (Hch : Store.hasChrome (fst r) = Store.hasChrome st)
    by (unfold r; by rewrite run_hasChrome).
  unfold st', deleteOldKeys. destruct (snd r) as [|d del] eqn:Ed; [set_solver|].
  rewrite Hch. split; intros ->.
  - by rewrite getItem_removeItems, decide_True.
  - unfold Store.chromeGet, Store.chromeRemove. cbn [chromeLocal].
    destruct (chromeLocal (fst r)) as [c|]; [|done]. cbn [fmap option_fmap option_map].
    by rewrite lookup_foldr_delete, decide_True.
Qed.

Hypothesis rd_wr_eq : forall k v st, rd k (wr k v st) = Some v.
Hypothesis rd_wr_ne : forall k k' v st, k <> k' -> rd k' (wr k v st) = rd k' st.
Hypothesis Hnd : NoDup (keyList needs oldS hashedS newS).



End Carry.

Lemma hasChrome_setItem k v st :
  Store.hasChrome (Store.setItem k v st) = Store.hasChrome st.
Proof. done. Qed.

Lemma hasChrome_writeBoth k v st :
  Store.hasChrome (Store.writeBoth k v st) = Store.hasChrome st.
Proof. unfold Store.hasChrome, Store.writeBoth. simpl. by destruct (chromeLocal st). Qed.

Lemma hasChrome_chromeSet k v st :
  Store.hasChrome (Store.chromeSet k v st) = Store.hasChrome st.
Proof. unfold Store.hasChrome. simpl. by destruct (chromeLocal st). Qed.

(** X3. After a run of [migrateStorageKeys], of either revision, no entry
    is left under a legacy key (the key that spells the wallet address out)
    in the store the deletion goes to: the adapter where there is no
    [chrome.storage.local], [chrome.storage.local] where there is one. *)
Theorem legacy_keys_removed (now : Z) (pk : string) (ek : option string)
    (newS : string) (st : Storage) (k : Kind) :
  storageKeySuffix pk ek = Ok newS ->
  let oldKey := prefix k +:+ localstorageKeyOld pk in
  let st1 := snd (migrateStorageKeys now pk ek st) in
  let st2 := snd (migrateStorageKeys2 pk ek st) in
  (Store.hasChrome st = false ->
     Store.getItem oldKey st1 = None /\ Store.getItem oldKey st2 = None) /\
  (Store.hasChrome st = true ->
     Store.chromeGet oldKey st1 = None /\ Store.chromeGet oldKey st2 = None).
Proof.
  intros Hs oldKey st1 st2.
  set (hashedS := contractPrefix +:+ hashedName pk).
  set (needs := needsMigration ek hashedS newS).
  set (st0 := Store.chromeSet markerDirect (testMarker now pk)
                (Store.setItem marker (testMarker now pk) st)).
  assert (H0 : Store.hasChrome st0 = Store.hasChrome st)
    by (unfold st0; by rewrite hasChrome_chromeSet, hasChrome_setItem).
  destruct (deleteOldKeys_old Store.readThrough Store.writeBoth needs
              (localstorageKeyOld pk) hashedS newS hasChrome_writeBoth st0 k)
    as [A1 B1].
  destruct (deleteOldKeys_old Store.getItem Store.setItem needs
              (localstorageKeyOld pk) hashedS newS hasChrome_setItem st k)
    as [A2 B2].
  assert (E1 : st1 = deleteOldKeys
                 (snd (foldl (migrateKind Store.readThrough Store.writeBoth needs
                                (localstorageKeyOld pk) hashedS newS) (st0, [])
                         keysToMigrate))
                 (fst (foldl (migrateKind Store.readThrough Store.writeBoth needs
                                (localstorageKeyOld pk) hashedS newS) (st0, [])
                         keysToMigrate))).
  { unfold st1, migrateStorageKeys, migrateAll. by rewrite suffix_hashed, Hs. }
  assert (E2 : st2 = deleteOldKeys
                 (snd (foldl (migrateKind Store.getItem Store.setItem needs
                                (localstorageKeyOld pk) hashedS newS) (st, [])
                         keysToMigrate))
                 (fst (foldl (migrateKind Store.getItem Store.setItem needs
                                (localstorageKeyOld pk) hashedS newS) (st, [])
                         keysToMigrate))).
  { unfold st2, migrateStorageKeys2, migrateAll. by rewrite suffix_hashed, Hs. }
  rewrite E1, E2. split; intros Hc.
  - split; [apply A1; by rewrite H0|by apply A2].
  - split; [apply B1; by rewrite H0|by apply B2].
Qed.


End Facts.

(** A storage with entries under the legacy keys of the sample wallet, one
    under its hashed key and one of another wallet. *)
Definition legacyStorage : Storage :=
  mkStorage
    (<["fetch_offset9fhQBb4Nd1mBQtrMJVYVfKf2PJy9NZUZdTAsp7D4xWLs4gDB4T" := "50"]>
     (<["tradeHistory9fhQBbsha256:4Nd1mBQtrMJVYVfKf2PJy9NZUZdTAsp7D4xWLs4gDB4T" := "1,2"]>
      (<["encrypted_outputs9fhQBb4Nd1mBQtrMJVYVfKf2PJy9NZUZdTAsp7D4xWLs4gDB4T" := "[]"]>
       (<["fetch_offset9fhQBbsha256:" +:+ Sample.otherWallet := "7"]> ∅))))
    None.

(** The same entries held by [chrome.storage.local], the adapter empty. *)
Definition legacyChrome : Storage :=
  mkStorage ∅ (Some (cache legacyStorage)).

Lemma sample_keys_distinct :
  NoDup (migrationKeys (Pr := Sample.prims) Sample.wallet (Some Sample.sessionKey)).
Proof. apply (bool_decide_unpack _). vm_compute. exact I. Qed.

Lemma migrateStorageKeys2_idempotent_witness :
  let once := migrateStorageKeys2 (Pr := Sample.prims) Sample.wallet
                (Some Sample.sessionKey) legacyStorage in
  fst once = Ok tt /\
  migrateStorageKeys2 (Pr := Sample.prims) Sample.wallet (Some Sample.sessionKey)
    (snd once) = (Ok tt, snd once).
Proof.
  apply (migrateStorageKeys2_idempotent (Pr := Sample.prims) Sample.wallet
           (Some Sample.sessionKey) _ legacyStorage eq_refl eq_refl
           sample_keys_distinct).
Defined.

Lemma migration_frame_witness :
  let x := "fetch_offset9fhQBbsha256:" +:+ Sample.otherWallet in
  Store.getItem x legacyStorage = Some "7" /\
  Store.readThrough x
    (snd (migrateStorageKeys (Pr := Sample.prims) 1000 Sample.wallet
            (Some Sample.sessionKey) legacyStorage)) = Some "7" /\
  Store.getItem x
    (snd (migrateStorageKeys2 (Pr := Sample.prims) Sample.wallet
            (Some Sample.sessionKey) legacyStorage)) = Some "7".
Proof.
  intros x. split; [reflexivity|].
  destruct (migration_frame (Pr := Sample.prims) 1000 Sample.wallet
              (Some Sample.sessionKey) _ legacyStorage x eq_refl) as [H1 H2].
  - apply (bool_decide_unpack _). vm_compute. exact I.
  - split; [rewrite H1|rewrite H2]; reflexivity.
Defined.

Lemma legacy_keys_removed_witness :
  let oldKey := "fetch_offset9fhQBb4Nd1mBQtrMJVYVfKf2PJy9NZUZdTAsp7D4xWLs4gDB4T" in
  Store.getItem oldKey legacyStorage = Some "50" /\
  Store.getItem oldKey
    (snd (migrateStorageKeys (Pr := Sample.prims) 1000 Sample.wallet
            (Some Sample.sessionKey) legacyStorage)) = None /\
  Store.chromeGet oldKey legacyChrome = Some "50" /\
  Store.chromeGet oldKey
    (snd (migrateStorageKeys (Pr := Sample.prims) 1000 Sample.wallet
            (Some Sample.sessionKey) legacyChrome)) = None.
Proof.
  intros oldKey. split; [reflexivity|].
  destruct (legacy_keys_removed (Pr := Sample.prims) 1000 Sample.wallet
              (Some Sample.sessionKey) _ legacyStorage FetchOffset eq_refl)
    as [H1 _].
  destruct (legacy_keys_removed (Pr := Sample.prims) 1000 Sample.wallet
              (Some Sample.sessionKey) _ legacyChrome FetchOffset eq_refl)
    as [_ H2].
  split; [exact (proj1 (H1 eq_refl))|]. split; [reflexivity|].
  exact (proj1 (H2 eq_refl)).
Defined.


End MigrationFacts.

(** ** Running the migration twice *)

Module MigrationTwice.
Import KeyDirectory Migration.

Section WithPrimitives.
Context {Pr : Primitives}.

(** The keys a migration reads from and deletes: the legacy keys of the
    wallet and, when the hashed leg runs, its hashed keys. *)
Definition sourceKeys (publicKey : string) (encryptionKey : option string)
  : list string :=
  match storageKeySuffix publicKey None,
        storageKeySuffix publicKey encryptionKey with
  | Ok hashedKeySuffix, Ok newKeySuffix =>
      map (fun k => prefix k +:+ localstorageKeyOld publicKey) keysToMigrate
      ++ (if needsMigration encryptionKey hashedKeySuffix newKeySuffix
          then map (fun k => prefix k +:+ hashedKeySuffix) keysToMigrate
          else [])
  | _, _ => []
  end.

(** The entries to migrate are where the deletion goes: with
    [chrome.storage.local] present the deletion bypasses the adapter, so
    the adapter itself holds none of them. *)
Definition sourcesDeletable (publicKey : string) (encryptionKey : option string)
    (st : Storage) : Prop :=
  Store.hasChrome st = true ->
  forall x, x ∈ sourceKeys publicKey encryptionKey -> Store.getItem x st = None.

End WithPrimitives.

(** *** What a reader other than the one of the migration sees *)

Section Observe.
Context {Pr : Primitives}.
Variable rd ob : string -> Storage -> option string.
Variable wr : string -> string -> Storage -> Storage.
Variables (needs : bool) (oldS hashedS newS : string).
Hypothesis ob_wr_ne : forall k k' v st, k <> k' -> ob k' (wr k v st) = ob k' st.

Lemma migrateFrom_observe kind src new x st :
  x <> new -> ob x (fst (migrateFrom rd wr kind src new st)) = ob x st.
Proof using ob_wr_ne.
  intros Hx. unfold migrateFrom.
  destruct (rd src st); simpl; [|done].
  destruct (rd new st); simpl.
  - destruct (mergeValues kind _ _); [|done]. by apply ob_wr_ne.
  - by apply ob_wr_ne.
Qed.

Lemma run_observe x ks acc :
  (forall k, k ∈ ks -> x <> prefix k +:+ newS) ->
  ob x (fst (foldl (migrateKind rd wr needs oldS hashedS newS) acc ks))
  = ob x (fst acc).
Proof using ob_wr_ne.
  revert acc. induction ks as [|k ks IH]; intros acc Hx; [done|].
  cbn [foldl]. rewrite IH by (intros; apply Hx; by right).
  assert (x <> prefix k +:+ newS) by (apply Hx; by left).
  unfold migrateKind. destruct needs; cbn [fst]; by rewrite !migrateFrom_observe.
Qed.

End Observe.

Lemma getItem_writeBoth_ne k k' v st :
  k <> k' -> Store.getItem k' (Store.writeBoth k v st) = Store.getItem k' st.
Proof.
  intros Hne. unfold Store.getItem, Store.writeBoth, Store.chromeSet, Store.setItem.
  cbn [cache]. by apply lookup_insert_ne.
Qed.

Lemma chromeGet_chromeRemove x del st :
  Store.chromeGet x (Store.chromeRemove del st)
  = if decide (x ∈ del) then None else Store.chromeGet x st.
Proof.
  unfold Store.chromeGet, Store.chromeRemove. cbn [chromeLocal].
  destruct (chromeLocal st) as [c|]; cbn [fmap option_fmap option_map].
  - rewrite lookup_foldr_delete. by destruct (decide (x ∈ del)).
  - by destruct (decide (x ∈ del)).
Qed.

Lemma foldr_delete_absent (del : list string) (c : gmap string string) :
  (forall x, x ∈ del -> c !! x = None) -> foldr delete c del = c.
Proof.
  induction del as [|d del IH]; intros H; [done|].
  cbn [foldr]. rewrite IH by (intros; apply H; by right).
  apply delete_id, H. by left.
Qed.

Lemma chromeRemove_absent del st :
  (forall x c, x ∈ del -> chromeLocal st = Some c -> c !! x = None) ->
  Store.chromeRemove del st = st.
Proof.
  intros H. destruct st as [a [c|]]; unfold Store.chromeRemove; cbn; [|done].
  f_equal. f_equal. apply foldr_delete_absent. intros x Hx. by apply (H x c).
Qed.

Section Twice.
Context {Pr : Primitives}.

Lemma sourceKeys_of pk ek newS :
  storageKeySuffix pk ek = Ok newS ->
  let hashedS := contractPrefix +:+ hashedName pk in
  sourceKeys pk ek
  = map (fun k => prefix k +:+ localstorageKeyOld pk) keysToMigrate
    ++ (if needsMigration ek hashedS newS
        then map (fun k => prefix k +:+ hashedS) keysToMigrate else []).
Proof. intros Hs. unfold sourceKeys. by rewrite suffix_hashed, Hs. Qed.

(** With [chrome.storage.local] present and no entry to migrate in the
    adapter, a run leaves nothing to migrate and a second run writes the
    markers only. *)
Lemma second_run_chrome t1 t2 pk ek newS st :
  Store.hasChrome st = true ->
  storageKeySuffix pk ek = Ok newS ->
  (forall x, x ∈ sourceKeys pk ek -> Store.getItem x st = None) ->
  NoDup (migrationKeys pk ek) ->
  let r1 := migrateStorageKeys t1 pk ek st in
  let r2 := migrateStorageKeys t2 pk ek (snd r1) in
  fst r1 = Ok tt /\ fst r2 = Ok tt /\
  snd r2 = Store.chromeSet markerDirect (testMarker t2 pk)
             (Store.setItem marker (testMarker t2 pk) (snd r1)).
Proof.
  intros Hch Hs Hsrc Hnd r1 r2.
  rewrite (MigrationFacts.keyList_of_migrationKeys _ _ _ Hs) in Hnd.
  rewrite (sourceKeys_of _ _ _ Hs) in Hsrc. cbv zeta in Hsrc.
  set (hashedS := contractPrefix +:+ hashedName pk) in *.
  set (needs := needsMigration ek hashedS newS) in *.
  set (oldS := localstorageKeyOld pk) in *.
  set (F := migrateKind Store.readThrough Store.writeBoth needs oldS hashedS newS).
  set (st0 := Store.chromeSet markerDirect (testMarker t1 pk)
                (Store.setItem marker (testMarker t1 pk) st)).
  set (r := foldl F (st0, []) keysToMigrate).
  assert (E1 : r1 = (Ok tt, deleteOldKeys (snd r) (fst r))).
  { unfold r1, migrateStorageKeys, migrateAll. by rewrite suffix_hashed, Hs. }
  assert (Hold : forall k, Store.getItem (prefix k +:+ oldS) st = None).
  { intros k. apply Hsrc. apply elem_of_app. left.
    apply list_elem_of_fmap. exists k. split; [done|apply MigrationFacts.all_kinds]. }
  assert (Hhashed : needs = true -> forall k,
            Store.getItem (prefix k +:+ hashedS) st = None).
  { intros En k. apply Hsrc. apply elem_of_app. right. rewrite En.
    apply list_elem_of_fmap. exists k. split; [done|apply MigrationFacts.all_kinds]. }
  (* the adapter holds no source entry after the loop *)
  assert (Hget : forall x, (forall k, x <> prefix k +:+ newS) -> x <> marker ->
            Store.getItem x (fst r) = Store.getItem x st).
  { intros x Hx Hm. unfold r, F.
    rewrite (run_observe Store.readThrough Store.getItem Store.writeBoth
               needs oldS hashedS newS getItem_writeBoth_ne) by (intros; apply Hx).
    cbn [fst]. unfold st0, Store.chromeSet, Store.getItem, Store.setItem. cbn [cache].
    by rewrite lookup_insert_ne. }
  assert (Hrch : Store.hasChrome (fst r) = true).
  { unfold r, F.
    rewrite (MigrationFacts.run_hasChrome Store.readThrough Store.writeBoth needs
               oldS hashedS newS MigrationFacts.hasChrome_writeBoth).
    cbn [fst]. unfold st0.
    by rewrite MigrationFacts.hasChrome_chromeSet, MigrationFacts.hasChrome_setItem. }
  assert (Hdel_old : forall k, prefix k +:+ oldS ∈ snd r).
  { intros k. apply run_del_old, MigrationFacts.all_kinds. }
  assert (Hne : snd r <> []).
  { intros E. pose proof (Hdel_old FetchOffset) as H. rewrite E in H. set_solver. }
  set (st1 := deleteOldKeys (snd r) (fst r)).
  assert (Est1 : st1 = Store.chromeRemove (snd r) (fst r)).
  { unfold st1, deleteOldKeys. destruct (snd r); [done|]. by rewrite Hrch. }
  assert (Hst1_old : forall k, Store.readThrough (prefix k +:+ oldS) st1 = None).
  { intros k. unfold Store.readThrough. rewrite Est1, getItem_chromeRemove.
    rewrite Hget, Hold;
      [|intros j E; symmetry in E; by apply (new_ne_old _ _ _ _ Hnd j k)
       |intros E; symmetry in E; by apply (marker_ne_old _ _ _ _ Hnd k)].
    rewrite chromeGet_chromeRemove. by rewrite decide_True. }
  assert (Hst1_hashed : needs = true -> forall k,
            Store.readThrough (prefix k +:+ hashedS) st1 = None).
  { intros En k. unfold Store.readThrough. rewrite Est1, getItem_chromeRemove.
    assert (Hg : Store.getItem (prefix k +:+ hashedS) (fst r) = None).
    { rewrite Hget; [by apply Hhashed| |].
      - intros j E. symmetry in E. by apply (new_ne_hashed _ _ _ _ Hnd j k).
      - intros E. symmetry in E. by apply (marker_ne_hashed _ _ _ _ Hnd k). }
    rewrite Hg, chromeGet_chromeRemove.
    destruct (decide (prefix k +:+ hashedS ∈ snd r)) as [|Hout]; [done|].
    destruct (run_hashed Store.readThrough Store.writeBoth oldS hashedS newS
                readThrough_writeBoth_ne needs keysToMigrate (st0, []) k En
                (MigrationFacts.all_kinds k)) as [Hin|Hnone].
    - intros j _ E. by apply (new_ne_hashed _ _ _ _ Hnd j k).
    - done.
    - fold F in Hnone. fold r in Hnone. unfold Store.readThrough in Hnone.
      by rewrite Hg in Hnone. }
  (* the second run *)
  set (st0' := Store.chromeSet markerDirect (testMarker t2 pk)
                 (Store.setItem marker (testMarker t2 pk) st1)).
  assert (E2 : r2 = (Ok tt, deleteOldKeys ([] ++ map (fun k => prefix k +:+ oldS)
                                              keysToMigrate) st0')).
  { unfold r2. rewrite E1. cbn [snd]. fold st1.
    unfold migrateStorageKeys, migrateAll. rewrite suffix_hashed, Hs.
    fold hashedS. fold needs. fold oldS. fold st0'.
    rewrite run_no_sources; [done|..].
    - intros k _. unfold st0'. rewrite readThrough_markers; [apply Hst1_old|..];
        intros E; symmetry in E.
      + by apply (marker_ne_old _ _ _ _ Hnd k).
      + by apply (markerDirect_ne_old _ _ _ _ Hnd k).
    - intros En k _. unfold st0'. rewrite readThrough_markers;
        [by apply Hst1_hashed|..]; intros E; symmetry in E.
      + by apply (marker_ne_hashed _ _ _ _ Hnd k).
      + by apply (markerDirect_ne_hashed _ _ _ _ Hnd k). }
  split; [by rewrite E1|]. split; [by rewrite E2|].
  rewrite E2, E1. cbn [snd]. fold st1. fold st0'. rewrite app_nil_l.
  unfold deleteOldKeys. cbn [map keysToMigrate].
  assert (Hch' : Store.hasChrome st0' = true).
  { unfold st0'. rewrite MigrationFacts.hasChrome_chromeSet,
      MigrationFacts.hasChrome_setItem, Est1. by destruct (chromeLocal (fst r)) eqn:E;
      unfold Store.hasChrome, Store.chromeRemove in *; cbn [chromeLocal] in *;
      rewrite E in *. }
  rewrite Hch'. apply chromeRemove_absent.
  intros x c Hx Hc.
  assert (exists k, x = prefix k +:+ oldS) as [k ->].
  { repeat (apply elem_of_cons in Hx as [->|Hx]); [by eexists..|set_solver]. }
  unfold st0', Store.chromeSet in Hc. cbn [chromeLocal Store.setItem] in Hc.
  rewrite Est1 in Hc. unfold Store.chromeRemove in Hc. cbn [chromeLocal] in Hc.
  destruct (chromeLocal (fst r)) as [c0|]; cbn in Hc; [|done].
  injection Hc as <-.
  rewrite lookup_insert_ne
    by (intros E; by apply (markerDirect_ne_old _ _ _ _ Hnd k)).
  by rewrite lookup_foldr_delete, decide_True.
Qed.


Lemma hasChrome_deleteOldKeys del st :
  Store.hasChrome (deleteOldKeys del st) = Store.hasChrome st.
Proof.
  unfold deleteOldKeys. destruct del as [|d del]; [done|].
  destruct (Store.hasChrome st) eqn:E.
  - unfold Store.hasChrome, Store.chromeRemove in *. cbn [chromeLocal].
    by destruct (chromeLocal st).
  - unfold Store.hasChrome in *. by rewrite chromeLocal_removeItems.
Qed.

Lemma hasChrome_migrateStorageKeys now pk ek st :
  Store.hasChrome (snd (migrateStorageKeys now pk ek st)) = Store.hasChrome st.
Proof.
  unfold migrateStorageKeys, migrateAll.
  destruct (storageKeySuffix pk None) as [hashedS|];
    [|cbn [snd]; by rewrite MigrationFacts.hasChrome_chromeSet,
                           MigrationFacts.hasChrome_setItem].
  destruct (storageKeySuffix pk ek) as [newS|];
    [|cbn [snd]; by rewrite MigrationFacts.hasChrome_chromeSet,
                           MigrationFacts.hasChrome_setItem].
  cbn [snd]. rewrite hasChrome_deleteOldKeys.
  rewrite (MigrationFacts.run_hasChrome Store.readThrough Store.writeBoth _ _ _ _
             MigrationFacts.hasChrome_writeBoth).
  cbn [fst].
  by rewrite MigrationFacts.hasChrome_chromeSet, MigrationFacts.hasChrome_setItem.
Qed.

Lemma chromeSet_nochrome k v st :
  chromeLocal st = None -> Store.chromeSet k v st = st.
Proof. intros E. destruct st as [a c]. cbn in E. subst c. reflexivity. Qed.

Lemma chromeGet_chromeSet_ne k k' v st :
  k <> k' -> Store.chromeGet k' (Store.chromeSet k v st) = Store.chromeGet k' st.
Proof.
  intros Hne. unfold Store.chromeGet, Store.chromeSet. cbn [chromeLocal].
  destruct (chromeLocal st) as [c|]; cbn; [|done]. by rewrite lookup_insert_ne.
Qed.

(** C3 (as amended). A second run of [migrateStorageKeys] for the same
    wallet and session key ends as the first did and changes the two
    markers only: [SDK_MIGRATION_TEST] in the adapter and, where there is a
    [chrome.storage.local], [SDK_MIGRATION_TEST_DIRECT] there, which hold
    the time of the latest run. Every other entry of the adapter and of
    [chrome.storage.local] is what the first run left. This holds where
    the entries to migrate are in the store the deletion is applied to:
    with a [chrome.storage.local] the adapter itself holds no legacy or
    hashed entry of the wallet. Where the adapter is the only storage, the
    marker [SDK_MIGRATION_TEST] is the one entry that changes. *)
Theorem migrate_twice (t1 t2 : Z) (pk : string) (ek : option string)
    (st : Storage) :
  sourcesDeletable pk ek st ->
  NoDup (migrationKeys pk ek) ->
  let r1 := migrateStorageKeys t1 pk ek st in
  let r2 := migrateStorageKeys t2 pk ek (snd r1) in
  fst r2 = fst r1 /\
  snd r2 = Store.chromeSet markerDirect (testMarker t2 pk)
             (Store.setItem marker (testMarker t2 pk) (snd r1)) /\
  (chromeLocal st = None ->
   snd r2 = Store.setItem marker (testMarker t2 pk) (snd r1)) /\
  (forall k, k <> marker -> Store.getItem k (snd r2) = Store.getItem k (snd r1)) /\
  (forall k, k <> markerDirect ->
     Store.chromeGet k (snd r2) = Store.chromeGet k (snd r1)).
Proof.
  intros Hsrc Hnd r1 r2.
  assert (fst r2 = fst r1 /\
          snd r2 = Store.chromeSet markerDirect (testMarker t2 pk)
                     (Store.setItem marker (testMarker t2 pk) (snd r1)))
    as [E1 E2].
  { destruct (Store.hasChrome st) eqn:Hch.
    - destruct (storageKeySuffix pk ek) as [newS|m] eqn:Hs.
      + pose proof (second_run_chrome t1 t2 pk ek newS st Hch Hs (Hsrc Hch) Hnd)
          as H.
        cbv zeta in H. destruct H as (H1 & H2 & H3). subst r1 r2.
        split; [congruence|exact H3].
      + subst r2 r1. unfold migrateStorageKeys, migrateAll.
        by rewrite suffix_hashed, Hs.
    - assert (Hc : chromeLocal st = None)
        by (unfold Store.hasChrome in Hch; by destruct (chromeLocal st)).
      pose proof (second_run_adapter t1 t2 pk ek st Hc Hnd) as H.
      cbv zeta in H. destruct H as (H1 & H2 & _).
      split; [exact H1|]. fold r1 in H2. fold r2 in H2. rewrite H2.
      symmetry. apply chromeSet_nochrome. cbn [chromeLocal Store.setItem].
      pose proof (hasChrome_migrateStorageKeys t1 pk ek st) as Hh.
      fold r1 in Hh. rewrite Hch in Hh. unfold Store.hasChrome in Hh.
      by destruct (chromeLocal (snd r1)). }
  split; [exact E1|]. split; [exact E2|]. split; [|split].
  - intros Hc. pose proof (second_run_adapter t1 t2 pk ek st Hc Hnd) as H.
    cbv zeta in H. by destruct H as (_ & H2 & _).
  - intros k Hk. rewrite E2. unfold Store.chromeSet, Store.getItem. cbn [cache].
    by apply getItem_setItem_ne.
  - intros k Hk. rewrite E2. by rewrite chromeGet_chromeSet_ne.
Qed.

End Twice.

(** A wallet whose legacy entries are in [chrome.storage.local], and one
    whose legacy entries are in the adapter, the only storage. *)
Definition legacyEntries : gmap string string :=
  <["fetch_offset9fhQBb4Nd1mBQtrMJVYVfKf2PJy9NZUZdTAsp7D4xWLs4gDB4T" := "50"]>
  (<["tradeHistory9fhQBbsha256:4Nd1mBQtrMJVYVfKf2PJy9NZUZdTAsp7D4xWLs4gDB4T" := "1,2"]>
   (<["encrypted_outputs9fhQBb4Nd1mBQtrMJVYVfKf2PJy9NZUZdTAsp7D4xWLs4gDB4T" := "[]"]> ∅)).

Lemma migrate_twice_witness :
  let pk := Sample.wallet in
  let ek := Some Sample.sessionKey in
  let inChrome := mkStorage ∅ (Some legacyEntries) in
  let inAdapter := mkStorage legacyEntries None in
  NoDup (migrationKeys (Pr := Sample.prims) pk ek) /\
  snd (migrateStorageKeys (Pr := Sample.prims) 2000 pk ek
         (snd (migrateStorageKeys (Pr := Sample.prims) 1000 pk ek inChrome)))
  = Store.chromeSet markerDirect (testMarker 2000 pk)
      (Store.setItem marker (testMarker 2000 pk)
         (snd (migrateStorageKeys (Pr := Sample.prims) 1000 pk ek inChrome))) /\
  snd (migrateStorageKeys (Pr := Sample.prims) 2000 pk ek
         (snd (migrateStorageKeys (Pr := Sample.prims) 1000 pk ek inAdapter)))
  = Store.setItem marker (testMarker 2000 pk)
      (snd (migrateStorageKeys (Pr := Sample.prims) 1000 pk ek inAdapter)).
Proof.
  intros pk ek inChrome inAdapter.
  assert (Hnd : NoDup (migrationKeys (Pr := Sample.prims) pk ek)).
  { apply (bool_decide_unpack _). vm_compute. exact I. }
  assert (H1 : sourcesDeletable (Pr := Sample.prims) pk ek inChrome).
  { intros _ x _. reflexivity. }
  assert (H2 : sourcesDeletable (Pr := Sample.prims) pk ek inAdapter).
  { intros Hch. discriminate Hch. }
  split; [exact Hnd|]. split.
  - exact (proj1 (proj2
      (migrate_twice (Pr := Sample.prims) 1000 2000 pk ek inChrome H1 Hnd))).
  - exact (proj1 (proj2 (proj2
      (migrate_twice (Pr := Sample.prims) 1000 2000 pk ek inAdapter H2 Hnd)))
      eq_refl).
Defined.

(** The claim as stated fails in two ways. On the marker: with an empty
    storage and no session key, a run at time 1000 followed by a run at time
    2000 leaves another storage than the run at time 1000 alone. On migrated
    data: with a [chrome.storage.local] and the legacy trade history
    [1,2,3] in the adapter, the deletion of the first run does not reach the
    legacy entry, and the second run merges it again and rewrites the
    migrated history as [3,2,1]. *)
Lemma migrate_twice_counterexample :
  let pk := Sample.wallet in
  let st := mkStorage ∅ None in
  let once := snd (migrateStorageKeys (Pr := Sample.prims) 1000 pk None st) in
  let twice := snd (migrateStorageKeys (Pr := Sample.prims) 2000 pk None once) in
  let legacy := "tradeHistory9fhQBb4Nd1mBQtrMJVYVfKf2PJy9NZUZdTAsp7D4xWLs4gDB4T" in
  let current :=
    "tradeHistory9fhQBbsha256:4Nd1mBQtrMJVYVfKf2PJy9NZUZdTAsp7D4xWLs4gDB4T" in
  let st' := mkStorage (<[legacy := "1,2,3"]> ∅) (Some ∅) in
  let once' := snd (migrateStorageKeys (Pr := Sample.prims) 1000 pk None st') in
  let twice' := snd (migrateStorageKeys (Pr := Sample.prims) 2000 pk None once') in
  (Store.getItem marker once = Some "Migration executed at 1000 for wallet 4Nd1mBQt" /\
   Store.getItem marker twice = Some "Migration executed at 2000 for wallet 4Nd1mBQt" /\
   twice <> once) /\
  (NoDup (migrationKeys (Pr := Sample.prims) pk None) /\
   storageKeySuffix (Pr := Sample.prims) pk None
   = Ok "9fhQBbsha256:4Nd1mBQtrMJVYVfKf2PJy9NZUZdTAsp7D4xWLs4gDB4T" /\
   Store.getItem legacy once' = Some "1,2,3" /\
   Store.readThrough current once' = Some "1,2,3" /\
   Store.readThrough current twice' = Some "3,2,1" /\
   Store.chromeGet current once' = Some "1,2,3" /\
   Store.chromeGet current twice' = Some "3,2,1").
Proof.
  intros pk st once twice legacy current st' once' twice'.
  split.
  - assert (H1 : Store.getItem marker once
                 = Some "Migration executed at 1000 for wallet 4Nd1mBQt") by reflexivity.
    assert (H2 : Store.getItem marker twice
                 = Some "Migration executed at 2000 for wallet 4Nd1mBQt") by reflexivity.
    split; [exact H1|]. split; [exact H2|].
    intros E. rewrite E, H1 in H2. discriminate H2.
  - split; [apply (bool_decide_unpack _); vm_compute; exact I|].
    repeat split; vm_compute; reflexivity.
Qed.

End MigrationTwice.

(** ** Further properties of the synchronisation loop *)

Module SyncFacts.
Import KeyDirectory Sync.

(** The state a turn or a run of the loop ends in. *)
Definition flowState (f : Flow) : LoopState :=
  match f with
  | Next s | Done s | Throw _ s => s
  end.

Section Facts.
Context {Pr : Primitives}.

(** *** The notes kept from a page *)

Lemma nonZero_positive utxos encs : forall k nz p,
  Spent.nonZero k utxos encs = Ok nz -> p ∈ nz -> 0 < amount (fst p).
Proof.
  induction utxos as [|u rest IH]; intros k nz p Hnz Hp.
  - injection Hnz as <-. set_solver.
  - cbn [Spent.nonZero] in Hnz.
    destruct (BN.toNumber (amount u)) as [n|m] eqn:En; [|done].
    apply BN.toNumber_ok in En as [-> _]. cbn [mbind Result_bind] in Hnz.
    destruct (Spent.nonZero (S k) rest encs) as [nz'|m] eqn:Er; [|done].
    cbn [mbind Result_bind] in Hnz. injection Hnz as <-.
    destruct (Z.ltb_spec 0 (amount u)).
    + apply elem_of_cons in Hp as [->|Hp]; [done|by apply (IH (S k) nz')].
    + by apply (IH (S k) nz').
Qed.

Lemma keepUnspent_sub nz flags : forall i p,
  p ∈ Spent.keepUnspent i nz flags -> p ∈ nz.
Proof.
  induction nz as [|q rest IH]; intros i p Hp; [set_solver|].
  cbn [Spent.keepUnspent] in Hp.
  destruct (flags !! i) as [[|]|].
  - right. by apply (IH (S i)).
  - apply elem_of_cons in Hp as [->|Hp]; [left|right; by apply (IH (S i))].
  - apply elem_of_cons in Hp as [->|Hp]; [left|right; by apply (IH (S i))].
Qed.

Lemma unspentOfPage_positive fuel conn call utxos encs kept call' :
  Spent.unspentOfPage fuel conn call utxos encs = Some (Ok (kept, call')) ->
  forall p, p ∈ kept -> 0 < amount (fst p).
Proof.
  unfold Spent.unspentOfPage. intros H p Hp.
  destruct (Spent.nonZero 0 utxos encs) as [[|q nz]|m] eqn:En; [| |done].
  - injection H as <- _. set_solver.
  - destruct (Spent.areUtxosSpent _ _ _ _) as [[flags c]|]; [|done].
    injection H as Hk _. rewrite <- Hk in Hp.
    apply (keepUnspent_sub (q :: nz) flags 0%nat p) in Hp.
    by apply (nonZero_positive utxos encs 0%nat (q :: nz)).
Qed.

(** X5. A page none of whose notes has a positive amount is settled
    without the ledger: whatever the connection would answer, and with no
    attempt left at all, no note is kept and no call is made. (The amounts
    are those [toNumber] accepts: for the unsigned amounts of the notes,
    the amount 0.) *)
Theorem zero_amount_page_skips_ledger (fuel : nat) (conn : Spent.Connection)
    (call : nat) (utxos : list Utxo) (encs : list string) :
  (forall u, u ∈ utxos -> - 2 ^ 53 < amount u <= 0) ->
  Spent.unspentOfPage fuel conn call utxos encs = Some (Ok ([], call)).
Proof.
  intros Hz. unfold Spent.unspentOfPage.
  assert (Spent.nonZero 0 utxos encs = Ok []) as ->; [|done].
  generalize 0%nat. induction utxos as [|u rest IH]; intros k; [done|].
  assert (- 2 ^ 53 < amount u <= 0) as Hu by (apply Hz; set_solver).
  cbn [Spent.nonZero]. rewrite BN.toNumber_safe by (unfold BN.safe; lia).
  cbn [mbind Result_bind].
  rewrite IH by (intros v Hv; apply Hz; set_solver). cbn [mbind Result_bind].
  by destruct (Z.ltb_spec 0 (amount u)); [lia|].
Qed.

(** *** One turn of the loop *)

Lemma loopBody_inv rpcFuel remote pk ek suffix s f :
  loopBody rpcFuel remote pk ek suffix s = Some f ->
  (exists m, f = Throw m s) \/
  exists fetched kept calls,
    Spent.unspentOfPage rpcFuel (connection remote) (rpcCalls s)
      (utxos fetched) (encryptedOutputs fetched) = Some (Ok (kept, calls)) /\
    let s' := mkLoop
                (Store.setItem (LSK_FETCH_OFFSET +:+ suffix)
                   (Js.toString (Js.add (readOffset suffix (storage s))
                                   (Js.JInt (Z.of_nat (len fetched)))))
                   (storage s))
                calls (S (pages s)) (valid s ++ kept)
                (history_indexes s ++ map index (utxos fetched)) in
    f = (if hasMore fetched then Next s' else Done s').
Proof.
  unfold loopBody.
  destruct (fetchUserUtxos _ _ _ _ _) as [fetched|m]; [|intros [= <-]; eauto].
  destruct (Spent.unspentOfPage _ _ _ _ _) as [[[kept calls]|m]|] eqn:Eu;
    [|intros [= <-]; eauto|done].
  intros H. right. exists fetched, kept, calls. split; [done|].
  destruct (hasMore fetched); cbn [negb] in H; by inversion H.
Qed.

Lemma loopBody_frame rpcFuel remote pk ek suffix s f :
  loopBody rpcFuel remote pk ek suffix s = Some f ->
  (forall k, k <> LSK_FETCH_OFFSET +:+ suffix ->
     Store.getItem k (storage (flowState f)) = Store.getItem k (storage s)) /\
  chromeLocal (storage (flowState f)) = chromeLocal (storage s).
Proof.
  intros H. apply loopBody_inv in H as [[m ->]|(fetched & kept & calls & _ & ->)].
  - done.
  - destruct (hasMore fetched); cbn [flowState storage];
      (split; [intros k Hk; by apply Migration.getItem_setItem_ne|done]).
Qed.

Lemma loopBody_offset_grows rpcFuel remote pk ek suffix s f z :
  loopBody rpcFuel remote pk ek suffix s = Some f ->
  readOffset suffix (storage s) = Js.JInt z ->
  exists z', readOffset suffix (storage (flowState f)) = Js.JInt z' /\ z <= z'.
Proof.
  intros H Hz. apply loopBody_inv in H as [[m ->]|(fetched & kept & calls & _ & ->)].
  - exists z. split; [done|lia].
  - exists (z + Z.of_nat (len fetched)). split; [|lia].
    assert (readOffset suffix
              (Store.setItem (LSK_FETCH_OFFSET +:+ suffix)
                 (Js.toString (Js.add (readOffset suffix (storage s))
                                 (Js.JInt (Z.of_nat (len fetched)))))
                 (storage s))
            = Js.JInt (z + Z.of_nat (len fetched))) as E.
    { unfold readOffset at 1.
      rewrite Migration.getItem_setItem_eq, toString_truthy, Hz. simpl Js.add.
      apply JsFacts.Number_toString. }
    by destruct (hasMore fetched).
Qed.

Lemma loopBody_positive rpcFuel remote pk ek suffix s f :
  loopBody rpcFuel remote pk ek suffix s = Some f ->
  (forall p, p ∈ valid s -> 0 < amount (fst p)) ->
  forall p, p ∈ valid (flowState f) -> 0 < amount (fst p).
Proof.
  intros H Hv. apply loopBody_inv in H as [[m ->]|(fetched & kept & calls & Hu & ->)].
  - done.
  - intros p Hp.
    assert (p ∈ valid s ++ kept) as Hin by (by destruct (hasMore fetched)).
    apply elem_of_app in Hin as [Hin|Hin]; [by apply Hv|].
    by apply (unspentOfPage_positive _ _ _ _ _ _ _ Hu).
Qed.

(** *** The loop *)

(** A property of loop states that every turn keeps holds at the end of the
    loop. *)
Lemma syncLoop_ind (P : LoopState -> Prop) rpcFuel remote pk ek suffix :
  (forall s f, loopBody rpcFuel remote pk ek suffix s = Some f ->
               P s -> P (flowState f)) ->
  forall fuel s f,
    syncLoop fuel rpcFuel remote pk ek suffix s = Some f -> P s -> P (flowState f).
Proof.
  intros Hstep. induction fuel as [|fuel IH]; intros s f H Hs; [done|].
  cbn [syncLoop] in H.
  destruct (loopBody rpcFuel remote pk ek suffix s) as [g|] eqn:Eb; [|done].
  pose proof (Hstep _ _ Eb Hs) as Hg.
  destruct g as [s'|s'|m s'].
  - by apply (IH s').
  - by inversion H; subst.
  - by inversion H; subst.
Qed.

(** X6. The loop of [getUtxos] writes one storage entry only, the fetch
    offset of the wallet: however the loop ends (no further page, or an
    error thrown on some page), every other entry of the adapter and all
    of [chrome.storage.local] are as they were when the loop began. *)
Theorem syncLoop_frame (fuel rpcFuel : nat) (remote : Remote) (pk : string)
    (ek : option string) (suffix : string) (s : LoopState) (f : Flow) :
  syncLoop fuel rpcFuel remote pk ek suffix s = Some f ->
  (forall k, k <> LSK_FETCH_OFFSET +:+ suffix ->
     Store.getItem k (storage (flowState f)) = Store.getItem k (storage s)) /\
  chromeLocal (storage (flowState f)) = chromeLocal (storage s).
Proof.
  intros H.
  apply (syncLoop_ind
           (fun s' => (forall k, k <> LSK_FETCH_OFFSET +:+ suffix ->
                         Store.getItem k (storage s') = Store.getItem k (storage s)) /\
                      chromeLocal (storage s') = chromeLocal (storage s))
           rpcFuel remote pk ek suffix) with (fuel := fuel) (s := s); [|done|done].
  intros s1 g Hb [Hk Hc]. destruct (loopBody_frame _ _ _ _ _ _ _ Hb) as [Hk' Hc'].
  split; [|by rewrite Hc'].
  intros k Hne. by rewrite Hk', Hk.
Qed.

(** X7. The fetch offset never goes back: from an integer offset the loop
    ends, with or without an error, at an integer offset that is at least
    the one it began with. *)
Theorem syncLoop_offset_monotone (fuel rpcFuel : nat) (remote : Remote)
    (pk : string) (ek : option string) (suffix : string) (s : LoopState)
    (f : Flow) (z : Z) :
  readOffset suffix (storage s) = Js.JInt z ->
  syncLoop fuel rpcFuel remote pk ek suffix s = Some f ->
  exists z', readOffset suffix (storage (flowState f)) = Js.JInt z' /\ z <= z'.
Proof.
  intros Hz H.
  apply (syncLoop_ind
           (fun s' => exists z', readOffset suffix (storage s') = Js.JInt z' /\ z <= z')
           rpcFuel remote pk ek suffix) with (fuel := fuel) (s := s);
    [|done|by exists z].
  intros s1 g Hb (z1 & Hz1 & Hle).
  destruct (loopBody_offset_grows _ _ _ _ _ _ _ _ Hb Hz1) as (z2 & Hz2 & Hle2).
  exists z2. split; [done|lia].
Qed.

Lemma result_positive fuel rpcFuel remote now pk ek p p' id r :
  getUtxos fuel rpcFuel remote now pk ek p = Some (Settled id (Ok r), p') ->
  forall u, u ∈ r -> 0 < amount u.
Proof.
  intros Hg u Hu.
  destruct (getUtxos_success _ _ _ _ _ _ _ _ _ _ Hg) as (s & Ht & Hf).
  assert (Hr : r = map fst (valid s)).
  { unfold finalize in Hf. destruct (storageKeySuffix pk ek); by inversion Hf. }
  assert (Hv : forall q, q ∈ valid s -> 0 < amount (fst q)).
  { unfold tryBlock in Ht.
    destruct (Migration.migrateStorageKeys now pk ek (pstorage p)) as [[[]|m] st];
      [|done].
    destruct (storageKeySuffix pk ek) as [suffix|m]; [|done].
    refine (syncLoop_ind (fun s' => forall q, q ∈ valid s' -> 0 < amount (fst q))
              rpcFuel remote pk ek suffix _ fuel _ (Done s) Ht _).
    - intros s1 g Hb Hs1. by apply (loopBody_positive _ _ _ _ _ _ _ Hb).
    - cbn [valid]. set_solver. }
  subst r. apply list_elem_of_fmap in Hu as (q & -> & Hq). by apply Hv.
Qed.

(** X8. Every note a successful [getUtxos] returns has a positive amount. *)
Theorem getUtxos_positive_amounts (fuel rpcFuel : nat) (remote : Remote)
    (now : Z) (pk : string) (ek : option string) (p p' : Process) (id : nat)
    (r : list Utxo) :
  getUtxos fuel rpcFuel remote now pk ek p = Some (Settled id (Ok r), p') ->
  forall u, u ∈ r -> 0 < amount u.
Proof. apply result_positive. Qed.

End Facts.

Lemma zero_amount_page_skips_ledger_witness :
  Spent.unspentOfPage (Pr := Sample.prims) 0 (fun _ => Spent.RpcError) 7
    [mkUtxo 0 1 "bb"] ["bb"] = Some (Ok ([], 7%nat)).
Proof.
  apply (zero_amount_page_skips_ledger (Pr := Sample.prims)).
  intros u Hu. apply list_elem_of_singleton in Hu. subst u. simpl. lia.
Defined.

(** The loop on the sample indexer, begun on a storage that holds a
    recent-activity entry. *)
Definition historicLoop : LoopState :=
  mkLoop (pstorage historicProcess) 0 0 [] [].

Definition historicFlow : Flow :=
  match syncLoop (Pr := Sample.prims) 5 3 sampleRemote Sample.wallet None
          sampleSuffix historicLoop with
  | Some f => f
  | None => Done historicLoop
  end.

Lemma historicFlow_run :
  syncLoop (Pr := Sample.prims) 5 3 sampleRemote Sample.wallet None sampleSuffix
    historicLoop = Some historicFlow.
Proof. vm_compute. reflexivity. Qed.

Lemma syncLoop_frame_witness :
  Store.getItem ("tradeHistory" +:+ sampleSuffix) (storage (flowState historicFlow))
  = Some "21,20,19,18,17,16,15,14,13,12,11,10,9,8,7,6,5,4,3,2,1".
Proof.
  destruct (syncLoop_frame (Pr := Sample.prims) 5 3 sampleRemote Sample.wallet None
              sampleSuffix historicLoop historicFlow historicFlow_run) as [H _].
  rewrite H; [reflexivity|]. vm_compute. discriminate.
Defined.

Lemma syncLoop_offset_monotone_witness :
  exists z', readOffset (Pr := Sample.prims) sampleSuffix
               (storage (flowState historicFlow)) = Js.JInt z' /\ 0 <= z'.
Proof.
  apply (syncLoop_offset_monotone (Pr := Sample.prims) 5 3 sampleRemote
           Sample.wallet None sampleSuffix historicLoop historicFlow 0).
  - reflexivity.
  - exact historicFlow_run.
Defined.

Lemma getUtxos_positive_amounts_witness :
  getUtxos (Pr := Sample.prims) 5 3 sampleRemote 1000 Sample.wallet None emptyProcess
  = Some (Settled 0 (Ok [mkUtxo 5 100 "aa"; mkUtxo 7 102 "cc"]), sampleAfter) /\
  0 < amount (mkUtxo 5 100 "aa") /\ 0 < amount (mkUtxo 7 102 "cc").
Proof.
  assert (Hrun : getUtxos (Pr := Sample.prims) 5 3 sampleRemote 1000 Sample.wallet
                   None emptyProcess
                 = Some (Settled 0 (Ok [mkUtxo 5 100 "aa"; mkUtxo 7 102 "cc"]),
                         sampleAfter))
    by (vm_compute; reflexivity).
  pose proof (getUtxos_positive_amounts (Pr := Sample.prims) 5 3 sampleRemote 1000
                Sample.wallet None emptyProcess sampleAfter 0 _ Hrun) as H.
  split; [exact Hrun|].
  split; apply H; [apply list_elem_of_here|apply list_elem_of_further, list_elem_of_here].
Defined.

End SyncFacts.

(** ** Further properties of the recent-activity entry *)

Module HistoryFacts.
Import KeyDirectory Sync.

Lemma fold_set_add_fresh {A} `{EqDecision A} (l : list A) : forall acc,
  NoDup (acc ++ l) -> fold_left Js.set_add l acc = acc ++ l.
Proof.
  induction l as [|x l IH]; intros acc Hnd; [by rewrite app_nil_r|].
  cbn [fold_left]. unfold Js.set_add at 2.
  apply NoDup_app in Hnd as (Ha & Hd & Hl).
  destruct (decide (x ∈ acc)) as [Hin|Hin].
  - exfalso. apply (Hd x Hin). set_solver.
  - rewrite IH.
    + by rewrite <- app_assoc.
    + apply NoDup_cons in Hl as [Hx Hl]. apply NoDup_app. split; [|split; [|done]].
      * apply NoDup_app. split; [done|]. split; [|apply NoDup_singleton].
        intros y Hy Hy'. apply list_elem_of_singleton in Hy'. by subst.
      * intros y Hy Hy'. apply elem_of_app in Hy as [Hy|Hy].
        -- apply (Hd y Hy). set_solver.
        -- apply list_elem_of_singleton in Hy. by subst.
Qed.

Lemma uniq_id {A} `{EqDecision A} (l : list A) : NoDup l -> Js.uniq l = l.
Proof. intros Hnd. unfold Js.uniq. by rewrite fold_set_add_fresh. Qed.

Lemma sort_id (l : list Z) : StronglySorted Z.gt l -> Js.sort JsFacts.desc l = l.
Proof.
  induction 1 as [|x l Hs IH Hx]; [done|].
  unfold Js.sort in *. cbn [foldr]. rewrite IH.
  destruct l as [|y l]; [done|]. cbn [Js.sort_insert].
  apply Forall_cons in Hx as [Hxy _]. unfold JsFacts.desc.
  destruct (Z.leb_spec (y - x) 0); [done|lia].
Qed.

(** The selection is stable under itself. *)
Lemma top20Z_idem (l : list Z) : JsFacts.top20Z (JsFacts.top20Z l) = JsFacts.top20Z l.
Proof.
  destruct (JsFacts.top20Z_spec l) as (Hlen & Hnd & Hs & _).
  set (kept := JsFacts.top20Z l) in *.
  unfold JsFacts.top20Z at 1. rewrite uniq_id, sort_id by done.
  unfold Js.slice0. by apply take_ge.
Qed.

Section Facts.
Context {Pr : Primitives}.

(** X9. Writing the recent-activity entry is idempotent: once the entry
    has been written from a list of collected indices, writing it again with
    nothing newly collected leaves the storage as it is. *)
Theorem persistHistory_idempotent (historyKey : string) (h prev : list Z)
    (st : Storage) :
  storedIndexes historyKey st = map Js.JInt prev ->
  persistHistory historyKey [] (persistHistory historyKey h st)
  = persistHistory historyKey h st.
Proof.
  intros Hp. rewrite (persistHistory_ints historyKey h st prev Hp).
  destruct (JsFacts.top20Z (h ++ prev)) as [|k kept] eqn:Ek.
  - apply JsFacts.top20Z_nil in Ek. apply app_eq_nil in Ek as [-> ->].
    by rewrite (persistHistory_ints historyKey [] st []).
  - rewrite (persistHistory_ints historyKey [] _ (k :: kept))
      by (by apply storedIndexes_written).
    rewrite app_nil_l, <- Ek, top20Z_idem, Ek.
    destruct st as [c ch]. unfold Store.setItem. cbn [cache chromeLocal].
    by rewrite insert_insert_eq.
Qed.

(** X10. The text of the recent-activity entry reads back as the integers
    it was written from: splitting the comma-joined decimal numerals of a
    non-empty list of integers, negative ones included, and reading each
    piece as a number gives the list again. *)
Theorem history_entry_roundtrip (ks : list Z) :
  ks <> [] ->
  Migration.parseIndexes (Migration.joinIndexes (map Js.JInt ks)) = map Js.JInt ks.
Proof. apply JsFacts.parse_join. Qed.

End Facts.

Lemma persistHistory_idempotent_witness :
  let st := Store.setItem "tradeHistory" "5,3" (mkStorage ∅ None) in
  Store.getItem "tradeHistory" (persistHistory "tradeHistory" [9; 3] st) = Some "9,5,3" /\
  persistHistory "tradeHistory" [] (persistHistory "tradeHistory" [9; 3] st)
  = persistHistory "tradeHistory" [9; 3] st.
Proof.
  intros st. split; [reflexivity|].
  apply (persistHistory_idempotent "tradeHistory" [9; 3] [5; 3] st). reflexivity.
Defined.

Lemma history_entry_roundtrip_witness :
  Migration.joinIndexes (map Js.JInt [12; -4; 0]) = "12,-4,0" /\
  Migration.parseIndexes "12,-4,0" = map Js.JInt [12; -4; 0].
Proof.
  split; [reflexivity|].
  apply (history_entry_roundtrip [12; -4; 0]). discriminate.
Defined.

End HistoryFacts.

(** ** The check of one note ([isUtxoSpent]) *)

Module SpentSingle.
Import Spent.

Section WithPrimitives.
Context {Pr : Primitives}.

(** [connection.getAccountInfo(pda)]: a call of the connection like the
    batched one, reading one address. *)
Definition getAccountInfo (conn : Connection) (call : nat) (pda : string)
  : Result (option string) :=
  match conn call with
  | RpcError => Err "getAccountInfo failed"
  | RpcOk ledger => Ok (ledger pda)
  end.

(** [isUtxoSpent]: the [nullifier0] address is read first and the
    [nullifier1] address only when the first holds no account; any error is
    followed by a delay and another attempt from the start. The answer
    comes with the number of the next call of the connection. *)
Fixpoint isUtxoSpent (fuel : nat) (conn : Connection) (call : nat) (utxo : Utxo)
  : option (bool * nat) :=
  match fuel with
  | O => None
  | S fuel' =>
      match getAccountInfo conn call (nullifier0PDA utxo) with
      | Err _ => isUtxoSpent fuel' conn (S call) utxo
      | Ok (Some _) => Some (true, S call)
      | Ok None =>
          match getAccountInfo conn (S call) (nullifier1PDA utxo) with
          | Err _ => isUtxoSpent fuel' conn (S (S call)) utxo
          | Ok (Some _) => Some (true, S (S call))
          | Ok None => Some (false, S (S call))
          end
      end
  end.

(** The check on a connection that answers from one ledger. *)
Lemma isUtxoSpent_stable fuel conn call ledger utxo :
  (forall j, conn (call + j)%nat = RpcOk ledger) ->
  isUtxoSpent (S fuel) conn call utxo
  = Some (spentOn ledger utxo,
          if bool_decide (is_Some (ledger (nullifier0PDA utxo)))
          then S call else S (S call)).
Proof.
  intros Hc.
  pose proof (Hc 0%nat) as H0. rewrite Nat.add_0_r in H0.
  pose proof (Hc 1%nat) as H1. rewrite Nat.add_1_r in H1.
  cbn [isUtxoSpent]. unfold getAccountInfo. rewrite H0, H1. unfold spentOn.
  destruct (ledger (nullifier0PDA utxo)) as [a0|] eqn:E0.
  - rewrite bool_decide_eq_true_2 by eauto.
    by rewrite bool_decide_eq_true_2 by eauto.
  - rewrite (bool_decide_eq_false_2 (is_Some None)) by (by intros [? ?]).
    destruct (ledger (nullifier1PDA utxo)) as [a1|] eqn:E1.
    + by rewrite bool_decide_eq_true_2 by eauto.
    + rewrite bool_decide_eq_false_2; [done|].
      intros [[? ?]|[? ?]]; congruence.
Qed.

(** X11. After [k] failed calls, on a connection that from then on
    answers from one ledger, the check of one note and the batched check of
    that note alone both return, and they agree: [true] exactly when an
    account exists at the [nullifier0] or at the [nullifier1] address of
    the note. The single check stops after the first address when that one
    holds an account. *)
Theorem isUtxoSpent_agrees (fuel k : nat) (conn : Connection) (call : nat)
    (ledger : string -> option string) (utxo : Utxo) :
  (forall j, (j < k)%nat -> conn (call + j)%nat = RpcError) ->
  (forall j, conn (call + k + j)%nat = RpcOk ledger) ->
  (k < fuel)%nat ->
  isUtxoSpent fuel conn call utxo
  = Some (spentOn ledger utxo,
          if bool_decide (is_Some (ledger (nullifier0PDA utxo)))
          then S (call + k) else S (S (call + k))) /\
  areUtxosSpent fuel conn call [utxo] = Some ([spentOn ledger utxo], S (call + k)).
Proof.
  intros Herr Hok Hfuel. split.
  - revert call fuel Herr Hok Hfuel.
    induction k as [|k IH]; intros call fuel Herr Hok Hfuel.
    + destruct fuel as [|fuel]; [lia|]. rewrite Nat.add_0_r in *.
      by apply isUtxoSpent_stable.
    + destruct fuel as [|fuel]; [lia|]. cbn [isUtxoSpent]. unfold getAccountInfo.
      pose proof (Herr 0%nat) as H0. rewrite Nat.add_0_r in H0. rewrite H0 by lia.
      rewrite (IH (S call) fuel).
      * by replace (S call + k)%nat with (call + S k)%nat by lia.
      * intros j Hj. replace (S call + j)%nat with (call + S j)%nat by lia.
        apply Herr. lia.
      * intros j. replace (S call + k + j)%nat with (call + S k + j)%nat by lia.
        apply Hok.
      * lia.
  - apply (areUtxosSpent_retry conn k call fuel ledger [utxo]); [done| |done].
    pose proof (Hok 0%nat) as H0. by rewrite Nat.add_0_r in H0.
Qed.

End WithPrimitives.

Lemma isUtxoSpent_agrees_witness :
  let ledger := fun pda : string =>
    if String.eqb pda "nullifier1/dd#3" then Some "account" else None in
  let conn : Connection := fun n => if Nat.ltb n 2 then RpcError else RpcOk ledger in
  isUtxoSpent (Pr := Sample.prims) 3 conn 0 (mkUtxo 9 3 "dd") = Some (true, 4%nat) /\
  areUtxosSpent (Pr := Sample.prims) 3 conn 0 [mkUtxo 9 3 "dd"] = Some ([true], 3%nat).
Proof.
  intros ledger conn.
  apply (isUtxoSpent_agrees (Pr := Sample.prims) 3 2 conn 0 ledger (mkUtxo 9 3 "dd")).
  - intros j Hj. unfold conn. cbn [Nat.add].
    destruct (Nat.ltb_spec j 2) as [_|Hge]; [reflexivity|lia].
  - intros j. reflexivity.
  - lia.
Defined.

End SpentSingle.

(** ** Further properties of [decrypt_outputs] and of [clearCache] *)

Module DecryptFacts.
Import Decrypt.

Section Facts.
Context {Pr : Primitives}.

Lemma survivors_none batch :
  (forall c, c ∈ batch -> Js.truthy c = false \/ decryptUtxo c = None) ->
  survivors batch = [].
Proof.
  induction batch as [|c batch IH]; intros H; [done|].
  unfold survivors in *. cbn [omap list_omap].
  assert ((if Js.truthy c then (fun u => (c, u)) <$> decryptUtxo c else None) = None)
    as ->.
  { destruct (H c) as [->| ->]; [set_solver|done|by destruct (Js.truthy c)]. }
  apply IH. intros c' Hc'. apply H. set_solver.
Qed.

(** X12. A batch in which no ciphertext decrypts (each is empty or belongs
    to another wallet) gives the empty result whatever the index service
    would answer: the service is not needed, and a failing one does not
    fail the call. The empty batch is the first case of this. *)
Theorem decrypt_outputs_nothing_decrypts
    (indices_api : list string -> IndicesResponse) (batch : list string) :
  (forall c, c ∈ batch -> Js.truthy c = false \/ decryptUtxo c = None) ->
  decrypt_outputs indices_api batch = Ok [].
Proof.
  intros H. rewrite decrypt_outputs_survivors. by rewrite survivors_none.
Qed.

(** The index a note ends with: the element of the answer when that is a
    number, the index it was decrypted with otherwise. *)
Definition finalIndex (u : Utxo) (v : option JsValue) : Z :=
  match v with
  | Some (VNumber n) => n
  | _ => index u
  end.

Lemma setIndex_found c u v :
  setIndex (found (c, u)) v
  = mkRes decrypted (Some (mkUtxo (amount u) (finalIndex u v) (payload u))) (Some c).
Proof.
  unfold setIndex, found, finalIndex. cbn [utxo snd fst status encryptedOutput].
  destruct v as [[n|]|]; [|by destruct u..].
  destruct (decide (index u <> n)) as [|He]; [done|].
  apply dec_stable in He. subst n. by destruct u.
Qed.

Lemma updateIndexes_lookup sv vs : forall i j c u,
  sv !! j = Some (c, u) ->
  updateIndexes i (map found sv) vs !! j
  = Some (mkRes decrypted
            (Some (mkUtxo (amount u) (finalIndex u (vs !! (i + j)%nat)) (payload u)))
            (Some c)).
Proof.
  induction sv as [|[c0 u0] sv IH]; intros i j c u Hj; [done|].
  cbn [map updateIndexes]. destruct j as [|j].
  - injection Hj as -> ->. cbn [lookup list_lookup]. rewrite Nat.add_0_r.
    f_equal. apply setIndex_found.
  - specialize (IH (S i) j c u Hj).
    replace (i + S j)%nat with (S i + j)%nat by lia. exact IH.
Qed.

Lemma updateIndexes_length results vs : forall i,
  length (updateIndexes i results vs) = length results.
Proof.
  induction results as [|r results IH]; intros i; [done|].
  cbn [updateIndexes length]. by rewrite IH.
Qed.

(** X13. With an answer of the right length whose elements need not be
    numbers, [decrypt_outputs] returns one result per ciphertext that
    decrypts, in order; the note at position [i] keeps its amount and
    payload, and its index is the [i]-th element of the answer when that
    element is a number and the index it was decrypted with when it is
    not. *)
Theorem decrypt_outputs_indices
    (indices_api : list string -> IndicesResponse) (batch : list string)
    (vs : list JsValue) :
  indices_api (map fst (survivors batch)) = IndicesJson (IndicesArray vs) ->
  length vs = length (survivors batch) ->
  exists results,
    decrypt_outputs indices_api batch = Ok results /\
    length results = length (survivors batch) /\
    forall i c u, survivors batch !! i = Some (c, u) ->
      results !! i
      = Some (mkRes decrypted
                (Some (mkUtxo (amount u) (finalIndex u (vs !! i)) (payload u)))
                (Some c)).
Proof.
  intros Hresp Hlen. rewrite decrypt_outputs_survivors.
  destruct (survivors batch) as [|cu sv] eqn:Es.
  - exists []. by split.
  - cbv zeta. rewrite Hresp, Hlen, Nat.eqb_refl. cbn [negb].
    eexists. split; [done|]. split.
    + by rewrite updateIndexes_length, length_map.
    + intros i c u Hi. by rewrite (updateIndexes_lookup _ _ 0 i c u Hi).
Qed.

End Facts.

Lemma decrypt_outputs_nothing_decrypts_witness :
  Decrypt.decrypt_outputs (Pr := Sample.prims)
    (fun _ => IndicesFailed "network") [""; "zz"] = Ok [].
Proof.
  apply (decrypt_outputs_nothing_decrypts (Pr := Sample.prims)).
  intros c Hc. apply elem_of_cons in Hc as [->|Hc]; [by left|].
  apply list_elem_of_singleton in Hc. subst c. by right.
Defined.

Lemma decrypt_outputs_indices_witness :
  exists results,
    Decrypt.decrypt_outputs (Pr := Sample.prims)
      (fun _ => IndicesJson (IndicesArray [VOther; VNumber 8])) ["dd"; "zz"; "aa"]
    = Ok results /\
    results !! 0%nat = Some (mkRes decrypted (Some (mkUtxo 9 3 "dd")) (Some "dd")) /\
    results !! 1%nat = Some (mkRes decrypted (Some (mkUtxo 5 8 "aa")) (Some "aa")).
Proof.
  destruct (decrypt_outputs_indices (Pr := Sample.prims)
              (fun _ => IndicesJson (IndicesArray [VOther; VNumber 8]))
              ["dd"; "zz"; "aa"] [VOther; VNumber 8] eq_refl eq_refl)
    as (results & Hr & _ & Hi).
  exists results. split; [exact Hr|]. split.
  - exact (Hi 0%nat "dd" (mkUtxo 9 3 "dd") eq_refl).
  - exact (Hi 1%nat "aa" (mkUtxo 5 0 "aa") eq_refl).
Defined.

End DecryptFacts.

Module CacheFacts.
Import KeyDirectory ClearCache Sync.

Section Facts.
Context {Pr : Primitives}.

(** A migration that finds nothing under a legacy or a hashed key of the
    wallet leaves the entries under the current keys as they are. *)
Lemma migration_without_sources now pk ek suffix st k :
  storageKeySuffix pk ek = Ok suffix ->
  NoDup (Migration.migrationKeys pk ek) ->
  (forall y, y ∈ MigrationTwice.sourceKeys pk ek -> Store.readThrough y st = None) ->
  fst (Migration.migrateStorageKeys now pk ek st) = Ok tt /\
  Store.getItem (Migration.prefix k +:+ suffix)
    (snd (Migration.migrateStorageKeys now pk ek st))
  = Store.getItem (Migration.prefix k +:+ suffix) st.
Proof.
  intros Hs Hnd Hsrc.
  rewrite (MigrationFacts.keyList_of_migrationKeys _ _ _ Hs) in Hnd.
  rewrite (MigrationTwice.sourceKeys_of _ _ _ Hs) in Hsrc. cbv zeta in Hsrc.
  unfold Migration.migrateStorageKeys, Migration.migrateAll.
  rewrite Migration.suffix_hashed, Hs.
  set (hashedS := contractPrefix +:+ hashedName pk) in *.
  set (needs := Migration.needsMigration ek hashedS suffix) in *.
  rewrite Migration.run_no_sources.
  - cbn [fst snd]. split; [done|].
    rewrite Migration.getItem_deleteOldKeys.
    + unfold Store.chromeSet, Store.getItem, Store.setItem. cbn [cache].
      apply lookup_insert_ne. apply (Migration.marker_ne_new _ _ _ _ Hnd).
    + rewrite app_nil_l. intros Hin.
      apply list_elem_of_fmap in Hin as (j & E & _).
      by apply (Migration.new_ne_old _ _ _ _ Hnd k j).
  - intros j _. rewrite Migration.readThrough_markers.
    + apply Hsrc. apply elem_of_app. left. apply list_elem_of_fmap.
      eexists. split; [done|apply MigrationFacts.all_kinds].
    + intros E. symmetry in E. by apply (Migration.marker_ne_old _ _ _ _ Hnd j).
    + intros E. symmetry in E. by apply (Migration.markerDirect_ne_old _ _ _ _ Hnd j).
  - intros En j _. rewrite Migration.readThrough_markers.
    + apply Hsrc. apply elem_of_app. right. rewrite En. apply list_elem_of_fmap.
      eexists. split; [done|apply MigrationFacts.all_kinds].
    + intros E. symmetry in E. by apply (Migration.marker_ne_hashed _ _ _ _ Hnd j).
    + intros E. symmetry in E.
      by apply (Migration.markerDirect_ne_hashed _ _ _ _ Hnd j).
Qed.

(** X14. [clearCache] removes the fetch offset and the ciphertext cache of
    the wallet: read right after it, the offset is 0 and the cache is
    absent. The next [getUtxos] reads them after its migration step; where
    the wallet has nothing left to migrate (no entry under a legacy or a
    hashed key, neither in the adapter nor in [chrome.storage.local], and
    distinct keys), the migration returns without an error and the loop
    begins at offset 0 with no cached ciphertexts. (An entry left under a
    legacy or a hashed key is copied back by that migration.) *)
Theorem clearCache_restarts_sync (pk : string) (ek : option string)
    (suffix : string) (st : Storage) :
  storageKeySuffix pk ek = Ok suffix ->
  let st' := snd (clearCache pk ek st) in
  fst (clearCache pk ek st) = Ok tt /\
  readOffset suffix st' = Js.JInt 0 /\
  parseCached (Store.getItem (LSK_ENCRYPTED_OUTPUTS +:+ suffix) st') = Ok None /\
  (NoDup (Migration.migrationKeys pk ek) ->
   (forall y, y ∈ MigrationTwice.sourceKeys pk ek -> Store.readThrough y st = None) ->
   forall (now : Z) (fuel rpcFuel rpc page : nat) (remote : Remote),
     let r := Migration.migrateStorageKeys now pk ek st' in
     fst r = Ok tt /\
     readOffset suffix (snd r) = Js.JInt 0 /\
     parseCached (Store.getItem (LSK_ENCRYPTED_OUTPUTS +:+ suffix) (snd r)) = Ok None /\
     tryBlock fuel rpcFuel remote now pk ek st' rpc page
     = syncLoop fuel rpcFuel remote pk ek suffix (mkLoop (snd r) rpc page [] [])).
Proof.
  intros Hs st'.
  assert (H1 : forall k a b st0,
            k = a \/ k = b ->
            Store.getItem k (Store.removeItem b (Store.removeItem a st0)) = None).
  { intros k a b st0 Hk. unfold Store.getItem, Store.removeItem. cbn [cache].
    destruct (decide (k = b)) as [->|Hb]; [apply lookup_delete_eq|].
    rewrite lookup_delete_ne by done.
    destruct Hk as [-> | ->]; [apply lookup_delete_eq|done]. }
  assert (Hoff : Store.getItem (LSK_FETCH_OFFSET +:+ suffix) st' = None).
  { unfold st', clearCache. rewrite Hs. cbn [snd]. apply H1. by left. }
  assert (Hout : Store.getItem (LSK_ENCRYPTED_OUTPUTS +:+ suffix) st' = None).
  { unfold st', clearCache. rewrite Hs. cbn [snd]. apply H1. by right. }
  split; [unfold clearCache; by rewrite Hs|].
  split; [unfold readOffset; by rewrite Hoff|].
  split; [by rewrite Hout|].
  intros Hnd Hsrc now fuel rpcFuel rpc page remote r.
  assert (Hsrc' : forall y, y ∈ MigrationTwice.sourceKeys pk ek ->
                            Store.readThrough y st' = None).
  { intros y Hy. rewrite <- (Hsrc y Hy).
    unfold Store.readThrough, Store.chromeGet.
    assert (Store.getItem y st' = Store.getItem y st) as ->.
    { unfold st'. rewrite (clearCache_lookup pk ek suffix) by done.
      apply decide_False. intros Hin.
      rewrite (MigrationFacts.keyList_of_migrationKeys _ _ _ Hs) in Hnd.
      rewrite (MigrationTwice.sourceKeys_of _ _ _ Hs) in Hy. cbv zeta in Hy.
      assert (exists k, y = Migration.prefix k +:+ suffix) as [k ->].
      { apply elem_of_cons in Hin as [->|Hin];
          [by exists Migration.FetchOffset|].
        apply list_elem_of_singleton in Hin as ->.
        by exists Migration.EncryptedOutputs. }
      apply elem_of_app in Hy as [Hy|Hy].
      - apply list_elem_of_fmap in Hy as (j & E & _).
        by apply (Migration.new_ne_old _ _ _ _ Hnd k j).
      - destruct (Migration.needsMigration ek _ suffix) eqn:En;
          [|by apply elem_of_nil in Hy].
        apply list_elem_of_fmap in Hy as (j & E & _).
        by apply (Migration.new_ne_hashed _ _ _ _ Hnd k j). }
    assert (chromeLocal st' = chromeLocal st) as ->; [|done].
    unfold st', clearCache. by rewrite Hs. }
  destruct (migration_without_sources now pk ek suffix st' Migration.FetchOffset
              Hs Hnd Hsrc') as [Hok Ho].
  destruct (migration_without_sources now pk ek suffix st' Migration.EncryptedOutputs
              Hs Hnd Hsrc') as [_ He].
  cbn [Migration.prefix] in Ho, He. fold r in Hok, Ho, He.
  split; [exact Hok|].
  split; [unfold readOffset; by rewrite Ho, Hoff|].
  split; [by rewrite He, Hout|].
  unfold tryBlock. fold r. destruct r as [res st1]. cbn [fst snd] in *.
  subst res. by rewrite Hs.
Qed.

End Facts.

Lemma clearCache_restarts_sync_witness :
  let st := Store.setItem ("fetch_offset" +:+ sampleSuffix) "250" emptyStorage in
  let st' := snd (clearCache (Pr := Sample.prims) Sample.wallet None st) in
  readOffset (Pr := Sample.prims) sampleSuffix st = Js.JInt 250 /\
  readOffset (Pr := Sample.prims) sampleSuffix st' = Js.JInt 0 /\
  readOffset (Pr := Sample.prims) sampleSuffix
    (snd (Migration.migrateStorageKeys (Pr := Sample.prims) 1000 Sample.wallet None st'))
  = Js.JInt 0.
Proof.
  intros st st'.
  pose proof (clearCache_restarts_sync (Pr := Sample.prims) Sample.wallet None
                sampleSuffix st eq_refl) as H.
  cbv zeta in H. destruct H as (_ & H2 & _ & H4).
  split; [reflexivity|]. split; [exact H2|].
  assert (Hnd : NoDup (Migration.migrationKeys (Pr := Sample.prims) Sample.wallet None)).
  { apply (bool_decide_unpack _). vm_compute. exact I. }
  assert (Hsrc : forall y,
            y ∈ MigrationTwice.sourceKeys (Pr := Sample.prims) Sample.wallet None ->
            Store.readThrough y st = None).
  { intros y Hy. vm_compute in Hy.
    repeat (apply elem_of_cons in Hy as [->|Hy]); [reflexivity..|].
    by apply elem_of_nil in Hy. }
  exact (proj1 (proj2 (H4 Hnd Hsrc 1000 0%nat 0%nat 0%nat 0%nat sampleRemote))).
Defined.

(** A legacy offset that [clearCache] leaves in place comes back with the
    migration of the next [getUtxos]. *)
Example clearCache_legacy_offset :
  let legacy := "fetch_offset9fhQBb4Nd1mBQtrMJVYVfKf2PJy9NZUZdTAsp7D4xWLs4gDB4T" in
  let st := Store.setItem legacy "50"
              (Store.setItem ("fetch_offset" +:+ sampleSuffix) "250" emptyStorage) in
  let st' := snd (clearCache (Pr := Sample.prims) Sample.wallet None st) in
  readOffset (Pr := Sample.prims) sampleSuffix st' = Js.JInt 0 /\
  readOffset (Pr := Sample.prims) sampleSuffix
    (snd (Migration.migrateStorageKeys (Pr := Sample.prims) 1000 Sample.wallet None st'))
  = Js.JInt 50.
Proof. split; vm_compute; reflexivity. Qed.

End CacheFacts.

(** ** Further properties of an attempt of [getUtxos] *)

Module AttemptFacts.
Import KeyDirectory Sync.

Section Facts.
Context {Pr : Primitives}.

(** *** The ciphertext a note comes from *)

(** The note [u] was decrypted from the ciphertext [c]: it has the amount
    and the payload [c] decrypts to (its index may be the one of the
    indexer). *)
Definition decryptsTo (c : string) (u : Utxo) : Prop :=
  exists u0, decryptUtxo c = Some u0 /\
             amount u = amount u0 /\ payload u = payload u0.

Definition linked (r : Decrypt.DecryptRes) : Prop :=
  forall u, Decrypt.utxo r = Some u ->
            exists c, Decrypt.encryptedOutput r = Some c /\ decryptsTo c u.

Lemma setIndex_linked r v : linked r -> linked (Decrypt.setIndex r v).
Proof.
  intros Hr. unfold Decrypt.setIndex.
  destruct (Decrypt.utxo r) as [u|] eqn:Eu; [|done].
  destruct v as [[n|]|]; [|done|done].
  destruct (decide (index u <> n)); [|done].
  intros u' Hu'. cbn [Decrypt.utxo] in Hu'. injection Hu' as <-.
  destruct (Hr u Eu) as (c & Hc & u0 & Hd & Ha & Hp).
  exists c. split; [done|]. exists u0. by repeat split.
Qed.

Lemma updateIndexes_linked rs indices : forall i,
  Forall linked rs -> Forall linked (Decrypt.updateIndexes i rs indices).
Proof.
  induction rs as [|r rs IH]; intros i Hrs; [constructor|].
  apply Forall_cons in Hrs as [Hr Hrs]. cbn [Decrypt.updateIndexes].
  constructor; [by apply setIndex_linked|by apply IH].
Qed.

Lemma survivors_decrypt batch cu :
  cu ∈ Decrypt.survivors batch -> decryptUtxo (fst cu) = Some (snd cu).
Proof.
  unfold Decrypt.survivors. intros H.
  apply list_elem_of_omap in H as (c & _ & Hc).
  destruct (Js.truthy c); [|done].
  destruct (decryptUtxo c) as [u|] eqn:Ed; [|done].
  cbn in Hc. by injection Hc as <-.
Qed.

Lemma decrypt_outputs_linked api batch res :
  Decrypt.decrypt_outputs api batch = Ok res -> Forall linked res.
Proof.
  rewrite Decrypt.decrypt_outputs_survivors.
  destruct (Decrypt.survivors batch) as [|cu sv] eqn:Es; [intros [= <-]; constructor|].
  cbv beta iota zeta.
  destruct (api (map fst (cu :: sv))) as [m|[| |indices]]; [done|done|done|].
  destruct (negb _); [done|]. intros [= <-].
  apply (updateIndexes_linked (map Decrypt.found (cu :: sv)) indices 0%nat).
  rewrite <- Es.
  apply Forall_forall. intros r Hr.
  apply list_elem_of_fmap in Hr as (cu' & -> & Hin).
  intros u Hu. cbn in Hu. injection Hu as <-.
  exists (fst cu'). split; [done|].
  exists (snd cu'). split; [by apply (survivors_decrypt batch)|done].
Qed.

Lemma decryptedOf_linked res p :
  Forall linked res -> p ∈ decryptedOf res -> decryptsTo (snd p) (fst p).
Proof.
  intros Hres Hp. unfold decryptedOf in Hp.
  apply list_elem_of_omap in Hp as (r & Hr & Hp).
  rewrite Forall_forall in Hres. specialize (Hres r Hr).
  destruct (Decrypt.status r); [|done|done].
  destruct (Decrypt.utxo r) as [u|] eqn:Eu; [|done].
  injection Hp as <-. destruct (Hres u Eu) as (c & Ec & Hc). by rewrite Ec.
Qed.

Lemma fetchUserUtxos_linked remote response pk ek st fetched :
  fetchUserUtxos remote response pk ek st = Ok fetched ->
  exists mine,
    utxos fetched = map fst mine /\ encryptedOutputs fetched = map snd mine /\
    forall p, p ∈ mine -> decryptsTo (snd p) (fst p).
Proof.
  unfold fetchUserUtxos. destruct response as [m|c|data]; [done|done|].
  destruct (extractOutputs data) as [outs|m]; [|done].
  cbn [mbind Result_bind].
  destruct (storageKeySuffix pk ek) as [suffix|m]; [|done].
  cbn [mbind Result_bind].
  destruct (parseCached _) as [cached|m]; [|done].
  cbn [mbind Result_bind].
  destruct (Decrypt.decrypt_outputs _ outs) as [batchRes|m] eqn:E1; [|done].
  cbn [mbind Result_bind].
  apply decrypt_outputs_linked in E1.
  assert (H1 : forall p, p ∈ decryptedOf batchRes -> decryptsTo (snd p) (fst p))
    by (intros p; by apply decryptedOf_linked).
  destruct (negb (dataHasMore data)).
  - destruct cached as [l|].
    + destruct (Decrypt.decrypt_outputs _ l) as [res2|m] eqn:E2; [|done].
      cbn [mbind Result_bind]. intros [= <-]. apply decrypt_outputs_linked in E2.
      exists (decryptedOf batchRes ++ decryptedOf res2).
      split; [done|]. split; [done|].
      intros p Hp. apply elem_of_app in Hp as [Hp|Hp]; [by apply H1|].
      by apply (decryptedOf_linked res2).
    + cbn [mbind Result_bind]. intros [= <-]. by exists (decryptedOf batchRes).
  - cbn [mbind Result_bind]. intros [= <-]. by exists (decryptedOf batchRes).
Qed.

Lemma nonZero_sub post : forall pre nz,
  Spent.nonZero (length pre) (map fst post) (map snd (pre ++ post)) = Ok nz ->
  forall p : Utxo * string, p ∈ nz -> p ∈ post.
Proof.
  induction post as [|[u c] post IH]; intros pre nz Hnz p Hp.
  - injection Hnz as <-. by apply elem_of_nil in Hp.
  - cbn [map fst Spent.nonZero] in Hnz.
    destruct (BN.toNumber (amount u)) as [n|m]; [|done].
    cbn [mbind Result_bind] in Hnz.
    assert (E : pre ++ (u, c) :: post = (pre ++ [(u, c)]) ++ post)
      by (by rewrite <- app_assoc).
    assert (El : S (length pre) = length (pre ++ [(u, c)]))
      by (rewrite length_app; simpl; lia).
    rewrite E, El in Hnz.
    destruct (Spent.nonZero _ (map fst post) _) as [nz'|m] eqn:Er; [|done].
    cbn [mbind Result_bind] in Hnz. injection Hnz as <-.
    specialize (IH _ _ Er).
    assert (Hk : default "" (map snd ((pre ++ [(u, c)]) ++ post) !! length pre) = c).
    { rewrite <- E, map_app. cbn [map snd].
      rewrite list_lookup_middle by (by rewrite length_map). done. }
    destruct (0 <? n).
    + apply elem_of_cons in Hp as [->|Hp].
      * rewrite Hk. by left.
      * right. by apply IH.
    + right. by apply IH.
Qed.

Lemma unspentOfPage_sub fuel conn call mine kept call' :
  Spent.unspentOfPage fuel conn call (map fst mine) (map snd mine)
    = Some (Ok (kept, call')) ->
  forall p : Utxo * string, p ∈ kept -> p ∈ mine.
Proof.
  unfold Spent.unspentOfPage. intros H p Hp.
  destruct (Spent.nonZero 0 (map fst mine) (map snd mine)) as [[|q nz]|m] eqn:En;
    [| |done].
  - injection H as <- _. by apply elem_of_nil in Hp.
  - destruct (Spent.areUtxosSpent _ _ _ _) as [[flags c]|]; [|done].
    injection H as Hk _. rewrite <- Hk in Hp.
    apply (SyncFacts.keepUnspent_sub (q :: nz) flags 0%nat p) in Hp.
    by apply (nonZero_sub mine [] (q :: nz)).
Qed.

Lemma loopBody_linked rpcFuel remote pk ek suffix s f :
  loopBody rpcFuel remote pk ek suffix s = Some f ->
  (forall p, p ∈ valid s -> decryptsTo (snd p) (fst p)) ->
  forall p, p ∈ valid (SyncFacts.flowState f) -> decryptsTo (snd p) (fst p).
Proof.
  intros H Hv. unfold loopBody in H.
  destruct (fetchUserUtxos _ _ _ _ _) as [fetched|m] eqn:Ef;
    [|by injection H as <-].
  destruct (fetchUserUtxos_linked _ _ _ _ _ _ Ef) as (mine & Eu & Ee & Hm).
  rewrite Eu, Ee in H.
  destruct (Spent.unspentOfPage _ _ _ _ _) as [[[kept calls]|m]|] eqn:Ek;
    [|by injection H as <-|done].
  intros p Hp.
  assert (p ∈ valid s ++ kept) as Hin.
  { destruct (negb (hasMore fetched)); injection H as <-; exact Hp. }
  apply elem_of_app in Hin as [Hin|Hin]; [by apply Hv|].
  apply Hm. by apply (unspentOfPage_sub _ _ _ _ _ _ Ek).
Qed.

Lemma result_linked fuel rpcFuel remote now pk ek p s :
  tryBlock fuel rpcFuel remote now pk ek (pstorage p) (prpcCalls p) (ppages p)
    = Some (Done s) ->
  forall q, q ∈ valid s -> decryptsTo (snd q) (fst q).
Proof.
  intros Ht. unfold tryBlock in Ht.
  destruct (Migration.migrateStorageKeys now pk ek (pstorage p)) as [[[]|m] st];
    [|done].
  destruct (storageKeySuffix pk ek) as [suffix|m]; [|done].
  refine (SyncFacts.syncLoop_ind
            (fun s' => forall q, q ∈ valid s' -> decryptsTo (snd q) (fst q))
            rpcFuel remote pk ek suffix _ fuel _ (Done s) Ht _).
  - intros s1 g Hb Hs1. by apply (loopBody_linked _ _ _ _ _ _ _ Hb).
  - cbn [valid]. intros q Hq. by apply elem_of_nil in Hq.
Qed.

(** X15. After a successful [getUtxos] the ciphertext cache of the wallet
    holds the ciphertexts of the returned notes and nothing else, each
    once, in the order of their first note: the result and the cache are
    the two columns of one list of pairs, the second column without its
    repetitions, and each pair is a note with the ciphertext it was
    decrypted from (the note has the amount and the payload the ciphertext
    decrypts to). *)
Theorem cache_matches_result (fuel rpcFuel : nat) (remote : Remote) (now : Z)
    (pk : string) (ek : option string) (p p' : Process) (id : nat)
    (r : list Utxo) :
  getUtxos fuel rpcFuel remote now pk ek p = Some (Settled id (Ok r), p') ->
  exists (suffix : string) (pairs : list (Utxo * string)) (cached : list string),
    storageKeySuffix pk ek = Ok suffix /\
    r = map fst pairs /\
    Store.getItem (LSK_ENCRYPTED_OUTPUTS +:+ suffix) (pstorage p')
      = Some (JSON_stringify cached) /\
    NoDup cached /\
    (forall c, c ∈ cached <-> exists u, (u, c) ∈ pairs) /\
    cached = Js.uniq (map snd pairs) /\
    (forall u c, (u, c) ∈ pairs ->
       exists u0, decryptUtxo c = Some u0 /\
                  amount u = amount u0 /\ payload u = payload u0).
Proof.
  intros Hg.
  destruct (getUtxos_success _ _ _ _ _ _ _ _ _ _ Hg) as (s & Ht & Hf).
  pose proof (result_linked _ _ _ _ _ _ _ _ Ht) as Hl.
  unfold finalize in Hf.
  destruct (storageKeySuffix pk ek) as [suffix|m]; [|by inversion Hf].
  injection Hf as Hr Hst.
  exists suffix, (valid s), (Js.uniq (map snd (valid s))).
  split; [done|]. split; [done|]. split; [|split; [|split; [|split]]].
  - rewrite <- Hst. apply Migration.getItem_setItem_eq.
  - apply JsFacts.uniq_NoDup.
  - intros c. rewrite JsFacts.uniq_elem, list_elem_of_fmap. split.
    + intros ([u c'] & -> & Hin). by exists u.
    + intros (u & Hin). by exists (u, c).
  - done.
  - intros u c Hin. exact (Hl (u, c) Hin).
Qed.

(** X16. A session key that cannot be used (it is no base64, or no AES
    key) makes [getUtxos] fail before any page is requested: the attempt
    ends with the error of the key derivation, no page and no ledger call
    is made, the handle is empty again, and the storage differs from the
    one before the call in the migration marker at most. *)
Theorem getUtxos_unusable_session_key (fuel rpcFuel : nat) (remote : Remote)
    (now : Z) (pk : string) (ek : option string) (p : Process) (m : string) :
  getMyUtxosPromise p = None ->
  storageKeySuffix pk ek = Err m ->
  exists p',
    getUtxos fuel rpcFuel remote now pk ek p
      = Some (Settled (attempts p) (Err m), p') /\
    ppages p' = ppages p /\ prpcCalls p' = prpcCalls p /\
    getMyUtxosPromise p' = None /\
    forall x, x <> Migration.marker ->
      Store.getItem x (pstorage p') = Store.getItem x (pstorage p).
Proof.
  intros Hh Hs. unfold getUtxos.
  assert (precheck pk ek p = Ok p) as ->.
  { unfold precheck. rewrite Hh. by destruct (usableKey ek). }
  rewrite Hh. cbn [pstorage prpcCalls ppages attempts getMyUtxosPromise].
  unfold tryBlock, Migration.migrateStorageKeys, Migration.migrateAll.
  rewrite Migration.suffix_hashed, Hs.
  eexists. split; [reflexivity|]. cbn [pstorage ppages prpcCalls getMyUtxosPromise
                                        storage rpcCalls pages].
  split; [done|]. split; [done|]. split; [done|].
  intros x Hx. unfold Store.chromeSet, Store.getItem. cbn [cache].
  unfold Store.setItem. cbn [cache]. by rewrite lookup_insert_ne.
Qed.

End Facts.

Lemma cache_matches_result_witness :
  Store.getItem ("encrypted_outputs" +:+ sampleSuffix) (pstorage sampleAfter)
  = Some (JSON_stringify (Primitives := Sample.prims) ["aa"; "cc"]).
Proof.
  destruct (cache_matches_result (Pr := Sample.prims) 5 3 sampleRemote 1000
              Sample.wallet None emptyProcess sampleAfter 0
              [mkUtxo 5 100 "aa"; mkUtxo 7 102 "cc"])
    as (suffix & pairs & cached & Hs & Hr & Hget & Hnd & Hc & _).
  - vm_compute. reflexivity.
  - vm_compute. reflexivity.
Defined.

Lemma getUtxos_unusable_session_key_witness :
  exists p',
    getUtxos (Pr := Sample.prims) 0 0 sampleRemote 1000 Sample.wallet (Some "short")
      emptyProcess
    = Some (Settled 0 (Err "Failed to encrypt storage key name"), p') /\
    ppages p' = 0%nat /\ prpcCalls p' = 0%nat /\ getMyUtxosPromise p' = None.
Proof.
  destruct (getUtxos_unusable_session_key (Pr := Sample.prims) 0 0 sampleRemote 1000
              Sample.wallet (Some "short") emptyProcess
              "Failed to encrypt storage key name" eq_refl eq_refl)
    as (p' & Hg & Hp & Hr & Hh & _).
  exists p'. by repeat split.
Defined.

End AttemptFacts.

(** ** The balance ([getBalanceFromUtxos], [getPrivateBalance]) *)

Module Balance.
Import KeyDirectory Sync.

(** [utxos.reduce((sum, utxo) => sum.add(utxo.amount), new BN(0))] *)
Definition totalBalance (utxos : list Utxo) : Z :=
  foldl (fun sum utxo => sum + amount utxo) 0 utxos.

Section WithToNumber.
(** [BN.toNumber]: the number, or an error on a value a JavaScript number
    does not hold exactly. *)
Variable toNumber : Z -> Result Z.

(** [getBalanceFromUtxos]; the answer is the field [lamports]. *)
Definition getBalanceFromUtxos (utxos : list Utxo) : Result Z :=
  toNumber (totalBalance utxos).

Context {Pr : Primitives}.

(** [getPrivateBalance] of [index.ts], for a caller that awaits it. *)
Definition getPrivateBalance (fuel rpcFuel : nat) (remote : Remote) (now : Z)
    (publicKey : string) (storageKeyEncryptionKey : option string) (p : Process)
  : option (Result Z * Process) :=
  match getUtxos fuel rpcFuel remote now publicKey storageKeyEncryptionKey p with
  | Some (Settled _ (Ok utxos), p') => Some (getBalanceFromUtxos utxos, p')
  | Some (Settled _ (Err m), p') => Some (Err m, p')
  | Some (Rejected m, p') => Some (Err m, p')
  | Some (Attached _, _) | None => None
  end.

Lemma foldl_balance utxos : forall acc,
  foldl (fun sum utxo => sum + amount utxo) acc utxos = acc + totalBalance utxos.
Proof.
  unfold totalBalance. induction utxos as [|u utxos IH]; intros acc; [simpl; lia|].
  cbn [foldl]. rewrite IH, (IH (0 + amount u)). lia.
Qed.

Lemma totalBalance_cons u utxos : totalBalance (u :: utxos) = amount u + totalBalance utxos.
Proof. unfold totalBalance at 1. cbn [foldl]. by rewrite foldl_balance. Qed.

Lemma totalBalance_perm l l' : Permutation l l' -> totalBalance l = totalBalance l'.
Proof.
  induction 1 as [|x l l' _ IH|x y l|l l' l'' _ IH1 _ IH2].
  - done.
  - by rewrite !totalBalance_cons, IH.
  - rewrite !totalBalance_cons. lia.
  - by rewrite IH1.
Qed.

(** X17. The balance does not depend on the order of the notes, and the
    balance of two lists put together is computed from the sum of their
    totals. *)
Theorem balance_order_independent (l l' : list Utxo) :
  Permutation l l' ->
  getBalanceFromUtxos l = getBalanceFromUtxos l' /\
  forall more, getBalanceFromUtxos (l ++ more)
               = toNumber (totalBalance l' + totalBalance more).
Proof.
  intros Hp. unfold getBalanceFromUtxos. split.
  - by rewrite (totalBalance_perm _ _ Hp).
  - intros more. f_equal. unfold totalBalance at 1.
    rewrite foldl_app, foldl_balance. fold (totalBalance l).
    by rewrite (totalBalance_perm _ _ Hp).
Qed.

(** X18. The private balance after a successful synchronisation is the
    number for the sum of the amounts of the notes [getUtxos] returned, and
    that sum is at least the number of those notes: it is 0 only when no
    note is returned. *)
Theorem private_balance_bound (fuel rpcFuel : nat) (remote : Remote) (now : Z)
    (pk : string) (ek : option string) (p p' : Process) (id : nat)
    (r : list Utxo) :
  getUtxos fuel rpcFuel remote now pk ek p = Some (Settled id (Ok r), p') ->
  getPrivateBalance fuel rpcFuel remote now pk ek p
    = Some (toNumber (totalBalance r), p') /\
  Z.of_nat (length r) <= totalBalance r.
Proof.
  intros Hg. split.
  - unfold getPrivateBalance. by rewrite Hg.
  - pose proof (SyncFacts.result_positive _ _ _ _ _ _ _ _ _ _ Hg) as Hpos.
    clear Hg. induction r as [|u r IH]; [done|].
    rewrite totalBalance_cons. cbn [length].
    assert (0 < amount u) by (apply Hpos; set_solver).
    assert (Z.of_nat (length r) <= totalBalance r)
      by (apply IH; intros v Hv; apply Hpos; set_solver).
    lia.
Qed.

End WithToNumber.

(** [BN.toNumber] on the integers below [2^53]. *)
Definition toNumber53 (z : Z) : Result Z :=
  if Z.abs z <? 2 ^ 53 then Ok z
  else Err "Number can only safely store up to 53 bits".

Lemma balance_order_independent_witness :
  getBalanceFromUtxos toNumber53 [mkUtxo 5 100 "aa"; mkUtxo 7 102 "cc"] = Ok 12 /\
  getBalanceFromUtxos toNumber53 [mkUtxo 7 102 "cc"; mkUtxo 5 100 "aa"] = Ok 12.
Proof.
  destruct (balance_order_independent toNumber53
              [mkUtxo 5 100 "aa"; mkUtxo 7 102 "cc"]
              [mkUtxo 7 102 "cc"; mkUtxo 5 100 "aa"]) as [H _].
  - apply perm_swap.
  - split; [reflexivity|]. rewrite <- H. reflexivity.
Defined.

Lemma private_balance_bound_witness :
  getPrivateBalance (Pr := Sample.prims) toNumber53 5 3 sampleRemote 1000
    Sample.wallet None emptyProcess = Some (Ok 12, sampleAfter).
Proof.
  destruct (private_balance_bound (Pr := Sample.prims) toNumber53 5 3 sampleRemote
              1000 Sample.wallet None emptyProcess sampleAfter 0
              [mkUtxo 5 100 "aa"; mkUtxo 7 102 "cc"]) as [H _].
  - vm_compute. reflexivity.
  - exact H.
Defined.

End Balance.

(** ** Migration for several wallets ([migrateMultipleWalletsKeys]) *)

Module MultiWallet.
Import KeyDirectory Migration.

Section WithPrimitives.
Context {Pr : Primitives}.

(** [new PublicKey(publicKeyStr)] followed by the [toString()] that
    [migrateStorageKeys] applies: the address, or nothing where the
    constructor throws. *)
Variable parsePublicKey : string -> option string.

(** The body of the loop: whatever is thrown is caught and logged, and the
    storage stays as the failing step left it. *)
Definition migrateOne (now : Z) (publicKeyStr encryptionKey : string)
    (st : Storage) : Storage :=
  match parsePublicKey publicKeyStr with
  | Some publicKey => snd (migrateStorageKeys now publicKey (Some encryptionKey) st)
  | None => st
  end.

(** [migrateMultipleWalletsKeys]; [now i] is the time at which the wallet
    at position [i] is processed. *)
Definition migrateMultipleWalletsKeys (now : nat -> Z) (publicKeys : list string)
    (st : Storage) (encryptionKey : string) : Storage :=
  if negb (Js.truthy encryptionKey) || Nat.eqb (length publicKeys) 0 then st
  else
    fst (foldl (fun acc publicKeyStr =>
                  (migrateOne (now (snd acc)) publicKeyStr encryptionKey (fst acc),
                   S (snd acc)))
           (st, 0%nat) publicKeys).

(** An entry outside the keys of a wallet and the markers reads the same
    after a run for that wallet, also when the run throws. *)
Lemma migrateStorageKeys_outside now pk ek st x :
  x <> marker -> x <> markerDirect -> x ∉ migrationKeys pk ek ->
  Store.readThrough x (snd (migrateStorageKeys now pk ek st)) = Store.readThrough x st.
Proof.
  intros Hm Hd Hx. unfold migrateStorageKeys, migrateAll.
  rewrite suffix_hashed.
  destruct (storageKeySuffix pk ek) as [newS|m] eqn:Hs; cbn [snd].
  - rewrite (MigrationFacts.keyList_of_migrationKeys _ _ _ Hs) in Hx.
    rewrite readThrough_deleteOldKeys
      by (intros Hin; by apply MigrationFacts.del_in_keyList in Hin).
    rewrite (run_other Store.readThrough Store.writeBoth _ _ _
               readThrough_writeBoth_ne).
    + cbn [fst]. by apply readThrough_markers.
    + intros k _ ->. apply Hx, MigrationFacts.keyList_new.
  - by apply readThrough_markers.
Qed.

(** X19. [migrateMultipleWalletsKeys] does nothing without a session key
    or without wallets, and otherwise touches the keys of the listed
    wallets only: an entry that is no marker and no storage key of a listed
    wallet that parses reads afterwards as before, whichever of the runs
    failed. *)
Theorem migrateMultipleWalletsKeys_frame (now : nat -> Z)
    (publicKeys : list string) (st : Storage) (encryptionKey : string) :
  (Js.truthy encryptionKey = false \/ publicKeys = [] ->
   migrateMultipleWalletsKeys now publicKeys st encryptionKey = st) /\
  forall x,
    x <> marker -> x <> markerDirect ->
    (forall publicKeyStr pk,
       publicKeyStr ∈ publicKeys -> parsePublicKey publicKeyStr = Some pk ->
       x ∉ migrationKeys pk (Some encryptionKey)) ->
    Store.readThrough x (migrateMultipleWalletsKeys now publicKeys st encryptionKey)
    = Store.readThrough x st.
Proof.
  split.
  - unfold migrateMultipleWalletsKeys. intros [-> | ->]; [done|].
    by rewrite orb_true_r.
  - intros x Hm Hd Hx. unfold migrateMultipleWalletsKeys.
    destruct (negb (Js.truthy encryptionKey) || Nat.eqb (length publicKeys) 0);
      [done|].
    generalize 0%nat. revert st.
    induction publicKeys as [|str rest IH]; intros st i; [done|].
    cbn [foldl fst snd].
    rewrite IH by (intros s0 pk0 Hin Hp0; apply (Hx s0 pk0); [by right|done]).
    unfold migrateOne.
    destruct (parsePublicKey str) as [pk|] eqn:Ep; [|done].
    apply migrateStorageKeys_outside; [done|done|].
    apply (Hx str); [by left|done].
Qed.

End WithPrimitives.

Lemma migrateMultipleWalletsKeys_frame_witness :
  let parse := fun s : string => if is_base58 s then Some s else None in
  let x := "fetch_offset9fhQBbsha256:" +:+ Sample.otherWallet in
  Store.readThrough x
    (migrateMultipleWalletsKeys (Pr := Sample.prims) parse (fun i => 1000 + Z.of_nat i)
       [Sample.wallet; "not a wallet"] MigrationFacts.legacyStorage Sample.sessionKey)
  = Some "7".
Proof.
  intros parse x.
  destruct (migrateMultipleWalletsKeys_frame (Pr := Sample.prims) parse
              (fun i => 1000 + Z.of_nat i) [Sample.wallet; "not a wallet"]
              MigrationFacts.legacyStorage Sample.sessionKey) as [_ H].
  rewrite (H x); [reflexivity|by vm_compute|by vm_compute|].
  intros str pk Hin Hp.
  apply elem_of_cons in Hin as [->|Hin].
  - injection Hp as <-. apply (bool_decide_unpack _). vm_compute. exact I.
  - apply list_elem_of_singleton in Hin. subst str. discriminate Hp.
Defined.

End MultiWallet.

(** ** Reading an encrypted key name back ([decryptStorageKeyName]) *)

Module KeyNames.
Import KeyDirectory.

(** [s.replace(/-/g, '+').replace(/_/g, '/')] *)
Fixpoint fromBase64url (s : string) : string :=
  match s with
  | "" => ""
  | String a s' =>
      if Ascii.eqb a "-" then String "+" (fromBase64url s')
      else if Ascii.eqb a "_" then String "/" (fromBase64url s')
      else String a (fromBase64url s')
  end.

(** ['='.repeat(n)] *)
Fixpoint repeatEq (n : nat) : string :=
  match n with
  | O => ""
  | S n' => String "=" (repeatEq n')
  end.

(** [base64 + '='.repeat((4 - (base64.length % 4)) % 4)] *)
Definition padBase64 (base64 : string) : string :=
  base64 +:+ repeatEq ((4 - String.length base64 mod 4) mod 4).

(** [s.includes(c)] for a character [c] *)
Definition includes (c : ascii) (s : string) : bool :=
  string_existsb (Ascii.eqb c) s.

(** [isEncryptedStorageKey] *)
Definition isEncryptedStorageKey (keySuffix : string) : bool :=
  if includes "-" keySuffix || includes "_" keySuffix
  then Nat.ltb 50 (String.length keySuffix)
  else false.

Section WithPrimitives.
Context {Pr : Primitives}.

(** [crypto.subtle.decrypt({name: 'AES-GCM', iv}, key, data)]; it throws
    on data the key did not produce. *)
Variable aes_gcm_decrypt : string -> string -> string -> option string.

(** [decryptStorageKeyName]: every failure inside, the one of the length
    test included, is rethrown as one error. *)
Definition decryptStorageKeyName (encryptedKeyName encryptionKey : string)
  : Result string :=
  match atob encryptionKey with
  | None => Err "Failed to decrypt storage key name"
  | Some keyBytes =>
      match importKey keyBytes with
      | None => Err "Failed to decrypt storage key name"
      | Some cryptoKey =>
          let base64 := fromBase64url encryptedKeyName in
          let paddedBase64 := padBase64 base64 in
          match atob paddedBase64 with
          | None => Err "Failed to decrypt storage key name"
          | Some encryptedBuffer =>
              if Nat.ltb (String.length encryptedBuffer) 12
              then Err "Failed to decrypt storage key name"
              else
                let iv := String.substring 0 12 encryptedBuffer in
                let encryptedData :=
                  String.substring 12 (String.length encryptedBuffer - 12)
                    encryptedBuffer in
                match aes_gcm_decrypt cryptoKey iv encryptedData with
                | None => Err "Failed to decrypt storage key name"
                | Some decrypted => Ok decrypted
                end
          end
      end
  end.

End WithPrimitives.

(** *** Base64 texts *)

(** The characters [+] and [/] go to [-] and [_] and come back. *)
Fixpoint body64 (s : string) : bool :=
  match s with
  | "" => true
  | String a s' =>
      negb (Ascii.eqb a "=" || Ascii.eqb a "-" || Ascii.eqb a "_") && body64 s'
  end.

Lemma base64url_repeatEq n : base64url (repeatEq n) = "".
Proof. induction n as [|n IH]; [done|]. cbn [repeatEq base64url]. by rewrite IH. Qed.

Lemma base64url_body body rest :
  body64 body = true ->
  fromBase64url (base64url (body +:+ rest))
  = body +:+ fromBase64url (base64url rest).
Proof.
  induction body as [|a body IH]; intros Hb; [done|].
  cbn [body64] in Hb. apply andb_true_iff in Hb as [Ha Hb].
  apply negb_true_iff, orb_false_iff in Ha as [Ha Hu].
  apply orb_false_iff in Ha as [He Hm].
  change (String a body +:+ rest) with (String a (body +:+ rest)).
  change (String a body +:+ fromBase64url (base64url rest))
    with (String a (body +:+ fromBase64url (base64url rest))).
  cbn [base64url].
  destruct (Ascii.eqb a "+") eqn:Ep.
  { apply Ascii.eqb_eq in Ep. subst a. cbn [fromBase64url]. by rewrite IH. }
  destruct (Ascii.eqb a "/") eqn:Es.
  { apply Ascii.eqb_eq in Es. subst a. cbn [fromBase64url]. by rewrite IH. }
  rewrite He. cbn [fromBase64url]. rewrite Hm, Hu. by rewrite IH.
Qed.

Lemma append_cons a (s t : string) : String a s +:+ t = String a (s +:+ t).
Proof. reflexivity. Qed.

Lemma append_nil_r (s : string) : s +:+ "" = s.
Proof. induction s as [|a s IH]; [done|]. by rewrite append_cons, IH. Qed.

(** A base64 text is restored from its base64url form by [fromBase64url]
    and [padBase64]. *)
Lemma padBase64_restores body k :
  body64 body = true -> (k < 4)%nat ->
  ((String.length body + k) mod 4 = 0)%nat ->
  padBase64 (fromBase64url (base64url (body +:+ repeatEq k))) = body +:+ repeatEq k.
Proof.
  intros Hb Hk Hm. rewrite base64url_body by done.
  rewrite base64url_repeatEq. cbn [fromBase64url]. rewrite append_nil_r.
  unfold padBase64. f_equal. f_equal.
  pose proof (Nat.mod_upper_bound (String.length body) 4 ltac:(lia)) as Hlt.
  pose proof (Nat.div_mod_eq (String.length body) 4) as Hd.
  pose proof (Nat.div_mod_eq (String.length body + k) 4) as Hd'.
  rewrite Hm in Hd'.
  set (r := (String.length body mod 4)%nat) in *.
  set (q := (String.length body / 4)%nat) in *.
  set (q' := ((String.length body + k) / 4)%nat) in *.
  clearbody r q q'.
  assert (Hcases : ((r = 0 /\ k = 0) \/ (r + k = 4))%nat) by lia.
  destruct Hcases as [[Hr Hk0]|Hs]; [by subst|].
  assert (4 - r = k)%nat as -> by lia.
  by rewrite Nat.mod_small.
Qed.

Lemma length_append (s t : string) :
  String.length (s +:+ t) = (String.length s + String.length t)%nat.
Proof.
  induction s as [|a s IH]; [done|]. rewrite append_cons. simpl. by rewrite IH.
Qed.

Lemma substring_append_l (s t : string) :
  String.substring 0 (String.length s) (s +:+ t) = s.
Proof.
  induction s as [|a s IH]; [by destruct t|]. rewrite append_cons. simpl.
  by rewrite IH.
Qed.

Lemma substring_all (t : string) : String.substring 0 (String.length t) t = t.
Proof. induction t as [|a t IH]; [done|]. simpl. by rewrite IH. Qed.

Lemma substring_append_r (s t : string) :
  String.substring (String.length s) (String.length t) (s +:+ t) = t.
Proof.
  induction s as [|a s IH]; [apply substring_all|]. rewrite append_cons. simpl.
  apply IH.
Qed.

Lemma length_substring_0 n (s : string) :
  (n <= String.length s)%nat -> String.length (String.substring 0 n s) = n.
Proof.
  revert s. induction n as [|n IH]; intros s Hn; [by destruct s|].
  destruct s as [|a s]; [simpl in Hn; lia|]. simpl. rewrite IH; [done|].
  simpl in Hn. lia.
Qed.

Lemma length_base64url (s : string) :
  (String.length (base64url s) <= String.length s)%nat.
Proof.
  induction s as [|a s IH]; [done|]. cbn [base64url].
  destruct (Ascii.eqb a "+"); [simpl; lia|].
  destruct (Ascii.eqb a "/"); [simpl; lia|].
  destruct (Ascii.eqb a "="); simpl; lia.
Qed.

Lemma length_substring_le n (s : string) :
  (String.length (String.substring 0 n s) <= n)%nat.
Proof.
  revert s. induction n as [|n IH]; intros s; [by destruct s|].
  destruct s as [|a s]; [simpl; lia|]. simpl. specialize (IH s). lia.
Qed.

Section RoundTrip.
Context {Pr : Primitives}.
Variable aes_gcm_decrypt : string -> string -> string -> option string.

(** X21. A hashed key name is never taken for an encrypted one: where the
    base64 text of the digest has the 44 characters of a SHA-256 digest (or
    fewer), [isEncryptedStorageKey] answers [false] on the hashed name and
    on the whole hashed suffix, the six characters of the program
    identifier included. *)
Theorem hashed_suffix_not_encrypted (keyString : string) :
  (String.length (btoa (sha256 keyString)) <= 44)%nat ->
  isEncryptedStorageKey (hashedName keyString) = false /\
  isEncryptedStorageKey (contractPrefix +:+ hashedName keyString) = false.
Proof.
  intros Hlen.
  assert (Hh : (String.length (hashedName keyString) <= 44)%nat).
  { unfold hashedName. pose proof (length_base64url (btoa (sha256 keyString))). lia. }
  assert (Hp : (String.length (contractPrefix +:+ hashedName keyString) <= 50)%nat).
  { rewrite length_append. unfold contractPrefix.
    pose proof (length_substring_le 6 PROGRAM_ID). lia. }
  unfold isEncryptedStorageKey. split.
  - destruct (_ || _); [|done]. apply Nat.ltb_ge. lia.
  - destruct (_ || _); [|done]. by apply Nat.ltb_ge.
Qed.

(** X20. A key name made by [encryptStorageKeyName] is read back by
    [decryptStorageKeyName]: where the digest has its 12 bytes, [btoa]
    writes the combined bytes as a base64 text (a body without [=], [-]
    and [_], padded with [=] to a multiple of four) that [atob] reads back,
    and the AES decryption undoes the encryption under the same key and
    IV, the decrypted name is the wallet string. The IV read from the first
    12 bytes is the one the name was encrypted with. *)
Theorem storage_key_name_roundtrip (publicKeyString encryptionKey name : string)
    (keyBytes cryptoKey body : string) (k : nat) :
  let iv := String.substring 0 12 (sha256 publicKeyString) in
  let encrypted := aes_gcm_encrypt cryptoKey iv publicKeyString in
  atob encryptionKey = Some keyBytes ->
  importKey keyBytes = Some cryptoKey ->
  (12 <= String.length (sha256 publicKeyString))%nat ->
  btoa (iv +:+ encrypted) = body +:+ repeatEq k ->
  body64 body = true -> (k < 4)%nat -> ((String.length body + k) mod 4 = 0)%nat ->
  atob (body +:+ repeatEq k) = Some (iv +:+ encrypted) ->
  aes_gcm_decrypt cryptoKey iv encrypted = Some publicKeyString ->
  encryptStorageKeyName publicKeyString encryptionKey = Ok name ->
  decryptStorageKeyName aes_gcm_decrypt name encryptionKey = Ok publicKeyString.
Proof.
  intros iv encrypted Hk Hi Hlen Hb Hbody Hk4 Hmod Ha Hd He.
  unfold encryptStorageKeyName in He. rewrite Hk, Hi in He.
  cbv zeta in He. fold iv in He. fold encrypted in He.
  injection He as <-.
  unfold decryptStorageKeyName. rewrite Hk, Hi. cbv zeta.
  rewrite Hb, padBase64_restores, Ha by done.
  assert (Hiv : String.length iv = 12%nat) by (by apply length_substring_0).
  rewrite length_append, Hiv.
  destruct (Nat.ltb_spec (12 + String.length encrypted) 12) as [Hlt|_]; [lia|].
  replace (12 + String.length encrypted - 12)%nat
    with (String.length encrypted) by lia.
  pose proof (substring_append_l iv encrypted) as E1. rewrite Hiv in E1.
  pose proof (substring_append_r iv encrypted) as E2. rewrite Hiv in E2.
  by rewrite E1, E2, Hd.
Qed.

End RoundTrip.

(** *** A concrete instance with padded base64 texts *)

(** The text without its [=] characters. *)
Fixpoint dropEq (s : string) : string :=
  match s with
  | "" => ""
  | String a s' => if Ascii.eqb a "=" then dropEq s' else String a (dropEq s')
  end.

Definition paddedPrims : Primitives := {|
  PROGRAM_ID := PROGRAM_ID (Primitives := Sample.prims);
  LSK_FETCH_OFFSET := LSK_FETCH_OFFSET (Primitives := Sample.prims);
  LSK_ENCRYPTED_OUTPUTS := LSK_ENCRYPTED_OUTPUTS (Primitives := Sample.prims);
  FETCH_UTXOS_GROUP_SIZE := FETCH_UTXOS_GROUP_SIZE (Primitives := Sample.prims);
  sha256 := sha256 (Primitives := Sample.prims);
  btoa := padBase64;
  atob := fun s => Some (dropEq s);
  importKey := importKey (Primitives := Sample.prims);
  aes_gcm_encrypt := aes_gcm_encrypt (Primitives := Sample.prims);
  JSON_parse := JSON_parse (Primitives := Sample.prims);
  JSON_stringify := JSON_stringify (Primitives := Sample.prims);
  decryptUtxo := decryptUtxo (Primitives := Sample.prims);
  getNullifier := getNullifier (Primitives := Sample.prims);
  findProgramAddress := findProgramAddress (Primitives := Sample.prims);
|}.

(** The inverse of the sample encryption on the sample wallet. *)
Definition sampleDecrypt (key iv data : string) : option string :=
  if String.eqb data (aes_gcm_encrypt (Primitives := Sample.prims) key iv Sample.wallet)
  then Some Sample.wallet else None.

Definition sampleName : string :=
  match encryptStorageKeyName (Pr := paddedPrims) Sample.wallet Sample.sessionKey with
  | Ok name => name
  | Err _ => ""
  end.

Lemma hashed_suffix_not_encrypted_witness :
  isEncryptedStorageKey
    (contractPrefix (Pr := Sample.prims) +:+ hashedName (Pr := Sample.prims) "a-b")
  = false.
Proof.
  apply (hashed_suffix_not_encrypted (Pr := Sample.prims) "a-b"). vm_compute. lia.
Defined.

Lemma storage_key_name_roundtrip_witness :
  encryptStorageKeyName (Pr := paddedPrims) Sample.wallet Sample.sessionKey
    = Ok sampleName /\
  decryptStorageKeyName (Pr := paddedPrims) sampleDecrypt sampleName Sample.sessionKey
    = Ok Sample.wallet.
Proof.
  assert (He : encryptStorageKeyName (Pr := paddedPrims) Sample.wallet
                 Sample.sessionKey = Ok sampleName) by reflexivity.
  split; [exact He|].
  apply (storage_key_name_roundtrip (Pr := paddedPrims) sampleDecrypt Sample.wallet
           Sample.sessionKey sampleName Sample.sessionKey Sample.sessionKey
           ("sha256:4Nd1m" +:+
            "aes(0123456789abcdef,4Nd1mBQtrMJVYVfKf2PJy9NZUZdTAsp7D4xWLs4gDB4T)") 2);
    try reflexivity.
  - vm_compute. lia.
  - lia.
Defined.

End KeyNames.

(** ** What the migration merges *)

Module MergeFacts.
Import KeyDirectory Migration.

Section Facts.
Context {Pr : Primitives}.


Section Run.
Variable rd : string -> Storage -> option string.
Variable wr : string -> string -> Storage -> Storage.
Variables (needs : bool) (oldS hashedS newS : string).
Hypothesis rd_wr_eq : forall k v st, rd k (wr k v st) = Some v.
Hypothesis rd_wr_ne : forall k k' v st, k <> k' -> rd k' (wr k v st) = rd k' st.
Hypothesis Hnd : NoDup (keyList needs oldS hashedS newS).

#[local] Abbreviation step := (migrateKind rd wr needs oldS hashedS newS).



End Run.


End Facts.


End MergeFacts.
